(** * Livestatus client: query builder, fixed16 framing, one-off executor, events

    A shallow embedding of the Go package [livestatus] (the query builder,
    the framing of [connection.go], [livestatus.go], [livestatus_oneoff.go]
    and [events.go]) together with the properties the specification states
    about it.

    Conventions.
    - A Go [string] and a Go [[]byte] are both sequences of bytes: [gostring]
      is [list ascii].
    - A Go [int] is modelled by [Z]; the platform is taken to be 64-bit
      ([strconv.IntSize = 64]).
    - Slices are triples (backing array, length, capacity) into a store of
      backing arrays, so that the sharing produced by a struct copy is visible.
    - A dereference of a pointer that designates no object is a run-time
      panic: the builder monad returns [None]. *)

From Stdlib Require Import String Ascii ZArith Lia Bool Arith List.
Import ListNotations.

Set Implicit Arguments.

(** ** Byte strings *)

Definition gostring := list ascii.

Definition str (s : string) : gostring := list_ascii_of_string s.

Definition NUL : ascii := "000"%char.
Definition TAB : ascii := "009"%char.
Definition LF : ascii := "010"%char.
Definition VT : ascii := "011"%char.
Definition FF : ascii := "012"%char.
Definition CR : ascii := "013"%char.
Definition SP : ascii := " "%char.

Definition byteval (c : ascii) : Z := Z.of_N (N_of_ascii c).

Fixpoint streq (a b : gostring) : bool :=
  match a, b with
  | [], [] => true
  | x :: a', y :: b' => Ascii.eqb x y && streq a' b'
  | _, _ => false
  end.

(** Go's [s[lo:hi]] for [lo <= hi <= len(s)]. *)
Definition substr (s : gostring) (lo hi : nat) : gostring :=
  firstn (hi - lo) (skipn lo s).

(** ** Package [strings] *)

Module strings.

Fixpoint HasPrefix (s prefix : gostring) : bool :=
  match prefix, s with
  | [], _ => true
  | p :: prefix', c :: s' => Ascii.eqb c p && HasPrefix s' prefix'
  | _ :: _, [] => false
  end.

Definition HasSuffix (s suffix : gostring) : bool :=
  (length suffix <=? length s)%nat
  && streq (skipn (length s - length suffix) s) suffix.

Definition TrimSuffix (s suffix : gostring) : gostring :=
  if HasSuffix s suffix then firstn (length s - length suffix) s else s.

Fixpoint Join (elems : list gostring) (sep : gostring) : gostring :=
  match elems with
  | [] => []
  | x :: rest =>
      match rest with
      | [] => x
      | _ :: _ => x ++ sep ++ Join rest sep
      end
  end.

(** [ReplaceAll s old new] for a non-empty [old]: non-overlapping instances,
    scanned from the left.  [skip] counts the bytes of a matched instance
    that are still to be dropped.  (The empty [old], which the package never
    passes, is not modelled: the scan then copies [s].) *)
Fixpoint replaceFrom (old new : gostring) (skip : nat) (s : gostring) : gostring :=
  match s with
  | [] => []
  | c :: s' =>
      match skip with
      | S k => replaceFrom old new k s'
      | O =>
          match old with
          | [] => c :: replaceFrom old new 0 s'
          | _ :: old' =>
              if HasPrefix s old
              then new ++ replaceFrom old new (length old') s'
              else c :: replaceFrom old new 0 s'
          end
      end
  end.

Definition ReplaceAll (s old new : gostring) : gostring := replaceFrom old new 0 s.

(** *** UTF-8 decoding, as far as [TrimSpace] needs it *)

Definition RuneError : Z := 65533.
Definition RuneSelf : Z := 128.

Definition inRange (lo hi b : Z) : bool := (lo <=? b)%Z && (b <=? hi)%Z.
Definition cont (b : Z) : bool := inRange 128 191 b.

(** [utf8.DecodeRuneInString]: the first rune of [s] and its width; an
    invalid or truncated encoding yields [(RuneError, 1)]. *)
Definition DecodeRune (s : gostring) : Z * nat :=
  match s with
  | [] => (RuneError, 0%nat)
  | c0 :: t =>
      let s0 := byteval c0 in
      if (s0 <? 128)%Z then (s0, 1%nat)
      else if inRange 194 223 s0 then
        match t with
        | c1 :: _ =>
            let s1 := byteval c1 in
            if cont s1
            then (Z.lor (Z.shiftl (Z.land s0 31) 6) (Z.land s1 63), 2%nat)
            else (RuneError, 1%nat)
        | _ => (RuneError, 1%nat)
        end
      else if inRange 224 239 s0 then
        match t with
        | c1 :: c2 :: _ =>
            let s1 := byteval c1 in
            let s2 := byteval c2 in
            let lo := if (s0 =? 224)%Z then 160%Z else 128%Z in
            let hi := if (s0 =? 237)%Z then 159%Z else 191%Z in
            if inRange lo hi s1 && cont s2
            then (Z.lor (Z.lor (Z.shiftl (Z.land s0 15) 12)
                               (Z.shiftl (Z.land s1 63) 6))
                        (Z.land s2 63), 3%nat)
            else (RuneError, 1%nat)
        | _ => (RuneError, 1%nat)
        end
      else if inRange 240 244 s0 then
        match t with
        | c1 :: c2 :: c3 :: _ =>
            let s1 := byteval c1 in
            let s2 := byteval c2 in
            let s3 := byteval c3 in
            let lo := if (s0 =? 240)%Z then 144%Z else 128%Z in
            let hi := if (s0 =? 244)%Z then 143%Z else 191%Z in
            if inRange lo hi s1 && cont s2 && cont s3
            then (Z.lor (Z.lor (Z.lor (Z.shiftl (Z.land s0 7) 18)
                                      (Z.shiftl (Z.land s1 63) 12))
                               (Z.shiftl (Z.land s2 63) 6))
                        (Z.land s3 63), 4%nat)
            else (RuneError, 1%nat)
        | _ => (RuneError, 1%nat)
        end
      else (RuneError, 1%nat)
  end.

(** [utf8.RuneStart]. *)
Definition RuneStart (b : Z) : bool := negb (Z.land b 192 =? 128)%Z.

(** The start index [DecodeLastRuneInString] settles on: it walks back from
    [start] while [start >= lim], and stops at the first byte that can
    start a rune; [None] stands for index -1. *)
Fixpoint backToStart (s : gostring) (lim : nat) (start : nat) : option nat :=
  if (start <? lim)%nat then Some start
  else if RuneStart (byteval (nth start s NUL)) then Some start
  else
    match start with
    | S st => backToStart s lim st
    | O => None
    end.

(** [utf8.DecodeLastRuneInString]: the last rune of [s] and its width. *)
Definition DecodeLastRune (s : gostring) : Z * nat :=
  let e := length s in
  match e with
  | O => (RuneError, 0%nat)
  | S start =>
      let r := byteval (nth start s NUL) in
      if (r <? RuneSelf)%Z then (r, 1%nat)
      else
        let lim := (e - 4)%nat in
        let st :=
          match start with
          | O => 0%nat
          | S st0 =>
              match backToStart s lim st0 with
              | Some i => i
              | None => 0%nat
              end
          end in
        let '(r', size) := DecodeRune (substr s st e) in
        if (st + size =? e)%nat then (r', size) else (RuneError, 1%nat)
  end.

(** [unicode.IsSpace]. *)
Definition IsSpace (r : Z) : bool :=
  if (r <=? 255)%Z then
    inRange 9 13 r || (r =? 32)%Z || (r =? 133)%Z || (r =? 160)%Z
  else
    (r =? 5760)%Z || inRange 8192 8202 r || inRange 8232 8233 r
    || (r =? 8239)%Z || (r =? 8287)%Z || (r =? 12288)%Z.

(** The table [asciiSpace]. *)
Definition asciiSpace (c : ascii) : bool :=
  let b := byteval c in inRange 9 13 b || (b =? 32)%Z.

(** [TrimLeftFunc s IsSpace]: drop leading runes while they are spaces. *)
Fixpoint trimLeftSpaces (fuel : nat) (s : gostring) : gostring :=
  match fuel with
  | O => s
  | S k =>
      match s with
      | [] => []
      | _ :: _ =>
          let '(r, w) := DecodeRune s in
          if IsSpace r then trimLeftSpaces k (skipn w s) else s
      end
  end.

Definition TrimLeftSpace (s : gostring) : gostring := trimLeftSpaces (length s) s.

(** [lastIndexFunc s IsSpace false]: the index at which the last rune that
    is not a space starts, scanning [s[0:i]] backwards; [None] is -1. *)
Fixpoint lastNonSpace (fuel : nat) (s : gostring) (i : nat) : option nat :=
  match fuel with
  | O => None
  | S k =>
      match i with
      | O => None
      | S _ =>
          let '(r, size) := DecodeLastRune (firstn i s) in
          let i' := (i - size)%nat in
          if IsSpace r then lastNonSpace k s i' else Some i'
      end
  end.

(** [TrimRightFunc s IsSpace]. *)
Definition TrimRightSpace (s : gostring) : gostring :=
  match lastNonSpace (length s) s (length s) with
  | Some i =>
      if (RuneSelf <=? byteval (nth i s NUL))%Z
      then firstn (i + snd (DecodeRune (skipn i s))) s
      else firstn (i + 1) s
  | None => []
  end.

(** Second loop of [TrimSpace], on the reversed remainder: [r] is
    [s[start:stop]] read backwards. *)
Fixpoint trimSpaceStop (r : gostring) : gostring :=
  match r with
  | [] => []
  | c :: r' =>
      if (RuneSelf <=? byteval c)%Z then TrimRightSpace (rev r)
      else if asciiSpace c then trimSpaceStop r'
      else rev r
  end.

(** First loop of [TrimSpace]. *)
Fixpoint trimSpaceStart (s : gostring) : gostring :=
  match s with
  | [] => []
  | c :: s' =>
      if (RuneSelf <=? byteval c)%Z then TrimRightSpace (TrimLeftSpace s)
      else if asciiSpace c then trimSpaceStart s'
      else trimSpaceStop (rev s)
  end.

Definition TrimSpace (s : gostring) : gostring := trimSpaceStart s.

End strings.


(** ** Errors

    An [error] value is kept symbolically: [fmt.Errorf] with its format and
    arguments (the message text is not rendered), the two kinds of
    [*strconv.NumError], and the errors that come from outside the package
    (the network). *)

Inductive error : Type :=
| Errorf (format : string) (args : list fmtarg)
| NumError (Func : string) (Num : gostring) (Err : numerr)
| ExternalError (msg : gostring)
with fmtarg : Type :=
| AInt (n : Z)
| AStr (s : gostring)
| AErr (e : error)
with numerr : Type :=
| ErrSyntax
| ErrRange.

(** ** Package [strconv] *)

Module strconv.

(** [ch -= '0'; if ch > 9] on a byte: the digit value, if [ch] is a digit. *)
Definition digit (c : ascii) : option Z :=
  let b := byteval c in
  if (48 <=? b)%Z && (b <=? 57)%Z then Some (b - 48)%Z else None.

Definition isSign (c : ascii) : bool := Ascii.eqb c "-"%char || Ascii.eqb c "+"%char.

(** The digit loop of the fast path of [Atoi]: [n = n*10 + int(ch)];
    [None] is the syntax error. *)
Fixpoint fastDigits (n : Z) (s : gostring) : option Z :=
  match s with
  | [] => Some n
  | c :: s' =>
      match digit c with
      | Some d => fastDigits (n * 10 + d)%Z s'
      | None => None
      end
  end.

Definition maxUint64 : Z := 18446744073709551615.
Definition cutoff10 : Z := 1844674407370955162.
Definition maxInt64 : Z := 9223372036854775807.
Definition minInt64 : Z := -9223372036854775808.

(** The digit loop of [ParseUint s 10 64]: a byte that is no digit is a
    syntax error, a value beyond 64 bits a range error, whichever comes
    first. *)
Fixpoint parseUintDigits (n : Z) (s : gostring) : Z + numerr :=
  match s with
  | [] => inl n
  | c :: s' =>
      match digit c with
      | None => inr ErrSyntax
      | Some d =>
          if (cutoff10 <=? n)%Z then inr ErrRange
          else if (maxUint64 <? n * 10 + d)%Z then inr ErrRange
          else parseUintDigits (n * 10 + d)%Z s'
      end
  end.

(** [ParseInt s 10 0] on a 64-bit platform. *)
Definition ParseInt10 (s : gostring) : Z * option numerr :=
  match s with
  | [] => (0%Z, Some ErrSyntax)
  | c :: s' =>
      let neg := Ascii.eqb c "-"%char in
      let body := if isSign c then s' else s in
      match body with
      | [] => (0%Z, Some ErrSyntax)
      | _ :: _ =>
          match parseUintDigits 0 body with
          | inr ErrSyntax => (0%Z, Some ErrSyntax)
          | inr ErrRange => ((if neg then minInt64 else maxInt64), Some ErrRange)
          | inl un =>
              if negb neg && (maxInt64 <? un)%Z then (maxInt64, Some ErrRange)
              else if neg && (maxInt64 + 1 <? un)%Z then (minInt64, Some ErrRange)
              else ((if neg then - un else un)%Z, None)
          end
      end
  end.

(** [Atoi]: the fast path for 1 to 18 bytes, [ParseInt] otherwise. *)
Definition Atoi (s : gostring) : Z * option error :=
  let sLen := length s in
  if (0 <? sLen)%nat && (sLen <? 19)%nat then
    match s with
    | [] => (0%Z, Some (NumError "Atoi" s ErrSyntax))
    | c :: s' =>
        let body := if isSign c then s' else s in
        match body with
        | [] => (0%Z, Some (NumError "Atoi" s ErrSyntax))
        | _ :: _ =>
            match fastDigits 0 body with
            | None => (0%Z, Some (NumError "Atoi" s ErrSyntax))
            | Some n => ((if Ascii.eqb c "-"%char then - n else n)%Z, None)
            end
        end
    end
  else
    match ParseInt10 s with
    | (v, Some k) => (v, Some (NumError "Atoi" s k))
    | (v, None) => (v, None)
    end.

End strconv.

(** ** Sanitisers of the query builder *)

(** [safeToken] replaces CR and LF by a space and trims. *)
Definition safeToken (s : gostring) : gostring :=
  let s := strings.ReplaceAll s [CR] [SP] in
  let s := strings.ReplaceAll s [LF] [SP] in
  strings.TrimSpace s.

(** [safeValue] removes NUL, replaces CR and LF by a space, and does not trim. *)
Definition safeValue (s : gostring) : gostring :=
  let s := strings.ReplaceAll s [NUL] [] in
  let s := strings.ReplaceAll s [CR] [SP] in
  let s := strings.ReplaceAll s [LF] [SP] in
  s.

(** ** The fixed16 response header ([connection.go]) *)

(** [parseFixed16Header]: the triple [(code, length, err)] the Go function
    returns. *)
Definition parseFixed16Header (hdr : gostring) : Z * Z * option error :=
  if negb (length hdr =? 16)%nat then
    (0%Z, 0%Z,
     Some (Errorf "fixed16 header must be 16 bytes, got %d" [AInt (Z.of_nat (length hdr))]))
  else
    let codeStr := strings.TrimSpace (substr hdr 0 3) in
    match strconv.Atoi codeStr with
    | (_, Some err) =>
        (0%Z, 0%Z, Some (Errorf "invalid status code in header %q: %w" [AStr hdr; AErr err]))
    | (code, None) =>
        let lenStr := strings.TrimSpace (substr hdr 4 15) in
        match strconv.Atoi lenStr with
        | (_, Some err) =>
            (0%Z, 0%Z, Some (Errorf "invalid length in header %q: %w" [AStr hdr; AErr err]))
        | (len, None) => (code, len, None)
        end
    end.

(** ** Package [fmt], as far as the builder uses it *)

Module fmt.

Definition digitChar (d : Z) : ascii := ascii_of_N (Z.to_N (48 + d)).

(** The decimal digits of [n >= 0], most significant first; [fuel] bounds
    the number of digits. *)
Fixpoint digitsOf (fuel : nat) (n : Z) (acc : gostring) : gostring :=
  match fuel with
  | O => acc
  | S k =>
      let acc' := digitChar (n mod 10) :: acc in
      if (n <? 10)%Z then acc' else digitsOf k (n / 10) acc'
  end.

Definition utoa (n : Z) : gostring := digitsOf (S (Z.to_nat (Z.log2 n))) n [].

(** The verb [%d] on an integer. *)
Definition d (n : Z) : gostring :=
  if (n <? 0)%Z then "-"%char :: utoa (- n) else utoa n.

End fmt.

(** ** The store: backing arrays, [bool] cells and query objects *)

(** A slice header.  The nil slice has capacity 0; its array is never read. *)
Record slice := mkSlice { s_arr : nat; s_len : nat; s_cap : nat }.

Definition nilSlice : slice := mkSlice 0 0 0.

(** [type Table string], [type OutputFormat string], [type Op string]. *)
Definition Table := gostring.
Definition OutputFormat := gostring.
Definition Op := gostring.

Definition OutputCSV : OutputFormat := str "csv".
Definition OutputJSON : OutputFormat := str "json".
Definition OutputPY : OutputFormat := str "python".

Definition OpEq : Op := str "=".
Definition OpNe : Op := str "!=".
Definition OpLt : Op := str "<".
Definition OpLe : Op := str "<=".
Definition OpGt : Op := str ">".
Definition OpGe : Op := str ">=".
Definition OpRe : Op := str "~".
Definition OpReIC : Op := str "~~".

(** [struct LiveStatusQuery].  [columnHdrs] is a [*bool]: [None] is nil,
    [Some p] the address of a cell. *)
Record LiveStatusQuery := mkQuery {
  table : Table;
  columns : slice;
  filters : slice;
  headers : slice;
  outputFormat : OutputFormat;
  columnHdrs : option nat
}.

Definition zeroQuery : LiveStatusQuery := mkQuery [] nilSlice nilSlice nilSlice [] None.

Definition with_columns (s : slice) (o : LiveStatusQuery) : LiveStatusQuery :=
  mkQuery (table o) s (filters o) (headers o) (outputFormat o) (columnHdrs o).
Definition with_filters (s : slice) (o : LiveStatusQuery) : LiveStatusQuery :=
  mkQuery (table o) (columns o) s (headers o) (outputFormat o) (columnHdrs o).
Definition with_headers (s : slice) (o : LiveStatusQuery) : LiveStatusQuery :=
  mkQuery (table o) (columns o) (filters o) s (outputFormat o) (columnHdrs o).
Definition with_outputFormat (f : OutputFormat) (o : LiveStatusQuery) : LiveStatusQuery :=
  mkQuery (table o) (columns o) (filters o) (headers o) f (columnHdrs o).
Definition with_columnHdrs (p : option nat) (o : LiveStatusQuery) : LiveStatusQuery :=
  mkQuery (table o) (columns o) (filters o) (headers o) (outputFormat o) p.

(** [arrays a i] is element [i] of backing array [a]; arrays [0 .. narrays-1]
    are allocated.  A [*LiveStatusQuery] is an index into [objs], a [*bool]
    an index into [cells]. *)
Record store := mkStore {
  arrays : nat -> nat -> gostring;
  narrays : nat;
  cells : list bool;
  objs : list LiveStatusQuery
}.

Definition emptyStore : store := mkStore (fun _ _ => []) 0 [] [].

Fixpoint upd {A : Type} (i : nat) (f : A -> A) (l : list A) : list A :=
  match l, i with
  | [], _ => []
  | x :: l', O => f x :: l'
  | x :: l', S j => x :: upd j f l'
  end.

Definition writeAt (m : nat -> nat -> gostring) (a off : nat) (xs : list gostring)
  : nat -> nat -> gostring :=
  fun a' i =>
    if (a' =? a)%nat && (off <=? i)%nat && (i <? off + length xs)%nat
    then nth (i - off) xs []
    else m a' i.

(** The elements a slice shows: [s[0], ..., s[len-1]]. *)
Definition sread (st : store) (s : slice) : list gostring :=
  map (arrays st (s_arr s)) (seq 0 (s_len s)).

(** ** The builder monad: state, with panics *)

Definition M (A : Type) : Type := store -> option (A * store).

Definition ret {A : Type} (x : A) : M A := fun st => Some (x, st).

Definition bind {A B : Type} (c : M A) (k : A -> M B) : M B :=
  fun st =>
    match c st with
    | Some (x, st') => k x st'
    | None => None
    end.

Declare Scope go_scope.
Delimit Scope go_scope with go.
Notation "x <- c ;; k" := (bind c (fun x => k))
  (at level 61, c at next level, right associativity) : go_scope.
Notation "c ;; k" := (bind c (fun _ => k))
  (at level 61, right associativity) : go_scope.
Local Open Scope go_scope.

(** [*q] *)
Definition load (q : nat) : M LiveStatusQuery :=
  fun st =>
    match nth_error (objs st) q with
    | Some o => Some (o, st)
    | None => None
    end.

(** [q.f = v], as an update of the object [q] points to. *)
Definition assign (q : nat) (f : LiveStatusQuery -> LiveStatusQuery) : M unit :=
  fun st =>
    match nth_error (objs st) q with
    | Some _ => Some (tt, mkStore (arrays st) (narrays st) (cells st) (upd q f (objs st)))
    | None => None
    end.

(** [&LiveStatusQuery{...}] *)
Definition newobj (o : LiveStatusQuery) : M nat :=
  fun st => Some (length (objs st),
                  mkStore (arrays st) (narrays st) (cells st) (objs st ++ [o])).

(** [&on] for a parameter [on]: a fresh cell. *)
Definition newcell (b : bool) : M nat :=
  fun st => Some (length (cells st),
                  mkStore (arrays st) (narrays st) (cells st ++ [b]) (objs st)).

(** [*p] for a [*bool]. *)
Definition loadcell (p : nat) : M bool :=
  fun st =>
    match nth_error (cells st) p with
    | Some b => Some (b, st)
    | None => None
    end.

Definition readSlice (s : slice) : M (list gostring) :=
  fun st => Some (sread st s, st).

Section Builder.

(** The growth policy of the run-time: [growslice oldcap needed] proposes
    the capacity of the array [append] allocates when [needed] elements do
    not fit; the allocation never holds fewer than [needed]. *)
Variable growslice : nat -> nat -> nat.

(** [append(s, xs...)]: in place when the capacity suffices, otherwise into
    a fresh array that receives a copy of the elements of [s]. *)
Definition sappend (s : slice) (xs : list gostring) : M slice :=
  fun st =>
    let n := (s_len s + length xs)%nat in
    if (n <=? s_cap s)%nat then
      Some (mkSlice (s_arr s) n (s_cap s),
            mkStore (writeAt (arrays st) (s_arr s) (s_len s) xs)
                    (narrays st) (cells st) (objs st))
    else
      let a := narrays st in
      Some (mkSlice a n (Nat.max n (growslice (s_cap s) n)),
            mkStore (writeAt (arrays st) a 0 (sread st s ++ xs))
                    (S (narrays st)) (cells st) (objs st)).

(** [make([]string, 0, c)] *)
Definition make0 (c : nat) : M slice :=
  fun st =>
    Some (mkSlice (narrays st) 0 c,
          mkStore (arrays st) (S (narrays st)) (cells st) (objs st)).

(** [slices.Clone(s)]: nil for nil (and nothing to copy for an empty [s]). *)
Definition Clone (xs : list gostring) : M slice :=
  match xs with
  | [] => ret nilSlice
  | _ :: _ => sappend nilSlice xs
  end.

(** The three slice fields of the builder. *)
Inductive fld : Type := Fcolumns | Ffilters | Fheaders.

Definition getf (f : fld) (o : LiveStatusQuery) : slice :=
  match f with
  | Fcolumns => columns o
  | Ffilters => filters o
  | Fheaders => headers o
  end.

Definition setf (f : fld) (s : slice) (o : LiveStatusQuery) : LiveStatusQuery :=
  match f with
  | Fcolumns => with_columns s o
  | Ffilters => with_filters s o
  | Fheaders => with_headers s o
  end.

(** The statement [q.f = append(q.f, xs...)]; the method then returns [q]. *)
Definition appendField (f : fld) (q : nat) (xs : list gostring) : M nat :=
  o <- load q ;;
  s <- sappend (getf f o) xs ;;
  assign q (setf f s) ;;
  ret q.

(** *** The builder's methods *)

Definition NewLiveStatusQuery (table : Table) (columns : list gostring) : M nat :=
  cpy <- Clone columns ;;
  newobj (mkQuery table cpy nilSlice nilSlice [] None).

Definition Columns (q : nat) (cols : list gostring) : M nat :=
  c <- Clone cols ;;
  assign q (with_columns c) ;;
  ret q.

Definition AddColumns (q : nat) (cols : list gostring) : M nat :=
  appendField Fcolumns q cols.

(** The method [OutputFormat]; the type of that name has taken the name. *)
Definition SetOutputFormat (q : nat) (fmt : OutputFormat) : M nat :=
  assign q (with_outputFormat fmt) ;;
  ret q.

Definition ColumnHeaders (q : nat) (on : bool) : M nat :=
  p <- newcell on ;;
  assign q (with_columnHdrs (Some p)) ;;
  ret q.

Definition Filter (q : nat) (column : gostring) (op : Op) (value : gostring) : M nat :=
  appendField Ffilters q
    [str "Filter: " ++ safeToken column ++ [SP] ++ op ++ [SP] ++ safeValue value].

Definition FilterEqual (q : nat) (column value : gostring) := Filter q column OpEq value.
Definition FilterNotEqual (q : nat) (column value : gostring) := Filter q column OpNe value.
Definition FilterLessThan (q : nat) (column value : gostring) := Filter q column OpLt value.
Definition FilterLessOrEqual (q : nat) (column value : gostring) := Filter q column OpLe value.
Definition FilterGreaterThan (q : nat) (column value : gostring) := Filter q column OpGt value.
Definition FilterGreaterOrEqual (q : nat) (column value : gostring) := Filter q column OpGe value.
Definition FilterRegex (q : nat) (column pattern : gostring) := Filter q column OpRe pattern.
Definition FilterRegexI (q : nat) (column pattern : gostring) := Filter q column OpReIC pattern.

Definition Or (q : nat) (n : Z) : M nat :=
  appendField Ffilters q [str "Or: " ++ fmt.d n].
Definition And (q : nat) (n : Z) : M nat :=
  appendField Ffilters q [str "And: " ++ fmt.d n].
Definition Negate (q : nat) : M nat :=
  appendField Ffilters q [str "Negate:"].

Definition Limit (q : nat) (n : Z) : M nat :=
  appendField Fheaders q [str "Limit: " ++ fmt.d n].

Definition WaitObject (q : nat) (object : gostring) : M nat :=
  appendField Fheaders q [str "WaitObject: " ++ safeValue object].
Definition WaitTrigger (q : nat) (trigger : gostring) : M nat :=
  appendField Fheaders q [str "WaitTrigger: " ++ safeToken trigger].
Definition WaitCondition (q : nat) (cond : gostring) : M nat :=
  appendField Fheaders q [str "WaitCondition: " ++ safeValue cond].
Definition WaitTimeout (q : nat) (ms : Z) : M nat :=
  appendField Fheaders q [str "WaitTimeout: " ++ fmt.d ms].

Definition KeepAlive (q : nat) (on : bool) : M nat :=
  if on then appendField Fheaders q [str "KeepAlive: on"]
  else appendField Fheaders q [str "KeepAlive: off"].
Definition ResponseHeaderFixed16 (q : nat) : M nat :=
  appendField Fheaders q [str "ResponseHeader: fixed16"].
Definition ResponseHeaderOff (q : nat) : M nat :=
  appendField Fheaders q [str "ResponseHeader: off"].

Definition Localtime (q : nat) (ts : Z) : M nat :=
  appendField Fheaders q [str "Localtime: " ++ fmt.d ts].

Definition Header (q : nat) (key value : gostring) : M nat :=
  let key := strings.TrimSpace (strings.TrimSuffix key (str ":")) in
  if streq key [] then ret q
  else if streq value [] then appendField Fheaders q [key ++ str ":"]
  else appendField Fheaders q [key ++ str ": " ++ safeValue value].

(** The loop of [safeTokens]: [out = append(out, safeToken(v))]. *)
Fixpoint safeTokens_loop (out : slice) (rest : list gostring) : M slice :=
  match rest with
  | [] => ret out
  | v :: rest' =>
      out' <- sappend out [safeToken v] ;;
      safeTokens_loop out' rest'
  end.

Definition safeTokens (inp : slice) : M slice :=
  out <- make0 (s_len inp) ;;
  vs <- readSlice inp ;;
  safeTokens_loop out vs.

(** [Build]: the local [lines] is a slice like any other. *)
Definition Build (q : nat) : M gostring :=
  o <- load q ;;
  lines <- sappend nilSlice [str "GET " ++ table o] ;;
  lines <- (if (0 <? s_len (columns o))%nat then
              toks <- safeTokens (columns o) ;;
              ts <- readSlice toks ;;
              sappend lines [str "Columns: " ++ strings.Join ts [SP]]
            else ret lines) ;;
  fs <- readSlice (filters o) ;;
  lines <- sappend lines fs ;;
  lines <- match columnHdrs o with
           | Some p =>
               b <- loadcell p ;;
               if b then sappend lines [str "ColumnHeaders: on"]
               else sappend lines [str "ColumnHeaders: off"]
           | None => ret lines
           end ;;
  hs <- readSlice (headers o) ;;
  lines <- sappend lines hs ;;
  lines <- (if negb (streq (outputFormat o) []) then
              sappend lines [str "OutputFormat: " ++ outputFormat o]
            else ret lines) ;;
  lines <- sappend lines [[]] ;;
  ls <- readSlice lines ;;
  ret (strings.Join ls [LF]).

(** *** Sequences of builder calls *)

Inductive call : Type :=
| CColumns (cols : list gostring)
| CAddColumns (cols : list gostring)
| COutputFormat (fmt : OutputFormat)
| CColumnHeaders (on : bool)
| CFilter (column : gostring) (op : Op) (value : gostring)
| CFilterEqual (column value : gostring)
| CFilterNotEqual (column value : gostring)
| CFilterLessThan (column value : gostring)
| CFilterLessOrEqual (column value : gostring)
| CFilterGreaterThan (column value : gostring)
| CFilterGreaterOrEqual (column value : gostring)
| CFilterRegex (column pattern : gostring)
| CFilterRegexI (column pattern : gostring)
| COr (n : Z)
| CAnd (n : Z)
| CNegate
| CLimit (n : Z)
| CWaitObject (object : gostring)
| CWaitTrigger (trigger : gostring)
| CWaitCondition (cond : gostring)
| CWaitTimeout (ms : Z)
| CKeepAlive (on : bool)
| CResponseHeaderFixed16
| CResponseHeaderOff
| CLocaltime (ts : Z)
| CHeader (key value : gostring).

Definition exec (c : call) (q : nat) : M nat :=
  match c with
  | CColumns cols => Columns q cols
  | CAddColumns cols => AddColumns q cols
  | COutputFormat f => SetOutputFormat q f
  | CColumnHeaders on => ColumnHeaders q on
  | CFilter c o v => Filter q c o v
  | CFilterEqual c v => FilterEqual q c v
  | CFilterNotEqual c v => FilterNotEqual q c v
  | CFilterLessThan c v => FilterLessThan q c v
  | CFilterLessOrEqual c v => FilterLessOrEqual q c v
  | CFilterGreaterThan c v => FilterGreaterThan q c v
  | CFilterGreaterOrEqual c v => FilterGreaterOrEqual q c v
  | CFilterRegex c v => FilterRegex q c v
  | CFilterRegexI c v => FilterRegexI q c v
  | COr n => Or q n
  | CAnd n => And q n
  | CNegate => Negate q
  | CLimit n => Limit q n
  | CWaitObject v => WaitObject q v
  | CWaitTrigger v => WaitTrigger q v
  | CWaitCondition v => WaitCondition q v
  | CWaitTimeout n => WaitTimeout q n
  | CKeepAlive on => KeepAlive q on
  | CResponseHeaderFixed16 => ResponseHeaderFixed16 q
  | CResponseHeaderOff => ResponseHeaderOff q
  | CLocaltime ts => Localtime q ts
  | CHeader k v => Header q k v
  end.

(** A chain [q.m1(...).m2(...)...]: every method returns its receiver. *)
Fixpoint chain (cs : list call) (q : nat) : M nat :=
  match cs with
  | [] => ret q
  | c :: cs' => q' <- exec c q ;; chain cs' q'
  end.

(** *** Work items ([livestatus.go]) *)

(** [struct WorkItem]: [Query] is the address of the embedded struct. *)
Record WorkItem := mkWorkItem { ID : Z; Query : nat }.

(** [&WorkItem{ID: id, Query: *q}]: the struct [*q] is copied, field by
    field, into the new work item. *)
Definition NewWorkItemFromQuery (id : Z) (q : nat) : M WorkItem :=
  o <- load q ;;
  p <- newobj o ;;
  ret (mkWorkItem id p).

(** The hand-off of [SendQuery] and [TrySendQuery]: the parameter [query]
    is a copy of the caller's struct, and the work item copies it again. *)
Definition SendQuery_item (id : Z) (q : nat) : M WorkItem :=
  o <- load q ;;
  query <- newobj o ;;
  NewWorkItemFromQuery id query.

End Builder.

(** ** What a builder shows: the abstract state behind the slices *)

Record QueryV := mkV {
  vtable : Table;
  vcolumns : list gostring;
  vfilters : list gostring;
  vheaders : list gostring;
  voutputFormat : OutputFormat;
  vcolumnHdrs : option bool
}.

Definition view (st : store) (o : LiveStatusQuery) : QueryV :=
  mkV (table o)
      (sread st (columns o)) (sread st (filters o)) (sread st (headers o))
      (outputFormat o)
      (match columnHdrs o with
       | Some p => nth_error (cells st) p
       | None => None
       end).

(** The lines of a request, in the order of the specification. *)
Definition getLine (v : QueryV) : list gostring := [str "GET " ++ vtable v].

Definition columnsLine (v : QueryV) : list gostring :=
  match vcolumns v with
  | [] => []
  | _ :: _ => [str "Columns: " ++ strings.Join (map safeToken (vcolumns v)) [SP]]
  end.

Definition columnHeadersLine (v : QueryV) : list gostring :=
  match vcolumnHdrs v with
  | Some true => [str "ColumnHeaders: on"]
  | Some false => [str "ColumnHeaders: off"]
  | None => []
  end.

Definition outputFormatLine (v : QueryV) : list gostring :=
  match voutputFormat v with
  | [] => []
  | _ :: _ => [str "OutputFormat: " ++ voutputFormat v]
  end.

Definition linesV (v : QueryV) : list gostring :=
  getLine v ++ columnsLine v ++ vfilters v ++ columnHeadersLine v
  ++ vheaders v ++ outputFormatLine v ++ [[]].

Definition addFilter (line : gostring) (v : QueryV) : QueryV :=
  mkV (vtable v) (vcolumns v) (vfilters v ++ [line]) (vheaders v)
      (voutputFormat v) (vcolumnHdrs v).

Definition addHeader (line : gostring) (v : QueryV) : QueryV :=
  mkV (vtable v) (vcolumns v) (vfilters v) (vheaders v ++ [line])
      (voutputFormat v) (vcolumnHdrs v).

Definition filterLine (column : gostring) (op : Op) (value : gostring) : gostring :=
  str "Filter: " ++ safeToken column ++ [SP] ++ op ++ [SP] ++ safeValue value.

(** The line [Header key value] appends, if any. *)
Definition headerLine (key value : gostring) : option gostring :=
  let key := strings.TrimSpace (strings.TrimSuffix key (str ":")) in
  match key with
  | [] => None
  | _ :: _ =>
      match value with
      | [] => Some (key ++ str ":")
      | _ :: _ => Some (key ++ str ": " ++ safeValue value)
      end
  end.

(** The effect of one call on what the builder shows. *)
Definition applyV (c : call) (v : QueryV) : QueryV :=
  match c with
  | CColumns cols =>
      mkV (vtable v) cols (vfilters v) (vheaders v) (voutputFormat v) (vcolumnHdrs v)
  | CAddColumns cols =>
      mkV (vtable v) (vcolumns v ++ cols) (vfilters v) (vheaders v)
          (voutputFormat v) (vcolumnHdrs v)
  | COutputFormat f =>
      mkV (vtable v) (vcolumns v) (vfilters v) (vheaders v) f (vcolumnHdrs v)
  | CColumnHeaders on =>
      mkV (vtable v) (vcolumns v) (vfilters v) (vheaders v) (voutputFormat v) (Some on)
  | CFilter c o x => addFilter (filterLine c o x) v
  | CFilterEqual c x => addFilter (filterLine c OpEq x) v
  | CFilterNotEqual c x => addFilter (filterLine c OpNe x) v
  | CFilterLessThan c x => addFilter (filterLine c OpLt x) v
  | CFilterLessOrEqual c x => addFilter (filterLine c OpLe x) v
  | CFilterGreaterThan c x => addFilter (filterLine c OpGt x) v
  | CFilterGreaterOrEqual c x => addFilter (filterLine c OpGe x) v
  | CFilterRegex c x => addFilter (filterLine c OpRe x) v
  | CFilterRegexI c x => addFilter (filterLine c OpReIC x) v
  | COr n => addFilter (str "Or: " ++ fmt.d n) v
  | CAnd n => addFilter (str "And: " ++ fmt.d n) v
  | CNegate => addFilter (str "Negate:") v
  | CLimit n => addHeader (str "Limit: " ++ fmt.d n) v
  | CWaitObject x => addHeader (str "WaitObject: " ++ safeValue x) v
  | CWaitTrigger x => addHeader (str "WaitTrigger: " ++ safeToken x) v
  | CWaitCondition x => addHeader (str "WaitCondition: " ++ safeValue x) v
  | CWaitTimeout n => addHeader (str "WaitTimeout: " ++ fmt.d n) v
  | CKeepAlive on =>
      addHeader (if on then str "KeepAlive: on" else str "KeepAlive: off") v
  | CResponseHeaderFixed16 => addHeader (str "ResponseHeader: fixed16") v
  | CResponseHeaderOff => addHeader (str "ResponseHeader: off") v
  | CLocaltime ts => addHeader (str "Localtime: " ++ fmt.d ts) v
  | CHeader k x =>
      match headerLine k x with
      | Some line => addHeader line v
      | None => v
      end
  end.

Definition applyAllV (cs : list call) (v : QueryV) : QueryV :=
  fold_left (fun v c => applyV c v) cs v.

Definition newV (t : Table) (cols : list gostring) : QueryV := mkV t cols [] [] [] None.

(** *** Well-formed builders *)

Definition wf_slice (st : store) (s : slice) : Prop :=
  (s_len s <= s_cap s)%nat /\ (s_cap s = 0%nat \/ (s_arr s < narrays st)%nat).

(** The slice fields are within the store, no two of them share an array,
    and [columnHdrs] points to a cell. *)
Definition wf_query (st : store) (o : LiveStatusQuery) : Prop :=
  (forall f, wf_slice st (getf f o))
  /\ (forall f g, f <> g ->
        s_cap (getf f o) = 0%nat \/ s_cap (getf g o) = 0%nat
        \/ s_arr (getf f o) <> s_arr (getf g o))
  /\ match columnHdrs o with
     | Some p => (p < length (cells st))%nat
     | None => True
     end.

(** An [append] to [s] leaves what [t] shows alone. *)
Definition nointerf (s t : slice) : Prop :=
  s_cap s = 0%nat \/ s_arr t <> s_arr s \/ (s_len t <= s_len s)%nat.

Definition protects (oq ow : LiveStatusQuery) : Prop :=
  forall f g, nointerf (getf f oq) (getf g ow).

(** What no line may contain. *)
Definition noCRLF (s : gostring) : Prop := ~ In CR s /\ ~ In LF s.
Definition clean (s : gostring) : Prop := ~ In CR s /\ ~ In LF s /\ ~ In NUL s.

(** ** The canonical fixed16 header *)

Definition padLeft (c : ascii) (w : nat) (s : gostring) : gostring :=
  repeat c (w - length s) ++ s.

(** Modelled from the spec: the encoder of the fixed16 header, which the
    repository does not contain (the server writes the header).  Bytes 0..2
    hold the status code in decimal (three characters, padded on the left
    with zeros or, when [zeroPad] is off, with spaces), byte 3 is a space,
    bytes 4..14 hold the length in decimal padded on the left with spaces,
    byte 15 is a newline. *)
Definition encodeFixed16 (zeroPad : bool) (code len : Z) : gostring :=
  padLeft (if zeroPad then "0"%char else SP) 3 (fmt.utoa code)
  ++ [SP] ++ padLeft SP 11 (fmt.utoa len) ++ [LF].

(** [hdr] with byte [i] replaced (nothing happens beyond the end). *)
Definition setByte (i : nat) (b : ascii) (hdr : gostring) : gostring :=
  upd i (fun _ => b) hdr.

Definition isErr (r : Z * Z * option error) : bool :=
  match r with
  | (_, _, Some _) => true
  | (_, _, None) => false
  end.

(** ** Results and configuration ([livestatus.go]) *)

Definition StatusOK : Z := 200%Z.
Definition StatusNotFound : Z := 404%Z.
Definition StatusInternalServerError : Z := 500%Z.

(** [struct Result]; a nil [Data] is the empty sequence of bytes. *)
Record Result := mkResult {
  StatusCode : Z;
  Data : gostring;
  Error : option error
}.

(** [struct LiveStatusConfig]; durations in nanoseconds. *)
Record LiveStatusConfig := mkConfig {
  Address : gostring;
  ConnectTimeout : Z;
  ReadTimeout : Z;
  WriteTimeout : Z;
  MaxBodyBytes : Z;
  UseTLS : bool;
  InsecureSkipVerify : bool;
  CAFile : gostring;
  CertFile : gostring;
  KeyFile : gostring
}.

(** ** The one-off executor ([livestatus.go], [livestatus_oneoff.go]) *)

(** What one call of [reader.ReadBytes('\n')] on the connection returns:
    a line that ends in a newline (with the number of bytes the reader still
    buffers afterwards), the rest of the stream at its end, or a failure. *)
Inductive readEvent : Type :=
| GotLine (line : gostring) (buffered : nat)
| GotEOF (rest : gostring)
| GotErr (partial : gostring) (e : error).

(** The network as one execution meets it. *)
Record peer := mkPeer {
  dial : LiveStatusConfig -> option error;   (* [connectToLiveStatus] *)
  write : gostring -> option error;          (* [conn.Write] *)
  incoming : list readEvent                  (* successive [ReadBytes] *)
}.

(** The operations the executor performs on the network, in order. *)
Inductive action : Type :=
| ADial
| ASetReadDeadline
| AWrite (bytes : gostring)
| ARead
| AClose.

(** [sendQuery]: the bytes written, terminated by a blank line. *)
Definition sendQuery_bytes (query : gostring) : gostring :=
  if negb (strings.HasSuffix query [LF; LF]) then
    (if negb (strings.HasSuffix query [LF]) then query ++ [LF] else query) ++ [LF]
  else query.

(** The loop of [readResponse]; a stream with no further event is at its end. *)
Fixpoint readResponse_loop (response : gostring) (evs : list readEvent)
  : gostring + error :=
  match evs with
  | [] => inl response
  | GotEOF rest :: _ => inl (response ++ rest)
  | GotErr _ e :: _ => inr (Errorf "error reading response: %w" [AErr e])
  | GotLine line buffered :: evs' =>
      let response := response ++ line in
      if streq line [LF] && (buffered =? 0)%nat then inl response
      else readResponse_loop response evs'
  end.

Definition readResponse (p : peer) : gostring + error :=
  readResponse_loop [] (incoming p).

(** [QueryOneOff]: the pair [(result, err)] and the network operations
    performed; [config = None] is the nil pointer. *)
Definition QueryOneOff (p : peer) (query : gostring) (config : option LiveStatusConfig)
  : (option Result * option error) * list action :=
  match config with
  | None => ((None, Some (Errorf "config cannot be nil" [])), [])
  | Some cfg =>
      match dial p cfg with
      | Some err =>
          ((Some (mkResult 500%Z []
                    (Some (Errorf "failed to connect to livestatus: %w" [AErr err]))),
            None), [ADial])
      | None =>
          let deadline := if (0 <? ReadTimeout cfg)%Z then [ASetReadDeadline] else [] in
          let bytes := sendQuery_bytes query in
          match write p bytes with
          | Some err =>
              ((Some (mkResult 500%Z []
                        (Some (Errorf "failed to send query: %w" [AErr err]))),
                None), [ADial] ++ deadline ++ [AWrite bytes; AClose])
          | None =>
              match readResponse p with
              | inr err =>
                  ((Some (mkResult 500%Z []
                            (Some (Errorf "failed to read response: %w" [AErr err]))),
                    None), [ADial] ++ deadline ++ [AWrite bytes; ARead; AClose])
              | inl data =>
                  ((Some (mkResult 200%Z data None), None),
                   [ADial] ++ deadline ++ [AWrite bytes; ARead; AClose])
              end
          end
      end
  end.

(** The first phase that fails, with the error it reports. *)
Definition phaseError (p : peer) (query : gostring) (cfg : LiveStatusConfig)
  : option error :=
  match dial p cfg with
  | Some e => Some (Errorf "failed to connect to livestatus: %w" [AErr e])
  | None =>
      match write p (sendQuery_bytes query) with
      | Some e => Some (Errorf "failed to send query: %w" [AErr e])
      | None =>
          match readResponse p with
          | inr e => Some (Errorf "failed to read response: %w" [AErr e])
          | inl _ => None
          end
      end
  end.

Definition bodyOf (p : peer) : gostring :=
  match readResponse p with
  | inl data => data
  | inr _ => []
  end.

(** ** Connectivity events ([events.go]) *)

(** [type ConnectivityState int] *)
Definition ConnectivityState := Z.

Definition StateUnknown : ConnectivityState := 0%Z.
Definition StateConnected : ConnectivityState := 1%Z.
Definition StateDisconnected : ConnectivityState := 2%Z.
Definition StateRetrying : ConnectivityState := 3%Z.
Definition StateShutdown : ConnectivityState := 4%Z.

(** [func (s ConnectivityState) String() string] *)
Definition ConnectivityState_String (s : ConnectivityState) : gostring :=
  if (s =? StateConnected)%Z then str "connected"
  else if (s =? StateDisconnected)%Z then str "disconnected"
  else if (s =? StateRetrying)%Z then str "retrying"
  else if (s =? StateShutdown)%Z then str "shutdown"
  else str "unknown_state_" ++ fmt.d s.

(** The lower-case name of each of the five states. *)
Definition lowerName (s : ConnectivityState) : gostring :=
  if (s =? StateUnknown)%Z then str "unknown"
  else if (s =? StateConnected)%Z then str "connected"
  else if (s =? StateDisconnected)%Z then str "disconnected"
  else if (s =? StateRetrying)%Z then str "retrying"
  else str "shutdown".

Section Events.

(** [time.Time]; its JSON form, or the error [json.MarshalIndent] returns
    for it ([Time.MarshalJSON] fails for years outside 0..9999);
    [Duration.String]; and the text [Error()] of an error. *)
Variable Time : Type.
Variable marshalTime : Time -> gostring + error.
Variable durationString : Z -> gostring.
Variable errorText : error -> gostring.

(** [struct ConnectivityEvent]; [Backoff] in nanoseconds. *)
Record ConnectivityEvent := mkEvent {
  Actor : gostring;
  State : ConnectivityState;
  EvTime : Time;
  Reason : gostring;
  Attempt : Z;
  Backoff : Z;
  Err : option error
}.

(** [struct connectivityEventJSON] *)
Record connectivityEventJSON := mkEventJSON {
  jActor : gostring;
  jState : gostring;
  jTime : Time;
  jReason : gostring;
  jAttempt : Z;
  jError : gostring;
  jBackoff : gostring
}.

(** A JSON value: a string, a number, or the output of a marshaller. *)
Inductive jvalue : Type :=
| JString (s : gostring)
| JNumber (n : Z)
| JRaw (s : gostring).

Definition optString (key : string) (s : gostring) : list (string * jvalue) :=
  match s with
  | [] => []
  | _ :: _ => [(key, JString s)]
  end.

(** The members [encoding/json] writes for the struct, with its tags:
    [omitempty] drops an empty string and a zero number. *)
Definition members (ce : connectivityEventJSON) (time : gostring)
  : list (string * jvalue) :=
  optString "actor" (jActor ce)
  ++ [("state"%string, JString (jState ce))]
  ++ [("time"%string, JRaw time)]
  ++ optString "reason" (jReason ce)
  ++ (if (jAttempt ce =? 0)%Z then [] else [("attempt"%string, JNumber (jAttempt ce))])
  ++ optString "error" (jError ce)
  ++ optString "backoff" (jBackoff ce).

(** The struct [ToJSON] fills in. *)
Definition toEventJSON (e : ConnectivityEvent) : connectivityEventJSON :=
  let ce := mkEventJSON (Actor e) (ConnectivityState_String (State e)) (EvTime e)
                        (Reason e) (Attempt e) [] [] in
  let ce := match Err e with
            | Some err =>
                mkEventJSON (jActor ce) (jState ce) (jTime ce) (jReason ce)
                            (jAttempt ce) (errorText err) (jBackoff ce)
            | None => ce
            end in
  if (0 <? Backoff e)%Z
  then mkEventJSON (jActor ce) (jState ce) (jTime ce) (jReason ce)
                   (jAttempt ce) (jError ce) (durationString (Backoff e))
  else ce.

(** [ToJSON], as a JSON object: the members of the struct or, when the
    time cannot be marshalled, the two members of the fallback.  (The
    text that [json.MarshalIndent] lays out from the members is not
    modelled.) *)
Definition ToJSON (e : ConnectivityEvent) : list (string * jvalue) :=
  match marshalTime (EvTime e) with
  | inl t => members (toEventJSON e) t
  | inr err =>
      [("state"%string, JString (ConnectivityState_String (State e)));
       ("error"%string, JString (errorText err))]
  end.

Fixpoint member (key : string) (obj : list (string * jvalue)) : option jvalue :=
  match obj with
  | [] => None
  | (k, v) :: obj' => if String.eqb k key then Some v else member key obj'
  end.

End Events.

(** ** Vocabulary of the properties *)

(** The four headers of the specification's scenario E. *)
Definition hdr_ok_12 : gostring := str "200 00000000012" ++ [LF].
Definition hdr_notfound_5 : gostring := str "404 00000000005" ++ [LF].
Definition hdr_15_bytes : gostring := str "200 0000000001" ++ [LF].
Definition hdr_bad_code : gostring := str "2X0 0000000001" ++ [LF].

Definition getv (f : fld) (v : QueryV) : list gostring :=
  match f with
  | Fcolumns => vcolumns v
  | Ffilters => vfilters v
  | Fheaders => vheaders v
  end.

Definition setv (f : fld) (l : list gostring) (v : QueryV) : QueryV :=
  match f with
  | Fcolumns => mkV (vtable v) l (vfilters v) (vheaders v) (voutputFormat v) (vcolumnHdrs v)
  | Ffilters => mkV (vtable v) (vcolumns v) l (vheaders v) (voutputFormat v) (vcolumnHdrs v)
  | Fheaders => mkV (vtable v) (vcolumns v) (vfilters v) l (voutputFormat v) (vcolumnHdrs v)
  end.

(** What [append(s, xs...)] guarantees: the result shows the elements of
    [s] followed by [xs]; cells and objects are untouched; an element of an
    allocated array changes only if it lies in the array of [s] at or beyond
    the length of [s]; the result lives in the array of [s] or in a fresh
    one. *)
Definition appended (st : store) (s : slice) (xs : list gostring)
           (s' : slice) (st' : store) : Prop :=
  sread st' s' = sread st s ++ xs
  /\ s_len s' = (s_len s + length xs)%nat
  /\ (s_len s' <= s_cap s')%nat
  /\ cells st' = cells st
  /\ objs st' = objs st
  /\ (narrays st <= narrays st')%nat
  /\ (forall a i, (a < narrays st)%nat ->
        a <> s_arr s \/ (i < s_len s)%nat \/ s_cap s = 0%nat ->
        arrays st' a i = arrays st a i)
  /\ ((s_arr s' = s_arr s /\ s_cap s' = s_cap s /\ narrays st' = narrays st)
      \/ (s_arr s' = narrays st /\ narrays st' = S (narrays st))).

(** What a method called on [q] guarantees, from a store [st] in which [q]
    points to [o]: [q] then shows [v'], no other object has changed, and
    every query the fields of [o] did not interfere with shows what it
    showed. *)
Definition step_ok (st : store) (q : nat) (o : LiveStatusQuery) (v' : QueryV)
           (st' : store) : Prop :=
  exists o',
    nth_error (objs st') q = Some o'
    /\ wf_query st' o'
    /\ view st' o' = v'
    /\ length (objs st') = length (objs st)
    /\ (forall p, p <> q -> nth_error (objs st') p = nth_error (objs st) p)
    /\ (forall ow, wf_query st ow -> protects o ow ->
          view st' ow = view st ow /\ wf_query st' ow /\ protects o' ow).

(** During [Build]: the store [st] agrees with the store [st0] at entry on
    cells, objects and every array allocated at entry. *)
Definition frame (st0 st : store) : Prop :=
  cells st = cells st0
  /\ objs st = objs st0
  /\ (narrays st0 <= narrays st)%nat
  /\ (forall a i, (a < narrays st0)%nat -> arrays st a i = arrays st0 a i).

(** A slice local to [Build]: nil, or in an array allocated after entry. *)
Definition local (st0 st : store) (l : slice) : Prop :=
  (s_len l <= s_cap l)%nat
  /\ (s_cap l = 0%nat \/ (narrays st0 <= s_arr l < narrays st)%nat).

(** Hoare triples of the builder monad: from a store that satisfies [P],
    [c] does not panic, and its result and final store satisfy [Q]. *)
Definition hoare {A : Type} (P : store -> Prop) (c : M A)
           (Q : A -> store -> Prop) : Prop :=
  forall st, P st -> exists x st', c st = Some (x, st') /\ Q x st'.

(** The invariant of [Build]: the local slice [l] shows [pre]. *)
Definition building (st0 : store) (l : slice) (pre : list gostring) (st : store) : Prop :=
  frame st0 st /\ local st0 st l /\ sread st l = pre.

(** The invariant of [safeTokens] within [Build]: a second local slice
    [out], which shows [acc] and whose growth leaves [l] alone. *)
Definition building2 (st0 : store) (l : slice) (pre : list gostring)
           (out : slice) (acc : list gostring) (st : store) : Prop :=
  building st0 l pre st /\ local st0 st out /\ sread st out = acc /\ nointerf out l.

(** A builder as the API makes it: [NewLiveStatusQuery(table, columns...)]
    followed by a chain of calls. *)
Definition newQuery (growslice : nat -> nat -> nat) (t : Table)
           (cols : list gostring) (cs : list call) : M nat :=
  bind (NewLiveStatusQuery growslice t cols) (chain growslice cs).

(** The filter line and the header line a call contributes, if any. *)
Definition filterLinesOf (c : call) : list gostring :=
  match c with
  | CFilter c o x => [filterLine c o x]
  | CFilterEqual c x => [filterLine c OpEq x]
  | CFilterNotEqual c x => [filterLine c OpNe x]
  | CFilterLessThan c x => [filterLine c OpLt x]
  | CFilterLessOrEqual c x => [filterLine c OpLe x]
  | CFilterGreaterThan c x => [filterLine c OpGt x]
  | CFilterGreaterOrEqual c x => [filterLine c OpGe x]
  | CFilterRegex c x => [filterLine c OpRe x]
  | CFilterRegexI c x => [filterLine c OpReIC x]
  | COr n => [str "Or: " ++ fmt.d n]
  | CAnd n => [str "And: " ++ fmt.d n]
  | CNegate => [str "Negate:"]
  | _ => []
  end.

Definition headerLinesOf (c : call) : list gostring :=
  match c with
  | CLimit n => [str "Limit: " ++ fmt.d n]
  | CWaitObject x => [str "WaitObject: " ++ safeValue x]
  | CWaitTrigger x => [str "WaitTrigger: " ++ safeToken x]
  | CWaitCondition x => [str "WaitCondition: " ++ safeValue x]
  | CWaitTimeout n => [str "WaitTimeout: " ++ fmt.d n]
  | CKeepAlive on => [if on then str "KeepAlive: on" else str "KeepAlive: off"]
  | CResponseHeaderFixed16 => [str "ResponseHeader: fixed16"]
  | CResponseHeaderOff => [str "ResponseHeader: off"]
  | CLocaltime ts => [str "Localtime: " ++ fmt.d ts]
  | CHeader k x =>
      match headerLine k x with
      | Some line => [line]
      | None => []
      end
  | _ => []
  end.

(** Scenario A of the specification. *)
Definition scenarioA_calls : list call := [COutputFormat OutputJSON; CLimit 10].

Definition scenarioA_text : gostring :=
  str "GET hosts" ++ [LF] ++ str "Columns: name state" ++ [LF]
  ++ str "Limit: 10" ++ [LF] ++ str "OutputFormat: json" ++ [LF].

(** Scenario B of the specification. *)
Definition scenarioB_calls : list call :=
  [CFilterEqual (str "state") (str "2");
   CFilterEqual (str "acknowledged") (str "0");
   CAnd 2;
   CFilterRegexI (str "description") (str "http.*backend");
   COr 2;
   COutputFormat OutputCSV].

Definition scenarioB_lines : list gostring :=
  [str "GET services";
   str "Columns: host_name description state";
   str "Filter: state = 2";
   str "Filter: acknowledged = 0";
   str "And: 2";
   str "Filter: description ~~ http.*backend";
   str "Or: 2";
   str "OutputFormat: csv";
   []].

(** Scenario D of the specification. *)
Definition scenarioD_calls : list call :=
  [CHeader (str "Stats:    ") (str "state = 2");
   CHeader (str "Localtime") (str "1724000000" ++ [LF]);
   CHeader (str "WeirdEmpty") []].

Definition scenarioD_lines : list gostring :=
  [str "Stats:: state = 2"; str "Localtime: 1724000000 "; str "WeirdEmpty:"].

(** What [safeValue] makes of one byte: NUL disappears, CR and LF become
    a space, every other byte stays. *)
Definition valueByte (c : ascii) : gostring :=
  if Ascii.eqb c NUL then []
  else if Ascii.eqb c CR || Ascii.eqb c LF then [SP]
  else [c].

(** What [safeToken] makes of one byte, before it trims. *)
Definition tokenByte (c : ascii) : ascii :=
  if Ascii.eqb c CR || Ascii.eqb c LF then SP else c.

Definition noCRLFb (s : gostring) : bool :=
  negb (existsb (Ascii.eqb CR) s) && negb (existsb (Ascii.eqb LF) s).

(** The operators of the [Filter...] helpers. *)
Definition helperOps : list Op := [OpEq; OpNe; OpLt; OpLe; OpGt; OpGe; OpRe; OpReIC].

(** A table with a newline and a column with a NUL byte. *)
Definition tableWithLF : Table := str "ho" ++ [LF] ++ str "sts".
Definition columnWithNUL : gostring := str "a" ++ [NUL] ++ str "b".

(** Scenario C of the specification. *)
Definition scenarioC_calls : list call :=
  [CFilterEqual (str "host_name") (str "bad" ++ [CR; LF] ++ str "name")].

(** A byte that [Atoi] reads as a decimal digit. *)
Definition isDigit (c : ascii) : Prop := exists d, strconv.digit c = Some d.

(** ** Status texts ([livestatus.go]) *)

(** The map [statusText]. *)
Definition statusText : list (Z * string) :=
  [(200%Z, "OK"%string);
   (400%Z, "Bad Request"%string);
   (401%Z, "Unauthorized"%string);
   (403%Z, "Forbidden"%string);
   (404%Z, "Not Found"%string);
   (500%Z, "Internal Server Error"%string);
   (503%Z, "Service Unavailable"%string)].

Fixpoint mapLookup (code : Z) (m : list (Z * string)) : option string :=
  match m with
  | [] => None
  | (k, v) :: m' => if (k =? code)%Z then Some v else mapLookup code m'
  end.

(** [StatusText] *)
Definition StatusText (code : Z) : gostring :=
  match mapLookup code statusText with
  | Some s => str s
  | None => str "Unknown"
  end.

(** A read event that ends [readResponse]: an empty line with nothing
    buffered behind it. *)
Definition terminal (line : gostring) (buffered : nat) : bool :=
  streq line [LF] && (buffered =? 0)%nat.

Definition lineEvents (lines : list (gostring * nat)) : list readEvent :=
  map (fun lb => GotLine (fst lb) (snd lb)) lines.

(** ** The framed transport ([connection.go]) *)

(** What the buffered reader has on hand at one call of [r.Read(p)]: some
    bytes, and perhaps an error that it reports with the last of them.
    [Read] hands out at most [len(p)] of the bytes and keeps the rest for
    the next call.  The reader, as one execution meets it, is the sequence
    of these chunks; a reader with no further chunk is at the end of the
    stream.  (A [bufio.Reader] that has buffered bytes reports the error
    of the underlying read on its own, after the bytes: that is a chunk
    without error followed by an empty chunk with the error.) *)
Inductive chunk : Type :=
| Chunk (bytes : gostring) (err : option error).

(** [io.EOF] *)
Definition io_EOF : error := ExternalError (str "EOF").

(** [ioReadFull]: [need] is [len(buf) - read], [buf] holds the bytes read so
    far.  [r.Read(buf[read:])] hands out at most [need] bytes of the next
    chunk and keeps the rest of it for the next call.  The result is the
    bytes read (their number is the [int] the Go function returns), the
    error, and the reader afterwards. *)
Fixpoint ioReadFull (r : list chunk) (need : nat) (buf : gostring)
  : (gostring * option error) * list chunk :=
  match need with
  | O => ((buf, None), r)
  | S _ =>
      match r with
      | [] => ((buf, Some io_EOF), [])
      | Chunk bs err :: r' =>
          if (length bs <=? need)%nat then
            match err with
            | Some e => ((buf ++ bs, Some e), r')
            | None => ioReadFull r' (need - length bs) (buf ++ bs)
            end
          else ((buf ++ firstn need bs, None), Chunk (skipn need bs) err :: r')
      end
  end.

(** [discardN]: nothing for [n <= 0]; otherwise [io.CopyN(io.Discard, r, n)],
    which reads until [n] bytes are gone or a read fails, and reports no
    error when all [n] bytes were read. *)
Definition discardN (r : list chunk) (n : Z) : option error * list chunk :=
  if (n <=? 0)%Z then (None, r)
  else
    let '((got, err), r') := ioReadFull r (Z.to_nat n) [] in
    if (length got =? Z.to_nat n)%nat then (None, r')
    else (match err with
          | Some e => Some e
          | None => Some io_EOF
          end, r').

(** [writeAll]: the connection answers each [w.Write(b)] with the number of
    bytes it took and perhaps an error; a connection with no further answer
    is closed.  An answer without error that claims more than [len(b)]
    bytes makes [b[n:]] panic ([None]).  The result is the error, the bytes
    the connection took, in order, and the answers left. *)
Definition errClosed : error := ExternalError (str "use of closed network connection").

Definition wconn : Type := list (nat * option error).

Fixpoint writeAll (w : wconn) (b : gostring) (sent : gostring)
  : option ((option error * gostring) * wconn) :=
  match b with
  | [] => Some ((None, sent), w)
  | _ :: _ =>
      match w with
      | [] => Some ((Some errClosed, sent), [])
      | (n, err) :: w' =>
          match err with
          | Some e => Some ((Some e, sent ++ firstn n b), w')
          | None =>
              if (n <=? length b)%nat
              then writeAll w' (skipn n b) (sent ++ firstn n b)
              else None
          end
      end
  end.

(** The cap on the body: 32 MiB unless the configuration sets one. *)
Definition maxBodyOf (cfg : option LiveStatusConfig) : Z :=
  match cfg with
  | Some c => if (0 <? MaxBodyBytes c)%Z then MaxBodyBytes c else 33554432%Z
  | None => 33554432%Z
  end.

(** The second half of [execOverPersistentConn], from "Read fixed16 header"
    on: the pair [(result, err)] and the reader afterwards. *)
Definition exec_receive (cfg : option LiveStatusConfig) (r : list chunk)
  : (option Result * option error) * list chunk :=
  let '((hdr, err), r1) := ioReadFull r 16 [] in
  match err with
  | Some e =>
      ((None, Some (Errorf "failed reading fixed16 header: %w" [AErr e])), r1)
  | None =>
      match parseFixed16Header hdr with
      | (_, _, Some e) =>
          ((None, Some (Errorf "invalid fixed16 header: %w" [AErr e])), r1)
      | (code, n, None) =>
          let maxBody := maxBodyOf cfg in
          if (n <? 0)%Z || (maxBody <? n)%Z then
            match discardN r1 n with
            | (Some e, r2) =>
                ((None,
                  Some (Errorf "response too large (%d bytes) and drain failed: %v"
                               [AInt n; AErr e])), r2)
            | (None, r2) =>
                ((None,
                  Some (Errorf "response too large: %d bytes (cap %d)"
                               [AInt n; AInt maxBody])), r2)
            end
          else
            let '((body, err), r2) := ioReadFull r1 (Z.to_nat n) [] in
            match err with
            | Some e =>
                ((None, Some (Errorf "failed reading body: %w" [AErr e])), r2)
            | None =>
                if negb (code =? StatusOK)%Z then
                  let msg := strings.TrimSpace body in
                  let msg := if streq msg [] then str "livestatus error" else msg in
                  ((Some (mkResult code []
                            (Some (Errorf "livestatus status %d: %s"
                                          [AInt code; AStr msg]))), None), r2)
                else ((Some (mkResult code body None), None), r2)
            end
      end
  end.

(** A reader that delivers the bytes of [cs], chunk by chunk, without
    error, and then goes on with [later]. *)
Definition dataChunks (cs : list gostring) : list chunk :=
  map (fun bs => Chunk bs None) cs.

(** The bytes a reader holds, whatever errors come with them. *)
Definition bytesOf (r : list chunk) : gostring :=
  concat (map (fun c => match c with Chunk bs _ => bs end) r).

(** The first half of [execOverPersistentConn]: the local copy [q := query]
    of the parameter, the two required headers, [Build], and the blank line
    that ends the request.  The parameter is a struct value; the copy is an
    object of its own, whose slices share their arrays with it. *)
Definition exec_queryStr (growslice : nat -> nat -> nat) (query : LiveStatusQuery)
  : M gostring :=
  bind (newobj query) (fun q =>
  bind (ResponseHeaderFixed16 growslice q) (fun q =>
  bind (KeepAlive growslice q true) (fun q =>
  bind (Build growslice q) (fun queryStr =>
  ret (if negb (strings.HasSuffix queryStr [LF; LF]) then
         (if negb (strings.HasSuffix queryStr [LF]) then queryStr ++ [LF]
          else queryStr) ++ [LF]
       else queryStr))))).

(** [execOverPersistentConn]: [conn] and [reader] are [None] for nil;
    [ctxErr] is what [ctx.Err()] returns between the two phases.  The
    deadlines act on the connection only, whose answers are given.  The
    result is the pair [(result, err)], the bytes the connection took and
    the reader afterwards. *)
Definition execOverPersistentConn (growslice : nat -> nat -> nat)
           (cfg : option LiveStatusConfig)
           (conn : option wconn) (reader : option (list chunk))
           (ctxErr : option error) (query : LiveStatusQuery)
  : M ((option Result * option error) * (gostring * option (list chunk))) :=
  match conn, reader with
  | Some w, Some r =>
      bind (exec_queryStr growslice query) (fun queryStr st =>
        match writeAll w queryStr [] with
        | None => None
        | Some ((Some e, sent), _) =>
            Some (((None, Some (Errorf "write failed: %w" [AErr e])),
                   (sent, Some r)), st)
        | Some ((None, sent), _) =>
            match ctxErr with
            | Some e => Some (((None, Some e), (sent, Some r)), st)
            | None =>
                let '(res, r') := exec_receive cfg r in
                Some ((res, (sent, Some r')), st)
            end
        end)
  | _, _ => ret ((None, Some (Errorf "nil connection/reader" [])), ([], reader))
  end.

(** A connection that takes the bytes offered to it in pieces of the sizes
    [ns], without error. *)
Definition shortWrites (ns : list nat) : wconn := map (fun n => (n, None)) ns.

(** The growth policy of the Go run-time for small slices: the capacity
    doubles. *)
Definition doubling (oldcap needed : nat) : nat := (2 * oldcap)%nat.

(** A caller builds a query with three headers, hands it to [SendQuery],
    and adds a fourth header afterwards. *)
Definition aliasScenario : option (nat * WorkItem * store) :=
  bind (newQuery doubling (str "hosts") [] [CLimit 1; CLimit 2; CLimit 3]) (fun q =>
  bind (SendQuery_item 7 q) (fun w =>
  bind (Limit doubling q 4) (fun _ => ret (q, w)))) emptyStore.

Definition aliasStore : store :=
  match aliasScenario with
  | Some (_, st) => st
  | None => emptyStore
  end.

(** The struct in the work item, and the caller's. *)
Definition aliasItem : LiveStatusQuery := nth 2 (objs aliasStore) zeroQuery.
Definition aliasCaller : LiveStatusQuery := nth 0 (objs aliasStore) zeroQuery.

(** A configuration with a cap of four bytes on the body. *)
Definition smallCapConfig : LiveStatusConfig :=
  mkConfig (str "localhost:6557") 0 0 0 4 false false [] [] [].

(** ** Request identifiers ([livestatus.go]) *)

(** [nextRequestID]: [idCounter.Add(1)] on an [atomic.Uint64], from the
    value [idCounter] of the counter; the result is the identifier and the
    new value of the counter. *)
Definition nextRequestID (idCounter : Z) : Z * Z :=
  let v := ((idCounter + 1) mod 2 ^ 64)%Z in (v, v).

(** The identifiers of [n] successive calls. *)
Fixpoint requestIDs (n : nat) (idCounter : Z) : list Z :=
  match n with
  | O => []
  | S k => let '(id, c) := nextRequestID idCounter in id :: requestIDs k c
  end.

(** ** [QueryOneOffFromBuilder] ([livestatus_oneoff.go]) *)

(** [query = None] is the nil pointer. *)
Definition QueryOneOffFromBuilder (growslice : nat -> nat -> nat) (p : peer)
           (query : option nat) (config : option LiveStatusConfig)
  : M ((option Result * option error) * list action) :=
  match query with
  | None => ret ((None, Some (Errorf "query cannot be nil" [])), [])
  | Some q => bind (Build growslice q) (fun text => ret (QueryOneOff p text config))
  end.

(** ** The result of [processOne] (the actor) *)

(** The value of [result] when [processOne] publishes it.  [ensured] is
    what [ensureConn] returned: an error, or a connection and a reader;
    [item.Query] is passed to [execOverPersistentConn] by value.  A nil
    result would make [result.StatusCode] panic.  Without a configuration
    the actor simulates the server.  (The pause, the metrics and the
    publication itself are left out.) *)
Definition processOne_result (growslice : nat -> nat -> nat)
           (config : option LiveStatusConfig)
           (ensured : error + (wconn * list chunk)) (ctxErr : option error)
           (item : WorkItem) : M Result :=
  match config with
  | Some cfg =>
      match ensured with
      | inl err => ret (mkResult 500 [] (Some err))
      | inr (conn, reader) =>
          bind (load (Query item)) (fun query =>
          bind (execOverPersistentConn growslice (Some cfg) (Some conn) (Some reader)
                                       ctxErr query) (fun r =>
            match fst r with
            | (_, Some err) => ret (mkResult 500 [] (Some err))
            | (Some res, None) => ret res
            | (None, None) => fun _ => None
            end))
      end
  | None =>
      bind (load (Query item)) (fun o =>
        if streq (table o) (str "error") then
          ret (mkResult StatusInternalServerError []
                        (Some (Errorf "simulated error" [])))
        else if streq (table o) (str "not_found") then
          ret (mkResult StatusNotFound [] (Some (Errorf "not found" [])))
        else
          bind (Build growslice (Query item)) (fun text =>
            ret (mkResult StatusOK (str "Processed: " ++ text) None)))
  end.

(** A result in which the status and the error agree: status 200 exactly
    when there is no error, and data only with status 200. *)
Definition consistent (res : Result) : Prop :=
  (Error res = None <-> StatusCode res = StatusOK)
  /\ (StatusCode res <> StatusOK -> Data res = []).

(** A connection that takes five bytes and then fails. *)
Definition failingConn : wconn := [(5%nat, None); (0%nat, Some errClosed)].

(** What [execOverPersistentConn] may return: an error alone, or a result
    alone, which with status 200 has no error and at most [cap] bytes of
    data, and with another status has an error and no data. *)
Definition answer (cap : Z) (a : option Result * option error) : Prop :=
  match a with
  | (Some res, None) =>
      (StatusCode res = StatusOK /\ Error res = None
       /\ (Z.of_nat (length (Data res)) <= cap)%Z)
      \/ (StatusCode res <> StatusOK /\ Data res = [] /\ Error res <> None)
  | (None, Some _) => True
  | _ => False
  end.

(** ** The connection of the actor and its connectivity events *)

(** The conversion [int32(x)] of an [int]: the low 32 bits, as a signed
    number. *)
Definition int32 (x : Z) : Z := ((x + 2 ^ 31) mod 2 ^ 32 - 2 ^ 31)%Z.

Section Actor.

(** [time.Time], [net.Conn] and [*bufio.Reader]. *)
Variables Time C R : Type.

(** The fields of [LiveStatusActor] that [emit], [closeConn],
    [runHealthCheck] and [processOne] read and write for the connection;
    [None] is nil, and for [activeSince] the zero time.  [emitted] is not a
    field: it records the events passed to [emit], oldest first (whether
    the event channel took them or not).  [connState] is the value of the
    [atomic.Int32]. *)
Record actorState := mkActor {
  siteName : gostring;
  config : option LiveStatusConfig;
  conn : option C;
  reader : option R;
  activeSince : option Time;
  connState : ConnectivityState;
  emitted : list (ConnectivityEvent Time)
}.

(** The actor [NewLiveStatusActor] returns. *)
Definition newActor (site : gostring) (cfg : option LiveStatusConfig) : actorState :=
  mkActor site cfg None None None 0%Z [].

(** [emit], with [setState]: [a.connState.Store(int32(ev.State))]. *)
Definition emit (ev : ConnectivityEvent Time) (a : actorState) : actorState :=
  mkActor (siteName a) (config a) (conn a) (reader a) (activeSince a)
          (int32 (State ev)) (emitted a ++ [ev]).

(** [closeConn]; [now] is what [time.Now()] returns. *)
Definition closeConn (now : Time) (a : actorState) : actorState :=
  let a := mkActor (siteName a) (config a) None None None (connState a) (emitted a) in
  emit (mkEvent (siteName a) StateDisconnected now (str "closed") 0 0 None) a.

(** [runHealthCheck]: [pending] is [len(a.queue)], [ensured] what
    [ensureConn] returns (an error, or a connection and a reader), [probe]
    the error of the probe query, and [now1], [now2], [now3] the times
    [time.Now()] returns at the events.  (Logging and metrics are left
    out.) *)
Definition runHealthCheck (pending : nat) (ensured : error + (C * R))
           (probe : option error) (now1 now2 now3 : Time) (a : actorState)
  : actorState :=
  if (0 <? pending)%nat then a
  else
    match config a with
    | None => a
    | Some _ =>
        let prevNil := match conn a with None => true | Some _ => false end in
        match ensured with
        | inl err =>
            closeConn now2
              (emit (mkEvent (siteName a) StateRetrying now1 (str "conn_error") 0 0
                             (Some err)) a)
        | inr (c, r) =>
            let a := mkActor (siteName a) (config a) (Some c) (Some r)
                             (activeSince a) (connState a) (emitted a) in
            let a :=
              if prevNil then
                emit (mkEvent (siteName a) StateConnected now1 (str "established") 0 0
                              None)
                     (mkActor (siteName a) (config a) (conn a) (reader a)
                              (Some now1) (connState a) (emitted a))
              else a in
            match probe with
            | Some err =>
                closeConn now3
                  (emit (mkEvent (siteName a) StateRetrying now2 (str "probe_error") 0 0
                                 (Some err)) a)
            | None => a
            end
        end
    end.

(** What [processOne] does to the connection: with a configuration, the
    connection and the reader [ensureConn] returns replace the actor's. *)
Definition processOne_conn (ensured : error + (C * R)) (a : actorState) : actorState :=
  match config a with
  | None => a
  | Some _ =>
      match ensured with
      | inl _ => a
      | inr (c, r) =>
          mkActor (siteName a) (config a) (Some c) (Some r)
                  (activeSince a) (connState a) (emitted a)
      end
  end.

(** The operations on the connection, taken one after another: the worker
    runs health checks and work items one at a time, and [Close] calls
    [closeConn]. *)
Inductive actorOp : Type :=
| OpHealthCheck (pending : nat) (ensured : error + (C * R)) (probe : option error)
                (now1 now2 now3 : Time)
| OpProcessOne (ensured : error + (C * R))
| OpCloseConn (now : Time).

Definition runOp (o : actorOp) (a : actorState) : actorState :=
  match o with
  | OpHealthCheck p e pr n1 n2 n3 => runHealthCheck p e pr n1 n2 n3 a
  | OpProcessOne e => processOne_conn e a
  | OpCloseConn n => closeConn n a
  end.

Definition runOps (os : list actorOp) (a : actorState) : actorState :=
  fold_left (fun a o => runOp o a) os a.

(** Every event with the state [Retrying] is followed at once by the event
    [Disconnected] with the reason [closed]. *)
Fixpoint retryingThenClosed (evs : list (ConnectivityEvent Time)) : Prop :=
  match evs with
  | [] => True
  | e :: evs' =>
      ((State e = StateRetrying ->
        match evs' with
        | e' :: _ => State e' = StateDisconnected /\ Reason e' = str "closed"
        | [] => False
        end)
       /\ retryingThenClosed evs')
  end.

(** What holds of the actor between two operations. *)
Definition actorInv (a : actorState) : Prop :=
  (connState a = StateConnected <-> activeSince a <> None)
  /\ (activeSince a <> None -> conn a <> None)
  /\ (conn a = None <-> reader a = None)
  /\ connState a = last (map (@State Time) (emitted a)) StateUnknown
  /\ (connState a = StateUnknown \/ connState a = StateConnected
      \/ connState a = StateDisconnected)
  /\ retryingThenClosed (emitted a)
  /\ Forall (fun e => State e = StateConnected \/ State e = StateDisconnected
                      \/ State e = StateRetrying) (emitted a).

End Actor.

(** A line after which the request does not show a blank line: it is not
    empty and does not end with a newline. *)
Definition endsPlain (l : gostring) : Prop :=
  l <> [] /\ strings.HasSuffix l [LF] = false.

(** * Properties *)

(** ** Lists and strings *)

Lemma streq_eq (a b : gostring) : streq a b = true <-> a = b.
Proof.
  revert b; induction a as [|x a IH]; intros [|y b]; simpl; split; intros H;
    try reflexivity; try discriminate.
  - apply andb_true_iff in H as [H1 H2].
    apply Ascii.eqb_eq in H1. apply IH in H2. now subst.
  - injection H as -> ->. apply andb_true_iff; split.
    + apply Ascii.eqb_refl.
    + now apply IH.
Qed.

Lemma streq_nil (a : gostring) : streq a [] = match a with [] => true | _ :: _ => false end.
Proof. now destruct a. Qed.

Lemma length_upd (A : Type) (i : nat) (f : A -> A) (l : list A) :
  length (upd i f l) = length l.
Proof.
  revert i; induction l as [|x l IH]; intros [|i]; simpl; auto.
Qed.

Lemma nth_error_upd_eq (A : Type) (i : nat) (f : A -> A) (l : list A) (x : A) :
  nth_error l i = Some x -> nth_error (upd i f l) i = Some (f x).
Proof.
  revert i; induction l as [|y l IH]; intros [|i]; simpl; try discriminate.
  - now intros [= ->].
  - apply IH.
Qed.

Lemma nth_error_upd_neq (A : Type) (i j : nat) (f : A -> A) (l : list A) :
  i <> j -> nth_error (upd i f l) j = nth_error l j.
Proof.
  revert i j; induction l as [|y l IH]; intros [|i] [|j] H; simpl; auto;
    try congruence.
Qed.

(** ** The fixed16 header: errors *)

Lemma substr_setByte_code (hdr : gostring) (b3 b15 : ascii) :
  substr (setByte 3 b3 (setByte 15 b15 hdr)) 0 3 = substr hdr 0 3.
Proof.
  unfold substr, setByte.
  do 4 (destruct hdr as [|? hdr]; [reflexivity|]). reflexivity.
Qed.

Lemma substr_setByte_length (hdr : gostring) (b3 b15 : ascii) :
  length hdr = 16%nat ->
  substr (setByte 3 b3 (setByte 15 b15 hdr)) 4 15 = substr hdr 4 15.
Proof.
  intros H. unfold substr, setByte.
  do 16 (destruct hdr as [|? hdr]; [discriminate H|]).
  destruct hdr; [reflexivity | discriminate H].
Qed.

(** C5.  [parseFixed16Header] fails exactly when the input is not 16 bytes
    long or one of the two trimmed fields (bytes 0..2, bytes 4..14) is
    rejected by [Atoi]; bytes 3 and 15 have no influence on the numbers
    returned nor on whether the call fails; and the four inputs of the
    specification behave as stated. *)
Theorem parseFixed16Header_errors :
  (forall hdr : gostring,
      isErr (parseFixed16Header hdr) = true <->
      (length hdr <> 16%nat
       \/ snd (strconv.Atoi (strings.TrimSpace (substr hdr 0 3))) <> None
       \/ snd (strconv.Atoi (strings.TrimSpace (substr hdr 4 15))) <> None))
  /\ (forall (hdr : gostring) (b3 b15 : ascii),
         fst (parseFixed16Header (setByte 3 b3 (setByte 15 b15 hdr)))
         = fst (parseFixed16Header hdr)
         /\ isErr (parseFixed16Header (setByte 3 b3 (setByte 15 b15 hdr)))
            = isErr (parseFixed16Header hdr))
  /\ parseFixed16Header hdr_ok_12 = (200%Z, 12%Z, None)
  /\ parseFixed16Header hdr_notfound_5 = (404%Z, 5%Z, None)
  /\ length hdr_15_bytes = 15%nat
  /\ isErr (parseFixed16Header hdr_15_bytes) = true
  /\ isErr (parseFixed16Header hdr_bad_code) = true.
Proof.
  split; [|split].
  - intros hdr. unfold parseFixed16Header.
    destruct (length hdr =? 16)%nat eqn:E; simpl.
    + apply Nat.eqb_eq in E.
      destruct (strconv.Atoi (strings.TrimSpace (substr hdr 0 3))) as [c [e|]]; simpl.
      * split; [intros _; right; left; discriminate | reflexivity].
      * destruct (strconv.Atoi (strings.TrimSpace (substr hdr 4 15))) as [l [e|]]; simpl.
        -- split; [intros _; right; right; discriminate | reflexivity].
        -- split; [discriminate|].
           intros [H|[H|H]]; congruence.
    + apply Nat.eqb_neq in E. split; [intros _; now left | reflexivity].
  - intros hdr b3 b15. unfold parseFixed16Header.
    assert (L : length (setByte 3 b3 (setByte 15 b15 hdr)) = length hdr)
      by (unfold setByte; now rewrite !length_upd).
    rewrite L. destruct (length hdr =? 16)%nat eqn:E; simpl; [|split; reflexivity].
    apply Nat.eqb_eq in E.
    rewrite substr_setByte_code, (@substr_setByte_length hdr b3 b15 E).
    destruct (strconv.Atoi (strings.TrimSpace (substr hdr 0 3))) as [c [e|]]; simpl;
      [split; reflexivity|].
    destruct (strconv.Atoi (strings.TrimSpace (substr hdr 4 15))) as [l [e|]]; simpl;
      split; reflexivity.
  - repeat split; vm_compute; reflexivity.
Qed.

(** ** The one-off executor *)

(** C8.  [QueryOneOff] returns a function-level error exactly for the nil
    configuration (and then no result); for every other configuration the
    function-level error is nil and the result is [{500, nil, err}] when a
    phase (connect, send, read) fails, [{200, body, nil}] otherwise. *)
Theorem QueryOneOff_results :
  forall (p : peer) (query : gostring) (config : option LiveStatusConfig),
    (snd (fst (QueryOneOff p query config)) <> None <-> config = None)
    /\ match config with
       | None => fst (fst (QueryOneOff p query config)) = None
       | Some cfg =>
           fst (QueryOneOff p query config)
           = (Some (match phaseError p query cfg with
                    | Some err => mkResult 500%Z [] (Some err)
                    | None => mkResult 200%Z (bodyOf p) None
                    end), None)
       end.
Proof.
  intros p query [cfg|]; simpl.
  - unfold phaseError, bodyOf.
    destruct (dial p cfg); simpl.
    + split; [split; [congruence | discriminate] | reflexivity].
    + destruct (write p (sendQuery_bytes query)); simpl.
      * split; [split; [congruence | discriminate] | reflexivity].
      * destruct (readResponse p); simpl;
          (split; [split; [congruence | discriminate] | reflexivity]).
  - split; [split; [reflexivity | discriminate] | reflexivity].
Qed.

(** ** Connectivity events *)

Section EventProperties.

Variable Time : Type.
Variable marshalTime : Time -> gostring + error.
Variable durationString : Z -> gostring.
Variable errorText : error -> gostring.

Let toJSON := ToJSON marshalTime durationString errorText.
Let eventJSON := @toEventJSON Time durationString errorText.

Lemma member_state_members (ce : connectivityEventJSON Time) (t : gostring) :
  member "state" (members ce t) = Some (JString (jState ce)).
Proof.
  unfold members, optString. destruct (jActor ce); reflexivity.
Qed.

Lemma jState_toEventJSON (e : ConnectivityEvent Time) :
  jState (eventJSON e) = ConnectivityState_String (State e).
Proof.
  unfold eventJSON, toEventJSON.
  destruct (Err e), (0 <? Backoff e)%Z; reflexivity.
Qed.

(** C9, as the code has it.  The four states Connected, Disconnected,
    Retrying and Shutdown are rendered by their lower-case names, Unknown
    (like every other value) as [unknown_state_<n>]; the [state] member of
    the serialisation is that rendering; and in the members of an event
    whose time can be marshalled, [actor] and [reason] are absent exactly
    when empty, [attempt] exactly when zero, [error] exactly when there is
    no error or its text is empty, [backoff] exactly when the backoff is not
    positive or its text is empty. *)
Theorem ToJSON_state_and_omitted_keys :
  ConnectivityState_String StateConnected = str "connected"
  /\ ConnectivityState_String StateDisconnected = str "disconnected"
  /\ ConnectivityState_String StateRetrying = str "retrying"
  /\ ConnectivityState_String StateShutdown = str "shutdown"
  /\ ConnectivityState_String StateUnknown = str "unknown_state_0"
  /\ (forall e : ConnectivityEvent Time,
         member "state" (toJSON e)
         = Some (JString (ConnectivityState_String (State e))))
  /\ (forall (e : ConnectivityEvent Time) (t : gostring),
         let obj := members (eventJSON e) t in
         member "actor" obj
         = match Actor e with [] => None | _ :: _ => Some (JString (Actor e)) end
         /\ member "reason" obj
            = match Reason e with [] => None | _ :: _ => Some (JString (Reason e)) end
         /\ member "attempt" obj
            = (if (Attempt e =? 0)%Z then None else Some (JNumber (Attempt e)))
         /\ member "error" obj
            = match Err e with
              | None => None
              | Some err =>
                  match errorText err with
                  | [] => None
                  | _ :: _ => Some (JString (errorText err))
                  end
              end
         /\ member "backoff" obj
            = (if (0 <? Backoff e)%Z
               then match durationString (Backoff e) with
                    | [] => None
                    | _ :: _ => Some (JString (durationString (Backoff e)))
                    end
               else None))
  /\ (forall e : ConnectivityEvent Time,
         match marshalTime (EvTime e) with
         | inl t => toJSON e = members (eventJSON e) t
         | inr err => toJSON e
                      = [("state"%string, JString (ConnectivityState_String (State e)));
                         ("error"%string, JString (errorText err))]
         end).
Proof.
  repeat match goal with |- _ /\ _ => split end; try reflexivity.
  - intros e. unfold toJSON, ToJSON.
    destruct (marshalTime (EvTime e)); [|reflexivity].
    rewrite member_state_members. f_equal. f_equal. apply jState_toEventJSON.
  - intros e t. unfold eventJSON, toEventJSON, members, optString; simpl.
    destruct e as [a s tm r n b er]; simpl.
    destruct a, r, er as [er|], (0 <? b)%Z; simpl;
      destruct (n =? 0)%Z;
      try destruct (errorText er); try destruct (durationString b); simpl;
      repeat split; reflexivity.
  - intros e. unfold toJSON, ToJSON.
    destruct (marshalTime (EvTime e)); reflexivity.
Qed.

End EventProperties.

(** C9, as the specification has it, fails: the state Unknown is not
    rendered by its lower-case name. *)
Lemma ToJSON_unknown_state_not_lower_case :
  let e := mkEvent [] StateUnknown tt [] 0%Z 0%Z None in
  member "state" (ToJSON (fun _ : unit => inl (str "t")) (fun _ => []) (fun _ => []) e)
  = Some (JString (str "unknown_state_0"))
  /\ member "state" (ToJSON (fun _ : unit => inl (str "t")) (fun _ => []) (fun _ => []) e)
     <> Some (JString (lowerName (State e))).
Proof.
  split; [reflexivity | vm_compute; discriminate].
Qed.

(** ** The store: [append] *)

Lemma writeAt_other (m : nat -> nat -> gostring) (a off : nat) (xs : list gostring)
      (a' i : nat) :
  a' <> a \/ (i < off)%nat \/ (off + length xs <= i)%nat ->
  writeAt m a off xs a' i = m a' i.
Proof.
  intros H. unfold writeAt.
  destruct (a' =? a)%nat eqn:Ea; simpl; [|reflexivity].
  destruct (off <=? i)%nat eqn:E1; simpl; [|reflexivity].
  destruct (i <? off + length xs)%nat eqn:E2; simpl; [|reflexivity].
  apply Nat.eqb_eq in Ea. apply Nat.leb_le in E1. apply Nat.ltb_lt in E2. lia.
Qed.

Lemma map_nth_shift (xs : list gostring) (off : nat) :
  map (fun i => nth (i - off) xs []) (seq off (length xs)) = xs.
Proof.
  revert off; induction xs as [|x xs IH]; intros off; simpl; [reflexivity|].
  rewrite Nat.sub_diag. f_equal.
  rewrite <- (IH (S off)) at 2.
  apply map_ext_in. intros i Hi. apply in_seq in Hi.
  replace (i - off)%nat with (S (i - S off)) by lia. reflexivity.
Qed.

Lemma map_writeAt_same (m : nat -> nat -> gostring) (a off : nat) (xs : list gostring) :
  map (writeAt m a off xs a) (seq off (length xs)) = xs.
Proof.
  transitivity (map (fun i => nth (i - off) xs []) (seq off (length xs)));
    [|apply map_nth_shift].
  apply map_ext_in. intros i Hi. apply in_seq in Hi. unfold writeAt.
  rewrite Nat.eqb_refl. simpl.
  destruct (off <=? i)%nat eqn:E1; [|apply Nat.leb_gt in E1; lia].
  destruct (i <? off + length xs)%nat eqn:E2; [|apply Nat.ltb_ge in E2; lia].
  reflexivity.
Qed.

Lemma length_sread (st : store) (s : slice) : length (sread st s) = s_len s.
Proof. unfold sread. now rewrite length_map, length_seq. Qed.

Lemma sread_ext (st st' : store) (s : slice) :
  (forall i, (i < s_len s)%nat -> arrays st' (s_arr s) i = arrays st (s_arr s) i) ->
  sread st' s = sread st s.
Proof.
  intros H. unfold sread. apply map_ext_in. intros i Hi.
  apply in_seq in Hi. apply H. lia.
Qed.

Section BuilderProperties.

Variable growslice : nat -> nat -> nat.

Lemma sappend_spec (s : slice) (xs : list gostring) (st : store) :
  exists s' st', sappend growslice s xs st = Some (s', st')
                 /\ appended st s xs s' st'.
Proof.
  unfold sappend.
  destruct (s_len s + length xs <=? s_cap s)%nat eqn:E.
  - apply Nat.leb_le in E. eexists _, _. split; [reflexivity|].
    unfold appended; simpl. repeat split; auto.
    + unfold sread; simpl. rewrite seq_app, map_app. f_equal.
      * apply map_ext_in. intros i Hi. apply in_seq in Hi.
        apply writeAt_other. lia.
      * simpl. apply map_writeAt_same.
    + intros a i Ha H. apply writeAt_other.
      destruct H as [H|[H|H]]; [now left | right; left; exact H |].
      right; right. assert (length xs = 0)%nat by lia. lia.
  - apply Nat.leb_gt in E. eexists _, _. split; [reflexivity|].
    unfold appended; simpl. repeat split; auto.
    + unfold sread at 1; simpl.
      replace (s_len s + length xs)%nat with (length (sread st s ++ xs))
        by (rewrite length_app, length_sread; reflexivity).
      apply map_writeAt_same.
    + lia.
    + intros a i Ha _. apply writeAt_other. left. lia.
Qed.

(** An [append] to [s] does not disturb a slice [t] it does not interfere
    with. *)
Lemma appended_frame (st : store) (s : slice) (xs : list gostring)
      (s' : slice) (st' : store) (t : slice) :
  appended st s xs s' st' -> wf_slice st t -> nointerf s t ->
  sread st' t = sread st t /\ wf_slice st' t /\ nointerf s' t.
Proof.
  intros (_ & Hlen & _ & _ & _ & Hn & Hfr & Hs') [Ht1 Ht2] Hni.
  split; [|split].
  - apply sread_ext. intros i Hi. apply Hfr.
    + destruct Ht2 as [Ht2|Ht2]; lia.
    + destruct Hni as [H|[H|H]]; [right; right; exact H | now left | right; left; lia].
  - split; [exact Ht1|]. destruct Ht2 as [Ht2|Ht2]; [now left | right; lia].
  - unfold nointerf. destruct Hs' as [(Ha & Hc & _)|(Ha & _)].
    + rewrite Ha, Hc. destruct Hni as [H|[H|H]]; auto. right; right. lia.
    + destruct Ht2 as [Ht2|Ht2]; [right; right; lia | right; left; lia].
Qed.

Lemma appended_wf (st : store) (s : slice) (xs : list gostring)
      (s' : slice) (st' : store) :
  appended st s xs s' st' -> wf_slice st s -> wf_slice st' s'.
Proof.
  intros (_ & _ & Hle & _ & _ & Hn & _ & Hs') [_ H2].
  split; [exact Hle|].
  destruct Hs' as [(Ha & Hc & Hn')|(Ha & Hn')].
  - rewrite Ha, Hc. destruct H2; [now left | right; lia].
  - right. lia.
Qed.

(** *** Replacing a slice field by the result of an [append] *)

Lemma fld_cases (f g : fld) : f = g \/ f <> g.
Proof. destruct f, g; auto; right; discriminate. Qed.

Lemma getf_setf_same (f : fld) (s : slice) (o : LiveStatusQuery) :
  getf f (setf f s o) = s.
Proof. now destruct f. Qed.

Lemma getf_setf_other (f g : fld) (s : slice) (o : LiveStatusQuery) :
  f <> g -> getf g (setf f s o) = getf g o.
Proof. destruct f, g; simpl; congruence. Qed.

Lemma nointerf_nil (t : slice) : nointerf nilSlice t.
Proof. now left. Qed.

Lemma wf_slice_nil (st : store) : wf_slice st nilSlice.
Proof. split; simpl; auto. Qed.

Lemma wf_self_protects (st : store) (o : LiveStatusQuery) :
  wf_query st o -> protects o o.
Proof.
  intros (Hw & Hd & _) f g. destruct (fld_cases f g) as [->|Hfg].
  - right; right. lia.
  - destruct (Hd f g Hfg) as [H|[H|H]].
    + now left.
    + right; right. destruct (Hw g) as [Hl _]. lia.
    + right; left. congruence.
Qed.

Lemma appended_field (st : store) (o : LiveStatusQuery) (f : fld) (s0 : slice)
      (xs : list gostring) (s' : slice) (st' : store) :
  wf_query st o -> s0 = getf f o \/ s0 = nilSlice ->
  appended st s0 xs s' st' ->
  wf_query st' (setf f s' o)
  /\ view st' (setf f s' o) = setv f (sread st s0 ++ xs) (view st o)
  /\ (forall ow, wf_query st ow -> protects o ow ->
        view st' ow = view st ow /\ wf_query st' ow /\ protects (setf f s' o) ow).
Proof.
  intros Hwf Hs0 Happ.
  assert (Hw0 : wf_slice st s0)
    by (destruct Hs0 as [->| ->]; [apply Hwf | apply wf_slice_nil]).
  assert (Hni : forall ow, protects o ow -> forall g, nointerf s0 (getf g ow))
    by (intros ow Hp g; destruct Hs0 as [->| ->]; [apply Hp | apply nointerf_nil]).
  assert (Hfr : forall ow, wf_query st ow -> protects o ow ->
                forall g, sread st' (getf g ow) = sread st (getf g ow)
                          /\ wf_slice st' (getf g ow) /\ nointerf s' (getf g ow)).
  { intros ow Hww Hp g. apply (appended_frame Happ); [apply Hww | now apply Hni]. }
  assert (Hcells : cells st' = cells st) by apply Happ.
  assert (Hview : forall ow, wf_query st ow -> protects o ow ->
                  view st' ow = view st ow /\ wf_query st' ow).
  { intros ow Hww Hp. split.
    - unfold view. rewrite Hcells.
      destruct (Hfr ow Hww Hp Fcolumns) as (H1 & _).
      destruct (Hfr ow Hww Hp Ffilters) as (H2 & _).
      destruct (Hfr ow Hww Hp Fheaders) as (H3 & _).
      simpl in H1, H2, H3. rewrite H1, H2, H3. reflexivity.
    - destruct Hww as (Hw & Hd & Hc). repeat split.
      + apply (Hfr ow (conj Hw (conj Hd Hc)) Hp f0).
      + apply (Hfr ow (conj Hw (conj Hd Hc)) Hp f0).
      + exact Hd.
      + rewrite Hcells. exact Hc. }
  pose proof (wf_self_protects Hwf) as Hself.
  destruct (Hview o Hwf Hself) as [Hvo Hwo].
  pose proof (appended_wf Happ Hw0) as Hw'.
  split; [|split].
  - destruct Hwo as (Hw & Hd & Hc). split; [|split].
    + intros g. destruct (fld_cases f g) as [<-|Hfg].
      * now rewrite getf_setf_same.
      * rewrite (getf_setf_other _ _ Hfg). apply Hw.
    + assert (Hfresh : forall g, f <> g ->
                s_cap s' = 0%nat \/ s_cap (getf g o) = 0%nat
                \/ s_arr s' <> s_arr (getf g o)).
      { intros g Hfg.
        destruct Happ as (_ & _ & _ & _ & _ & _ & _ & [(Ha & Hc' & _)|(Ha & _)]).
        - rewrite Ha, Hc'. destruct Hs0 as [->| ->]; [now apply Hd | now left].
        - destruct Hwf as (Hw1 & _). destruct (Hw1 g) as [_ [H|H]];
            [right; left; exact H | right; right; lia]. }
      intros g h Hgh.
      destruct (fld_cases f g) as [<-|Hfg], (fld_cases f h) as [<-|Hfh].
      * congruence.
      * rewrite getf_setf_same, (getf_setf_other _ _ Hfh). now apply Hfresh.
      * rewrite getf_setf_same, (getf_setf_other _ _ Hfg).
        destruct (Hfresh g Hfg) as [H|[H|H]]; auto.
      * rewrite (getf_setf_other _ _ Hfg), (getf_setf_other _ _ Hfh). now apply Hd.
    + destruct f; exact Hc.
  - destruct Happ as (Hr & _).
    unfold view in *. injection Hvo as Hc1 Hc2 Hc3 Hc4.
    destruct f; simpl; rewrite ?Hr, ?Hc1, ?Hc2, ?Hc3, ?Hc4; reflexivity.
  - intros ow Hww Hp. destruct (Hview ow Hww Hp) as [Hv Hw2].
    split; [exact Hv|]. split; [exact Hw2|].
    intros g h. destruct (fld_cases f g) as [<-|Hfg].
    + rewrite getf_setf_same. apply (Hfr ow Hww Hp h).
    + rewrite (getf_setf_other _ _ Hfg). apply Hp.
Qed.

(** *** The methods, one by one *)

Lemma getf_with_outputFormat (f : fld) (x : OutputFormat) (o : LiveStatusQuery) :
  getf f (with_outputFormat x o) = getf f o.
Proof. now destruct f. Qed.

Lemma getf_with_columnHdrs (f : fld) (p : option nat) (o : LiveStatusQuery) :
  getf f (with_columnHdrs p o) = getf f o.
Proof. now destruct f. Qed.

Lemma replace_spec (f : fld) (q : nat) (o : LiveStatusQuery) (s0 : slice)
      (xs : list gostring) (st : store) :
  nth_error (objs st) q = Some o -> wf_query st o ->
  s0 = getf f o \/ s0 = nilSlice ->
  exists st',
    (s <- sappend growslice s0 xs ;; assign q (setf f s) ;; ret q) st = Some (q, st')
    /\ step_ok st q o (setv f (sread st s0 ++ xs) (view st o)) st'.
Proof.
  intros Hq Hwf Hs0.
  destruct (sappend_spec s0 xs st) as (s' & st1 & E & Happ).
  assert (Hobjs : objs st1 = objs st) by apply Happ.
  destruct (@appended_field st o f s0 xs s' st1 Hwf Hs0 Happ) as (Hw' & Hv' & Hfr).
  unfold bind, assign. rewrite E, Hobjs, Hq.
  eexists. split; [reflexivity|].
  exists (setf f s' o). simpl. split; [|split; [|split; [|split; [|split]]]].
  - now apply nth_error_upd_eq.
  - exact Hw'.
  - exact Hv'.
  - apply length_upd.
  - intros p Hp. apply nth_error_upd_neq. congruence.
  - exact Hfr.
Qed.

Lemma appendField_spec (f : fld) (q : nat) (o : LiveStatusQuery)
      (xs : list gostring) (st : store) :
  nth_error (objs st) q = Some o -> wf_query st o ->
  exists st',
    appendField growslice f q xs st = Some (q, st')
    /\ step_ok st q o (setv f (getv f (view st o) ++ xs) (view st o)) st'.
Proof.
  intros Hq Hwf.
  destruct (@replace_spec f q o (getf f o) xs st Hq Hwf (or_introl eq_refl))
    as (st' & E & H).
  exists st'. split.
  - unfold appendField, bind at 1, load. rewrite Hq. exact E.
  - destruct f; exact H.
Qed.

Lemma step_ok_refl (st : store) (q : nat) (o : LiveStatusQuery) :
  nth_error (objs st) q = Some o -> wf_query st o ->
  step_ok st q o (view st o) st.
Proof.
  intros Hq Hwf. exists o.
  split; [exact Hq|]. split; [exact Hwf|]. split; [reflexivity|].
  split; [reflexivity|]. split; [reflexivity|].
  intros ow Hww Hp. split; [reflexivity|]. split; assumption.
Qed.

Lemma Columns_spec (q : nat) (o : LiveStatusQuery) (cols : list gostring) (st : store) :
  nth_error (objs st) q = Some o -> wf_query st o ->
  exists st',
    Columns growslice q cols st = Some (q, st')
    /\ step_ok st q o (applyV (CColumns cols) (view st o)) st'.
Proof.
  intros Hq Hwf. unfold Columns, Clone. destruct cols as [|c cols].
  - unfold bind, ret, assign. rewrite Hq.
    eexists. split; [reflexivity|].
    exists (with_columns nilSlice o). simpl.
    split; [|split; [|split; [|split; [|split]]]].
    + now apply nth_error_upd_eq.
    + destruct Hwf as (Hw & Hd & Hc). split; [|split].
      * intros [| |]; simpl; [apply wf_slice_nil | apply (Hw Ffilters) | apply (Hw Fheaders)].
      * intros f g Hfg. destruct f, g; simpl; auto; try congruence;
          apply (Hd _ _ Hfg).
      * exact Hc.
    + reflexivity.
    + apply length_upd.
    + intros p Hp. apply nth_error_upd_neq. congruence.
    + intros ow Hww Hp. split; [reflexivity|]. split; [exact Hww|].
      intros f g. destruct f; simpl; [apply nointerf_nil | apply (Hp Ffilters) | apply (Hp Fheaders)].
  - destruct (@replace_spec Fcolumns q o nilSlice (c :: cols) st Hq Hwf
                            (or_intror eq_refl)) as (st' & E' & H).
    exists st'. split; [exact E' | exact H].
Qed.

Lemma SetOutputFormat_spec (q : nat) (o : LiveStatusQuery) (x : OutputFormat)
      (st : store) :
  nth_error (objs st) q = Some o -> wf_query st o ->
  exists st',
    SetOutputFormat q x st = Some (q, st')
    /\ step_ok st q o (applyV (COutputFormat x) (view st o)) st'.
Proof.
  intros Hq Hwf. unfold SetOutputFormat, bind, assign. rewrite Hq.
  eexists. split; [reflexivity|].
  exists (with_outputFormat x o). simpl. split; [|split; [|split; [|split; [|split]]]].
  - now apply nth_error_upd_eq.
  - destruct Hwf as (Hw & Hd & Hc). split; [|split].
    + intros f. rewrite getf_with_outputFormat. apply Hw.
    + intros f g. rewrite !getf_with_outputFormat. apply Hd.
    + exact Hc.
  - reflexivity.
  - apply length_upd.
  - intros p Hp. apply nth_error_upd_neq. congruence.
  - intros ow Hww Hp. split; [reflexivity|]. split; [exact Hww|].
    intros f g. rewrite getf_with_outputFormat. apply Hp.
Qed.

Lemma ColumnHeaders_spec (q : nat) (o : LiveStatusQuery) (on : bool) (st : store) :
  nth_error (objs st) q = Some o -> wf_query st o ->
  exists st',
    ColumnHeaders q on st = Some (q, st')
    /\ step_ok st q o (applyV (CColumnHeaders on) (view st o)) st'.
Proof.
  intros Hq Hwf. unfold ColumnHeaders, bind, newcell, assign. simpl. rewrite Hq.
  eexists. split; [reflexivity|].
  assert (Hkeep : forall ow, wf_query st ow ->
            view (mkStore (arrays st) (narrays st) (cells st ++ [on])
                          (upd q (with_columnHdrs (Some (length (cells st)))) (objs st))) ow
            = view st ow
            /\ wf_query (mkStore (arrays st) (narrays st) (cells st ++ [on])
                          (upd q (with_columnHdrs (Some (length (cells st)))) (objs st))) ow).
  { intros ow (Hw & Hd & Hc). split.
    - unfold view; simpl. destruct (columnHdrs ow) as [p|]; [|reflexivity].
      now rewrite nth_error_app1.
    - split; [exact Hw|]. split; [exact Hd|]. simpl.
      destruct (columnHdrs ow); [|exact I]. rewrite length_app. simpl. lia. }
  exists (with_columnHdrs (Some (length (cells st))) o). simpl.
  split; [|split; [|split; [|split; [|split]]]].
  - now apply nth_error_upd_eq.
  - destruct Hwf as (Hw & Hd & Hc). split; [|split].
    + intros f. rewrite getf_with_columnHdrs. apply Hw.
    + intros f g. rewrite !getf_with_columnHdrs. apply Hd.
    + simpl. rewrite length_app. simpl. lia.
  - unfold view; simpl. rewrite nth_error_app2, Nat.sub_diag by lia. reflexivity.
  - apply length_upd.
  - intros p Hp. apply nth_error_upd_neq. congruence.
  - intros ow Hww Hp. destruct (Hkeep ow Hww) as [Hv Hw2].
    split; [exact Hv|]. split; [exact Hw2|].
    intros f g. rewrite getf_with_columnHdrs. apply Hp.
Qed.

Lemma Header_spec (q : nat) (o : LiveStatusQuery) (key value : gostring) (st : store) :
  nth_error (objs st) q = Some o -> wf_query st o ->
  exists st',
    Header growslice q key value st = Some (q, st')
    /\ step_ok st q o (applyV (CHeader key value) (view st o)) st'.
Proof.
  intros Hq Hwf. unfold Header, applyV, headerLine. rewrite !streq_nil.
  destruct (strings.TrimSpace (strings.TrimSuffix key (str ":"))) as [|k ks].
  - exists st. split; [reflexivity | now apply step_ok_refl].
  - destruct value as [|v vs]; now apply appendField_spec.
Qed.

(** Every method leaves [q] showing what [applyV] says. *)
Lemma exec_spec (c : call) (q : nat) (o : LiveStatusQuery) (st : store) :
  nth_error (objs st) q = Some o -> wf_query st o ->
  exists st',
    exec growslice c q st = Some (q, st')
    /\ step_ok st q o (applyV c (view st o)) st'.
Proof.
  intros Hq Hwf.
  destruct c; simpl exec;
    try (now apply appendField_spec);
    try (now apply Columns_spec);
    try (now apply SetOutputFormat_spec);
    try (now apply ColumnHeaders_spec);
    try (now apply Header_spec).
  destruct on; now apply appendField_spec.
Qed.

Lemma chain_spec (cs : list call) (q : nat) (o : LiveStatusQuery) (st : store) :
  nth_error (objs st) q = Some o -> wf_query st o ->
  exists st',
    chain growslice cs q st = Some (q, st')
    /\ step_ok st q o (applyAllV cs (view st o)) st'.
Proof.
  revert o st; induction cs as [|c cs IH]; intros o st Hq Hwf.
  - exists st. split; [reflexivity | now apply step_ok_refl].
  - destruct (@exec_spec c q o st Hq Hwf) as (st1 & E1 & o1 & Hq1 & Hw1 & Hv1 & Hl1 & Ho1 & Hf1).
    destruct (IH o1 st1 Hq1 Hw1) as (st2 & E2 & o2 & Hq2 & Hw2 & Hv2 & Hl2 & Ho2 & Hf2).
    exists st2. split.
    + simpl. unfold bind. rewrite E1. exact E2.
    + exists o2. split; [exact Hq2|]. split; [exact Hw2|]. split; [|split; [|split]].
      * simpl. rewrite Hv2, Hv1. reflexivity.
      * congruence.
      * intros p Hp. rewrite (Ho2 p Hp). now apply Ho1.
      * intros ow Hww Hp. destruct (Hf1 ow Hww Hp) as (Ha & Hb & Hc).
        destruct (Hf2 ow Hb Hc) as (Ha' & Hb' & Hc').
        split; [congruence|]. split; assumption.
Qed.

(** *** [Build] *)

Lemma hoare_bind (A B : Type) (P : store -> Prop) (c : M A) (Q : A -> store -> Prop)
      (k : A -> M B) (R : B -> store -> Prop) :
  hoare P c Q -> (forall x, hoare (Q x) (k x) R) -> hoare P (bind c k) R.
Proof.
  intros Hc Hk st HP. destruct (Hc st HP) as (x & st1 & E & HQ).
  destruct (Hk x st1 HQ) as (y & st2 & E2 & HR).
  exists y, st2. split; [|exact HR]. unfold bind. now rewrite E.
Qed.

Lemma hoare_ret (A : Type) (P : store -> Prop) (x : A) (Q : A -> store -> Prop) :
  (forall st, P st -> Q x st) -> hoare P (ret x) Q.
Proof. intros H st HP. exists x, st. split; [reflexivity | now apply H]. Qed.

Lemma hoare_pre (A : Type) (P P' : store -> Prop) (c : M A) (Q : A -> store -> Prop) :
  (forall st, P st -> P' st) -> hoare P' c Q -> hoare P c Q.
Proof. intros H Hc st HP. apply Hc. now apply H. Qed.

Lemma hoare_post (A : Type) (P : store -> Prop) (c : M A) (Q Q' : A -> store -> Prop) :
  hoare P c Q -> (forall x st, Q x st -> Q' x st) -> hoare P c Q'.
Proof.
  intros Hc H st HP. destruct (Hc st HP) as (x & st' & E & HQ).
  exists x, st'. split; [exact E | now apply H].
Qed.

Lemma hoare_pure (A : Type) (phi : Prop) (P : store -> Prop) (c : M A)
      (Q : A -> store -> Prop) :
  (phi -> hoare P c Q) -> hoare (fun st => phi /\ P st) c Q.
Proof. intros H st [Hphi HP]. now apply H. Qed.

Lemma hoare_readSlice (P : store -> Prop) (s : slice) (X : list gostring) :
  (forall st, P st -> sread st s = X) ->
  hoare P (readSlice s) (fun r st => r = X /\ P st).
Proof.
  intros H st HP. exists (sread st s), st. split; [reflexivity|].
  split; [now apply H | exact HP].
Qed.

Lemma local_wf (st0 st : store) (l : slice) : local st0 st l -> wf_slice st l.
Proof. intros [H1 [H2|H2]]; split; auto. right. lia. Qed.

Lemma frame_refl (st : store) : frame st st.
Proof. repeat split; auto. Qed.

Lemma frame_sread (st0 st : store) (s : slice) :
  frame st0 st -> wf_slice st0 s -> sread st s = sread st0 s.
Proof.
  intros (_ & _ & _ & H) [H1 H2]. apply sread_ext. intros i Hi. apply H.
  destruct H2; lia.
Qed.

Lemma appended_local (st0 st : store) (l : slice) (xs : list gostring)
      (l' : slice) (st' : store) :
  frame st0 st -> local st0 st l -> appended st l xs l' st' ->
  frame st0 st' /\ local st0 st' l'
  /\ (forall t, local st0 st t -> nointerf l t ->
        sread st' t = sread st t /\ local st0 st' t /\ nointerf l' t).
Proof.
  intros (Fc & Fo & Fn & Fa) Hl Happ.
  pose proof Happ as (_ & _ & Hle & Hc & Ho & Hn & Hfr & Hs').
  split; [|split].
  - split; [congruence|]. split; [congruence|]. split; [lia|].
    intros a i Ha. rewrite <- (Fa a i Ha). apply Hfr; [lia|].
    destruct Hl as [_ [H|H]]; [right; right; exact H | left; lia].
  - split; [exact Hle|].
    destruct Hs' as [(Ha & Hc' & Hn')|(Ha & Hn')].
    + rewrite Ha, Hc', Hn'. apply Hl.
    + right. lia.
  - intros t Ht Hni.
    destruct (@appended_frame st l xs l' st' t Happ (local_wf Ht) Hni) as (H1 & _ & H3).
    split; [exact H1|]. split; [|exact H3].
    destruct Ht as [Ht1 [Ht2|Ht2]]; split; auto. right. lia.
Qed.

Lemma sappend_hoare (st0 : store) (l : slice) (pre xs : list gostring) :
  hoare (building st0 l pre) (sappend growslice l xs)
        (fun l' st' => building st0 l' (pre ++ xs) st').
Proof.
  intros st (HF & HL & HR).
  destruct (sappend_spec l xs st) as (l' & st' & E & Happ).
  exists l', st'. split; [exact E|].
  destruct (@appended_local st0 st l xs l' st' HF HL Happ) as (HF' & HL' & _).
  split; [exact HF'|]. split; [exact HL'|].
  destruct Happ as (Hr & _). now rewrite Hr, HR.
Qed.

Lemma safeTokens_loop_hoare (st0 : store) (l : slice) (pre : list gostring)
      (vs : list gostring) (out : slice) (acc : list gostring) :
  hoare (building2 st0 l pre out acc) (safeTokens_loop growslice out vs)
        (fun out' st' => building st0 l pre st'
                         /\ sread st' out' = acc ++ map safeToken vs).
Proof.
  revert out acc; induction vs as [|v vs IH]; intros out acc; simpl.
  - apply hoare_ret. intros st (HB & _ & HR & _). split; [exact HB|].
    now rewrite app_nil_r.
  - apply hoare_bind with (Q := fun out' st' =>
                                  building2 st0 l pre out' (acc ++ [safeToken v]) st').
    + intros st ((HF & HL & HR) & HO & HA & HN).
      destruct (sappend_spec out [safeToken v] st) as (out' & st' & E & Happ).
      exists out', st'. split; [exact E|].
      destruct (@appended_local st0 st out [safeToken v] out' st' HF HO Happ)
        as (HF' & HO' & Hfr).
      destruct (Hfr l HL HN) as (H1 & H2 & H3).
      split; [|split; [exact HO'|split; [|exact H3]]].
      * split; [exact HF'|]. split; [exact H2|]. congruence.
      * destruct Happ as (Hr & _). now rewrite Hr, HA.
    + intros out'. eapply hoare_post; [apply (IH out' (acc ++ [safeToken v]))|].
      intros x st [H1 H2]. split; [exact H1|].
      now rewrite H2, <- app_assoc.
Qed.

Lemma safeTokens_hoare (st0 : store) (l : slice) (pre : list gostring) (inp : slice) :
  wf_slice st0 inp ->
  hoare (building st0 l pre) (safeTokens growslice inp)
        (fun toks st' => building st0 l pre st'
                         /\ sread st' toks = map safeToken (sread st0 inp)).
Proof.
  intros Hinp. unfold safeTokens.
  apply hoare_bind with (Q := fun out st' => building2 st0 l pre out [] st').
  - intros st ((Fc & Fo & Fn & Fa) & HL & HR).
    eexists _, _. split; [reflexivity|].
    split; [split; [|split]|split; [|split]]; simpl.
    + repeat split; simpl; auto.
    + destruct HL as [H1 [H2|H2]]; split; auto. right. simpl. lia.
    + exact HR.
    + split; simpl; [lia|]. right. lia.
    + reflexivity.
    + destruct HL as [H1 [H2|H2]]; [right; right; simpl; lia | right; left; simpl; lia].
  - intros out.
    apply hoare_bind with (Q := fun vs st' => vs = sread st0 inp
                                              /\ building2 st0 l pre out [] st').
    + apply hoare_readSlice. intros st ((HF & _) & _). now apply frame_sread.
    + intros vs. apply hoare_pure. intros ->. apply safeTokens_loop_hoare.
Qed.

(** [Build] returns the lines of [linesV], joined by newlines; it leaves
    cells, objects and the arrays allocated at entry as they were. *)
Lemma Build_hoare (q : nat) (o : LiveStatusQuery) (st0 : store) :
  nth_error (objs st0) q = Some o -> wf_query st0 o ->
  hoare (fun st => st = st0) (Build growslice q)
        (fun text st' => text = strings.Join (linesV (view st0 o)) [LF]
                         /\ frame st0 st').
Proof.
  intros Hq Hwf. pose proof Hwf as (Hw & Hd & Hc). unfold Build.
  set (v := view st0 o).
  apply hoare_bind with (Q := fun x st => x = o /\ building st0 nilSlice [] st).
  { intros st ->. exists o, st0. unfold load. rewrite Hq. split; [reflexivity|].
    split; [reflexivity|]. split; [apply frame_refl|].
    split; [split; simpl; auto | reflexivity]. }
  intros o'. apply hoare_pure. intros ->.
  apply hoare_bind with (Q := fun l st => building st0 l (getLine v) st).
  { apply (@sappend_hoare st0 nilSlice [] [str "GET " ++ table o]). }
  intros l1.
  apply hoare_bind with (Q := fun l st => building st0 l (getLine v ++ columnsLine v) st).
  { assert (Hlen : length (vcolumns v) = s_len (columns o)) by apply length_sread.
    unfold columnsLine. destruct (0 <? s_len (columns o))%nat eqn:E.
    - apply Nat.ltb_lt in E.
      destruct (vcolumns v) as [|c cs] eqn:Ev; [simpl in Hlen; lia|]. rewrite <- Ev.
      apply hoare_bind with
        (Q := fun toks st => building st0 l1 (getLine v) st
                             /\ sread st toks = map safeToken (vcolumns v)).
      { apply safeTokens_hoare. apply (Hw Fcolumns). }
      intros toks.
      apply hoare_bind with
        (Q := fun ts st => ts = map safeToken (vcolumns v)
                           /\ (building st0 l1 (getLine v) st
                               /\ sread st toks = map safeToken (vcolumns v))).
      { apply hoare_readSlice. intros st [_ H]. exact H. }
      intros ts. apply hoare_pure. intros ->.
      eapply hoare_pre; [|apply sappend_hoare]. intros st [H _]. exact H.
    - apply Nat.ltb_ge in E.
      destruct (vcolumns v) as [|c cs]; [|simpl in Hlen; lia].
      apply hoare_ret. intros st H. now rewrite app_nil_r. }
  intros l2.
  apply hoare_bind with
    (Q := fun fs st => fs = vfilters v
                       /\ building st0 l2 (getLine v ++ columnsLine v) st).
  { apply hoare_readSlice. intros st (HF & _). apply frame_sread; [exact HF | apply (Hw Ffilters)]. }
  intros fs. apply hoare_pure. intros ->.
  apply hoare_bind with
    (Q := fun l st => building st0 l ((getLine v ++ columnsLine v) ++ vfilters v) st).
  { apply sappend_hoare. }
  intros l3.
  apply hoare_bind with
    (Q := fun l st => building st0 l
                        (((getLine v ++ columnsLine v) ++ vfilters v)
                         ++ columnHeadersLine v) st).
  { unfold columnHeadersLine. subst v. unfold view at 2 4; simpl.
    destruct (columnHdrs o) as [p|].
    - destruct (nth_error (cells st0) p) as [b|] eqn:Eb;
        [|apply nth_error_None in Eb; lia].
      apply hoare_bind with
        (Q := fun b' st => b' = b
                           /\ building st0 l3
                                (((getLine (view st0 o) ++ columnsLine (view st0 o))
                                  ++ vfilters (view st0 o))) st).
      { intros st H. exists b, st. unfold loadcell.
        destruct H as ((Fc & F') & H'). rewrite Fc, Eb.
        split; [reflexivity|]. split; [reflexivity|].
        split; [split; assumption | exact H']. }
      intros b'. apply hoare_pure. intros ->. destruct b; apply sappend_hoare.
    - apply hoare_ret. intros st H. now rewrite app_nil_r. }
  intros l4.
  apply hoare_bind with
    (Q := fun hs st => hs = vheaders v
                       /\ building st0 l4
                            (((getLine v ++ columnsLine v) ++ vfilters v)
                             ++ columnHeadersLine v) st).
  { apply hoare_readSlice. intros st (HF & _). apply frame_sread; [exact HF | apply (Hw Fheaders)]. }
  intros hs. apply hoare_pure. intros ->.
  apply hoare_bind with
    (Q := fun l st => building st0 l
                        ((((getLine v ++ columnsLine v) ++ vfilters v)
                          ++ columnHeadersLine v) ++ vheaders v) st).
  { apply sappend_hoare. }
  intros l5.
  apply hoare_bind with
    (Q := fun l st => building st0 l
                        (((((getLine v ++ columnsLine v) ++ vfilters v)
                           ++ columnHeadersLine v) ++ vheaders v)
                         ++ outputFormatLine v) st).
  { unfold outputFormatLine. subst v. unfold view at 6; simpl. rewrite streq_nil.
    destruct (outputFormat o) as [|c cs]; simpl negb; cbv iota.
    - apply hoare_ret. intros st H. now rewrite app_nil_r.
    - apply sappend_hoare. }
  intros l6.
  apply hoare_bind with
    (Q := fun l st => building st0 l (linesV v) st).
  { eapply hoare_post; [apply sappend_hoare|].
    intros x st H. unfold linesV. now rewrite <- !app_assoc in H. }
  intros l7.
  apply hoare_bind with
    (Q := fun ls st => ls = linesV v /\ building st0 l7 (linesV v) st).
  { apply hoare_readSlice. intros st (_ & _ & H). exact H. }
  intros ls. apply hoare_pure. intros ->.
  apply hoare_ret. intros st (HF & _). split; [reflexivity | exact HF].
Qed.

(** *** Builders made through the API *)

Lemma frame_view (st0 st : store) (o : LiveStatusQuery) :
  frame st0 st -> wf_query st0 o -> view st o = view st0 o /\ wf_query st o.
Proof.
  intros HF (Hw & Hd & Hc). pose proof HF as (Fc & _ & Fn & _). split.
  - unfold view. rewrite Fc.
    rewrite (@frame_sread st0 st (columns o) HF (Hw Fcolumns)).
    rewrite (@frame_sread st0 st (filters o) HF (Hw Ffilters)).
    rewrite (@frame_sread st0 st (headers o) HF (Hw Fheaders)). reflexivity.
  - split; [|split].
    + intros f. destruct (Hw f) as [H1 [H2|H2]]; split; auto. right. lia.
    + exact Hd.
    + now rewrite Fc.
Qed.

Lemma NewLiveStatusQuery_spec (t : Table) (cols : list gostring) (st0 : store) :
  exists q st o,
    NewLiveStatusQuery growslice t cols st0 = Some (q, st)
    /\ nth_error (objs st) q = Some o
    /\ wf_query st o
    /\ view st o = newV t cols.
Proof.
  set (o0 := mkQuery t nilSlice nilSlice nilSlice [] None).
  assert (Hwf0 : wf_query st0 o0).
  { split; [|split]; simpl; auto.
    - intros []; apply wf_slice_nil.
    - intros f g _. left. now destruct f. }
  unfold NewLiveStatusQuery, Clone. destruct cols as [|c cols].
  - eexists _, _, o0. split; [reflexivity|]. simpl.
    split; [|split].
    + now rewrite nth_error_app2, Nat.sub_diag by lia.
    + exact Hwf0.
    + reflexivity.
  - destruct (sappend_spec nilSlice (c :: cols) st0) as (s' & st1 & E & Happ).
    destruct (@appended_field st0 o0 Fcolumns nilSlice (c :: cols) s' st1 Hwf0
                              (or_intror eq_refl) Happ) as (Hw' & Hv' & _).
    unfold bind. rewrite E. eexists _, _, (setf Fcolumns s' o0).
    split; [reflexivity|]. simpl. split; [|split].
    + now rewrite nth_error_app2, Nat.sub_diag by lia.
    + exact Hw'.
    + exact Hv'.
Qed.

Lemma newQuery_spec (t : Table) (cols : list gostring) (cs : list call) (st0 : store) :
  exists q st o,
    newQuery growslice t cols cs st0 = Some (q, st)
    /\ nth_error (objs st) q = Some o
    /\ wf_query st o
    /\ view st o = applyAllV cs (newV t cols).
Proof.
  destruct (NewLiveStatusQuery_spec t cols st0) as (q & st1 & o1 & E1 & Hq1 & Hw1 & Hv1).
  destruct (@chain_spec cs q o1 st1 Hq1 Hw1) as (st2 & E2 & o2 & Hq2 & Hw2 & Hv2 & _).
  exists q, st2, o2. split; [|split; [exact Hq2|split; [exact Hw2|]]].
  - unfold newQuery, bind. now rewrite E1.
  - now rewrite Hv2, Hv1.
Qed.

Lemma Build_spec (q : nat) (o : LiveStatusQuery) (st : store) :
  nth_error (objs st) q = Some o -> wf_query st o ->
  exists st',
    Build growslice q st = Some (strings.Join (linesV (view st o)) [LF], st')
    /\ frame st st'.
Proof.
  intros Hq Hwf.
  destruct (@Build_hoare q o st Hq Hwf st eq_refl) as (text & st' & E & -> & HF).
  now exists st'.
Qed.

(** *** Calls and the lines they contribute *)

Lemma vtable_applyV (c : call) (v : QueryV) : vtable (applyV c v) = vtable v.
Proof. destruct c; simpl; try reflexivity. destruct (headerLine key value); reflexivity. Qed.

Lemma vfilters_applyV (c : call) (v : QueryV) :
  vfilters (applyV c v) = vfilters v ++ filterLinesOf c.
Proof.
  destruct c; simpl; try reflexivity; try (now rewrite app_nil_r).
  destruct (headerLine key value); simpl; now rewrite app_nil_r.
Qed.

Lemma vheaders_applyV (c : call) (v : QueryV) :
  vheaders (applyV c v) = vheaders v ++ headerLinesOf c.
Proof.
  destruct c; simpl; try reflexivity; try (now rewrite app_nil_r).
  destruct (headerLine key value); simpl; [reflexivity | now rewrite app_nil_r].
Qed.

Lemma applyAllV_lines (cs : list call) (v : QueryV) :
  vtable (applyAllV cs v) = vtable v
  /\ vfilters (applyAllV cs v) = vfilters v ++ flat_map filterLinesOf cs
  /\ vheaders (applyAllV cs v) = vheaders v ++ flat_map headerLinesOf cs.
Proof.
  revert v; induction cs as [|c cs IH]; intros v; simpl.
  - now rewrite !app_nil_r.
  - destruct (IH (applyV c v)) as (H1 & H2 & H3).
    unfold applyAllV in *. rewrite H1, H2, H3.
    rewrite vtable_applyV, vfilters_applyV, vheaders_applyV, <- !app_assoc.
    repeat split.
Qed.

Lemma Join_cons (x : gostring) (l : list gostring) (sep : gostring) :
  l <> [] -> strings.Join (x :: l) sep = x ++ sep ++ strings.Join l sep.
Proof. destruct l; [congruence | reflexivity]. Qed.

Lemma Join_snoc (l : list gostring) (y sep : gostring) :
  l <> [] -> strings.Join (l ++ [y]) sep = strings.Join l sep ++ sep ++ y.
Proof.
  induction l as [|x l IH]; [congruence|]. intros _.
  destruct l as [|x' l].
  - reflexivity.
  - change ((x :: x' :: l) ++ [y]) with (x :: ((x' :: l) ++ [y])).
    rewrite (@Join_cons x ((x' :: l) ++ [y]) sep) by (simpl; discriminate).
    rewrite IH by discriminate.
    rewrite (@Join_cons x (x' :: l) sep) by discriminate.
    now rewrite <- !app_assoc.
Qed.

(** ** The claims about the builder *)

(** C1.  For every builder made through the API, from any store, [Build]
    returns the join by newlines of: the line [GET <table>]; the line
    [Columns: ...] with the sanitised columns separated by spaces, when the
    column list is not empty; the filter lines ([Filter], [And], [Or],
    [Negate]) in the order of the calls; [ColumnHeaders: on|off] exactly
    when it was set; the header lines in the order of the calls;
    [OutputFormat: <fmt>] when the format is not empty; and the empty line
    that terminates the request.  Scenario B of the specification yields
    its nine lines. *)
Theorem Build_line_order :
  (forall (st0 : store) (t : Table) (cols : list gostring) (cs : list call),
      exists q st o st',
        newQuery growslice t cols cs st0 = Some (q, st)
        /\ nth_error (objs st) q = Some o
        /\ view st o = applyAllV cs (newV t cols)
        /\ vfilters (view st o) = flat_map filterLinesOf cs
        /\ vheaders (view st o) = flat_map headerLinesOf cs
        /\ Build growslice q st
           = Some (strings.Join
                     ([str "GET " ++ t]
                      ++ columnsLine (view st o)
                      ++ vfilters (view st o)
                      ++ columnHeadersLine (view st o)
                      ++ vheaders (view st o)
                      ++ outputFormatLine (view st o)
                      ++ [[]]) [LF], st'))
  /\ (forall st0 : store,
         exists q st st',
           newQuery growslice (str "services")
                    [str "host_name"; str "description"; str "state"]
                    scenarioB_calls st0 = Some (q, st)
           /\ Build growslice q st = Some (strings.Join scenarioB_lines [LF], st')).
Proof.
  split.
  - intros st0 t cols cs.
    destruct (newQuery_spec t cols cs st0) as (q & st & o & E & Hq & Hw & Hv).
    destruct (@Build_spec q o st Hq Hw) as (st' & EB & _).
    destruct (applyAllV_lines cs (newV t cols)) as (H1 & H2 & H3).
    exists q, st, o, st'.
    split; [exact E|]. split; [exact Hq|]. split; [exact Hv|].
    split; [rewrite Hv; exact H2|]. split; [rewrite Hv; exact H3|].
    rewrite EB. unfold linesV, getLine. rewrite Hv at 1. rewrite H1. reflexivity.
  - intros st0.
    destruct (newQuery_spec (str "services")
                            [str "host_name"; str "description"; str "state"]
                            scenarioB_calls st0) as (q & st & o & E & Hq & Hw & Hv).
    destruct (@Build_spec q o st Hq Hw) as (st' & EB & _).
    exists q, st, st'. split; [exact E|]. rewrite EB, Hv. reflexivity.
Qed.

(** C10.  [Build] is observationally pure: it leaves every query object
    and every cell as it was, the builder shows afterwards what it showed
    before (table, columns, filters, headers, output format, column-headers
    flag), and a second [Build] returns the same string. *)
Theorem Build_pure :
  forall (st0 : store) (t : Table) (cols : list gostring) (cs : list call),
    exists q st o text st' st'',
      newQuery growslice t cols cs st0 = Some (q, st)
      /\ nth_error (objs st) q = Some o
      /\ Build growslice q st = Some (text, st')
      /\ objs st' = objs st
      /\ cells st' = cells st
      /\ view st' o = view st o
      /\ Build growslice q st' = Some (text, st'').
Proof.
  intros st0 t cols cs.
  destruct (newQuery_spec t cols cs st0) as (q & st & o & E & Hq & Hw & Hv).
  destruct (@Build_spec q o st Hq Hw) as (st' & EB & HF).
  destruct (@frame_view st st' o HF Hw) as [Hv' Hw'].
  pose proof HF as (Fc & Fo & _).
  assert (Hq' : nth_error (objs st') q = Some o) by (now rewrite Fo).
  destruct (@Build_spec q o st' Hq' Hw') as (st'' & EB' & _).
  exists q, st, o, (strings.Join (linesV (view st o)) [LF]), st', st''.
  split; [exact E|]. split; [exact Hq|]. split; [exact EB|].
  split; [exact Fo|]. split; [exact Fc|]. split; [exact Hv'|].
  now rewrite EB', Hv'.
Qed.

(** C6.  [Header key value], with [k] the key after one trailing colon is
    stripped and the surrounding whitespace (of the key only) trimmed:
    when [k] is empty the store is left as it was; when [value] is empty
    the line [k:] is appended to the headers; otherwise the line
    [k: <safeValue value>]; nothing else the builder shows changes.
    Stripping removes one colon, not two.  Scenario D yields its three
    lines. *)
Theorem Header_lines :
  (forall (st0 : store) (t : Table) (cols : list gostring) (cs : list call)
          (key value : gostring),
      let k := strings.TrimSpace (strings.TrimSuffix key (str ":")) in
      exists q st o st' o',
        newQuery growslice t cols cs st0 = Some (q, st)
        /\ nth_error (objs st) q = Some o
        /\ Header growslice q key value st = Some (q, st')
        /\ nth_error (objs st') q = Some o'
        /\ match k with
           | [] => st' = st
           | _ :: _ =>
               view st' o'
               = addHeader (match value with
                            | [] => k ++ str ":"
                            | _ :: _ => k ++ str ": " ++ safeValue value
                            end) (view st o)
           end)
  /\ (forall s : gostring, strings.TrimSuffix (s ++ str ":") (str ":") = s)
  /\ (forall st0 : store,
         exists q st o,
           newQuery growslice (str "services") [str "host_name"]
                    scenarioD_calls st0 = Some (q, st)
           /\ nth_error (objs st) q = Some o
           /\ vheaders (view st o) = scenarioD_lines).
Proof.
  split; [|split].
  - intros st0 t cols cs key value. cbv zeta.
    destruct (newQuery_spec t cols cs st0) as (q & st & o & E & Hq & Hw & Hv).
    destruct (@Header_spec q o key value st Hq Hw) as (st' & EH & o' & Hq' & _ & Hv' & _).
    exists q, st, o, st', o'.
    split; [exact E|]. split; [exact Hq|]. split; [exact EH|]. split; [exact Hq'|].
    pose proof EH as EH2. unfold Header in EH2. rewrite streq_nil in EH2.
    unfold applyV, headerLine in Hv'.
    destruct (strings.TrimSpace (strings.TrimSuffix key (str ":"))) as [|c k'].
    + unfold ret in EH2. now injection EH2 as <-.
    + destruct value; exact Hv'.
  - intros s. unfold strings.TrimSuffix, strings.HasSuffix.
    rewrite length_app. simpl.
    replace (length s + 1 - 1)%nat with (length s) by lia.
    rewrite skipn_app, skipn_all, Nat.sub_diag. simpl.
    destruct (length s + 1)%nat eqn:El; [lia|]. simpl.
    rewrite firstn_app, Nat.sub_diag, firstn_all. simpl. now rewrite app_nil_r.
  - intros st0.
    destruct (newQuery_spec (str "services") [str "host_name"] scenarioD_calls st0)
      as (q & st & o & E & Hq & Hw & Hv).
    exists q, st, o. split; [exact E|]. split; [exact Hq|]. rewrite Hv. reflexivity.
Qed.

(** C7.  A work item made from a query by [NewWorkItemFromQuery], or by the
    hand-off of [SendQuery] and [TrySendQuery], holds a copy: whatever
    chain of builder calls is applied to the caller's query afterwards,
    [Build] on the work item's query returns the string it returned at the
    moment of the copy. *)
Theorem WorkItem_unaffected_by_later_calls :
  forall (st0 : store) (t : Table) (cols : list gostring) (cs0 : list call)
         (id : Z) (cs : list call),
    exists q st,
      newQuery growslice t cols cs0 st0 = Some (q, st)
      /\ (exists w st1 text st1' st2 st2',
             NewWorkItemFromQuery id q st = Some (w, st1)
             /\ ID w = id
             /\ Query w <> q
             /\ Build growslice (Query w) st1 = Some (text, st1')
             /\ chain growslice cs q st1 = Some (q, st2)
             /\ Build growslice (Query w) st2 = Some (text, st2'))
      /\ (exists w st1 text st1' st2 st2',
             SendQuery_item id q st = Some (w, st1)
             /\ ID w = id
             /\ Query w <> q
             /\ Build growslice (Query w) st1 = Some (text, st1')
             /\ chain growslice cs q st1 = Some (q, st2)
             /\ Build growslice (Query w) st2 = Some (text, st2')).
Proof.
  intros st0 t cols cs0 id cs.
  destruct (newQuery_spec t cols cs0 st0) as (q & st & o & E & Hq & Hw & Hv).
  exists q, st. split; [exact E|].
  assert (Hlt : (q < length (objs st))%nat)
    by (apply nth_error_Some; congruence).
  assert (Hcopy : forall (p : nat) (st1 : store),
            p <> q ->
            nth_error (objs st1) q = Some o ->
            nth_error (objs st1) p = Some o ->
            wf_query st1 o ->
            exists text st1' st2 st2',
              Build growslice p st1 = Some (text, st1')
              /\ chain growslice cs q st1 = Some (q, st2)
              /\ Build growslice p st2 = Some (text, st2')).
  { intros p st1 Hpq Hq1 Hp1 Hw1.
    destruct (@Build_spec p o st1 Hp1 Hw1) as (st1' & EB1 & _).
    destruct (@chain_spec cs q o st1 Hq1 Hw1)
      as (st2 & EC & o2 & _ & _ & _ & _ & Hoth & Hfr).
    destruct (Hfr o Hw1 (wf_self_protects Hw1)) as (Hv2 & Hw2 & _).
    assert (Hp2 : nth_error (objs st2) p = Some o) by (now rewrite (Hoth p Hpq)).
    destruct (@Build_spec p o st2 Hp2 Hw2) as (st2' & EB2 & _).
    exists (strings.Join (linesV (view st1 o)) [LF]), st1', st2, st2'.
    split; [exact EB1|]. split; [exact EC|].
    now rewrite EB2, Hv2. }
  split.
  - unfold NewWorkItemFromQuery, bind, load, newobj, ret. rewrite Hq.
    set (st1 := mkStore (arrays st) (narrays st) (cells st) (objs st ++ [o])).
    destruct (Hcopy (length (objs st)) st1) as (text & st1' & st2 & st2' & H1 & H2 & H3).
    + lia.
    + simpl. now rewrite nth_error_app1.
    + simpl. now rewrite nth_error_app2, Nat.sub_diag by lia.
    + exact Hw.
    + exists (mkWorkItem id (length (objs st))), st1, text, st1', st2, st2'.
      simpl. repeat split; auto. lia.
  - unfold SendQuery_item, NewWorkItemFromQuery, bind, load, newobj, ret. rewrite Hq.
    simpl. rewrite nth_error_app2, Nat.sub_diag by lia. simpl.
    set (st1 := mkStore (arrays st) (narrays st) (cells st) ((objs st ++ [o]) ++ [o])).
    destruct (Hcopy (length (objs st ++ [o])) st1) as (text & st1' & st2 & st2' & H1 & H2 & H3).
    + rewrite length_app. simpl. lia.
    + simpl. rewrite nth_error_app1 by (rewrite length_app; simpl; lia).
      now rewrite nth_error_app1.
    + simpl. now rewrite nth_error_app2, Nat.sub_diag by lia.
    + exact Hw.
    + exists (mkWorkItem id (length (objs st ++ [o]))), st1, text, st1', st2, st2'.
      simpl. repeat split; auto. rewrite length_app. simpl. lia.
Qed.

End BuilderProperties.

(** C3, as the specification has it, fails: the string [Build] returns for
    scenario A ends with one newline, not two. *)
Lemma Build_scenarioA_no_blank_line :
  exists q st st',
    newQuery (fun _ n => n) (str "hosts") [str "name"; str "state"]
             scenarioA_calls emptyStore = Some (q, st)
    /\ Build (fun _ n => n) q st = Some (scenarioA_text, st')
    /\ scenarioA_text <> scenarioA_text ++ [LF]
    /\ strings.HasSuffix scenarioA_text [LF; LF] = false.
Proof.
  destruct (newQuery_spec (fun _ n => n) (str "hosts") [str "name"; str "state"]
                          scenarioA_calls emptyStore) as (q & st & o & E & Hq & Hw & Hv).
  destruct (@Build_spec (fun _ n => n) q o st Hq Hw) as (st' & EB & _).
  exists q, st, st'. split; [exact E|]. split.
  - rewrite EB, Hv. reflexivity.
  - split; [|reflexivity]. intros H. apply (f_equal (@length ascii)) in H.
    vm_compute in H. discriminate.
Qed.

(** ** Decimal digits: printing and parsing *)

Lemma digit_digitChar (d : Z) :
  (0 <= d < 10)%Z -> strconv.digit (fmt.digitChar d) = Some d.
Proof.
  intros H. unfold strconv.digit, fmt.digitChar, byteval.
  rewrite N_ascii_embedding by lia.
  rewrite Z2N.id by lia.
  destruct (48 <=? 48 + d)%Z eqn:E1; [|apply Z.leb_gt in E1; lia].
  destruct (48 + d <=? 57)%Z eqn:E2; [|apply Z.leb_gt in E2; lia].
  cbn [andb]. f_equal. lia.
Qed.

Lemma digitsOf_acc (fuel : nat) (n : Z) (acc : gostring) :
  fmt.digitsOf fuel n acc = fmt.digitsOf fuel n [] ++ acc.
Proof.
  revert n acc; induction fuel as [|k IH]; intros n acc; simpl; [reflexivity|].
  destruct (n <? 10)%Z; [reflexivity|].
  rewrite (IH _ (_ :: acc)), (IH _ [_]), <- app_assoc. reflexivity.
Qed.

Lemma fastDigits_app (m : Z) (a b : gostring) :
  strconv.fastDigits m (a ++ b)
  = match strconv.fastDigits m a with
    | Some x => strconv.fastDigits x b
    | None => None
    end.
Proof.
  revert m; induction a as [|c a IH]; intros m; simpl; [reflexivity|].
  destruct (strconv.digit c); [apply IH | reflexivity].
Qed.

Lemma fastDigits_digitsOf (fuel : nat) (n : Z) :
  (0 <= n < 10 ^ Z.of_nat fuel)%Z -> (0 < fuel)%nat ->
  strconv.fastDigits 0 (fmt.digitsOf fuel n []) = Some n.
Proof.
  revert n; induction fuel as [|k IH]; intros n Hn Hf; [lia|].
  simpl fmt.digitsOf. destruct (n <? 10)%Z eqn:E.
  - apply Z.ltb_lt in E. simpl.
    rewrite Z.mod_small by lia. rewrite digit_digitChar by lia. reflexivity.
  - apply Z.ltb_ge in E. rewrite digitsOf_acc, fastDigits_app.
    rewrite Nat2Z.inj_succ, Z.pow_succ_r in Hn by lia.
    assert (Hk : (0 < k)%nat).
    { destruct k; [|lia]. simpl in Hn. lia. }
    rewrite IH; [| |exact Hk].
    + simpl. rewrite digit_digitChar by (apply Z.mod_pos_bound; lia).
      f_equal. pose proof (Z.div_mod n 10). lia.
    + split; [apply Z.div_pos; lia|]. apply Z.div_lt_upper_bound; lia.
Qed.

Lemma digitsOf_digits (fuel : nat) (n : Z) :
  (0 <= n)%Z -> Forall isDigit (fmt.digitsOf fuel n []).
Proof.
  revert n; induction fuel as [|k IH]; intros n Hn; simpl; [constructor|].
  assert (Hd : isDigit (fmt.digitChar (n mod 10))).
  { exists (n mod 10)%Z. apply digit_digitChar. apply Z.mod_pos_bound. lia. }
  destruct (n <? 10)%Z.
  - constructor; [exact Hd | constructor].
  - rewrite digitsOf_acc. apply Forall_app. split.
    + apply IH. apply Z.div_pos; lia.
    + constructor; [exact Hd | constructor].
Qed.

Lemma digitsOf_length (fuel : nat) (n : Z) (k : nat) :
  (0 <= n < 10 ^ Z.of_nat k)%Z -> (0 < k)%nat -> (0 < fuel)%nat ->
  (1 <= length (fmt.digitsOf fuel n []) <= k)%nat.
Proof.
  revert n k; induction fuel as [|f IH]; intros n k Hn Hk Hf; [lia|].
  simpl fmt.digitsOf. destruct (n <? 10)%Z eqn:E.
  - simpl. lia.
  - apply Z.ltb_ge in E. rewrite digitsOf_acc, length_app. simpl.
    destruct k as [|k]; [lia|].
    rewrite Nat2Z.inj_succ, Z.pow_succ_r in Hn by lia.
    assert (Hk' : (0 < k)%nat).
    { destruct k; [|lia]. simpl in Hn. lia. }
    destruct f as [|f].
    + simpl. lia.
    + assert (H : (1 <= length (fmt.digitsOf (S f) (n / 10) []) <= k)%nat).
      { apply IH; [|exact Hk'|lia].
        split; [apply Z.div_pos; lia|]. apply Z.div_lt_upper_bound; lia. }
      lia.
Qed.

Lemma utoa_fuel (n : Z) :
  (0 <= n)%Z -> (n < 10 ^ Z.of_nat (S (Z.to_nat (Z.log2 n))))%Z.
Proof.
  intros Hn. rewrite Nat2Z.inj_succ, Z2Nat.id by apply Z.log2_nonneg.
  destruct (Z.eq_dec n 0) as [->|Hz]; [reflexivity|].
  assert (H : (n < 2 ^ Z.succ (Z.log2 n))%Z) by (apply Z.log2_spec; lia).
  eapply Z.lt_le_trans; [exact H|].
  apply Z.pow_le_mono_l. lia.
Qed.

Lemma utoa_spec (n : Z) (k : nat) :
  (0 <= n < 10 ^ Z.of_nat k)%Z -> (0 < k)%nat ->
  Forall isDigit (fmt.utoa n)
  /\ (1 <= length (fmt.utoa n) <= k)%nat
  /\ strconv.fastDigits 0 (fmt.utoa n) = Some n.
Proof.
  intros Hn Hk. unfold fmt.utoa. split; [|split].
  - apply digitsOf_digits. lia.
  - apply digitsOf_length; [exact Hn | exact Hk | lia].
  - apply fastDigits_digitsOf; [|lia]. split; [lia | apply utoa_fuel; lia].
Qed.

Lemma isDigit_ascii (c : ascii) :
  isDigit c ->
  (strings.RuneSelf <=? byteval c)%Z = false
  /\ strings.asciiSpace c = false
  /\ strconv.isSign c = false.
Proof.
  intros [d Hd]. unfold strconv.digit in Hd.
  destruct ((48 <=? byteval c)%Z && (byteval c <=? 57)%Z) eqn:E; [|discriminate].
  apply andb_true_iff in E as [E1 E2].
  apply Z.leb_le in E1. apply Z.leb_le in E2.
  split; [|split].
  - apply Z.leb_gt. unfold strings.RuneSelf. lia.
  - unfold strings.asciiSpace, strings.inRange.
    destruct (byteval c <=? 13)%Z eqn:E3; [apply Z.leb_le in E3; lia|].
    destruct (byteval c =? 32)%Z eqn:E4; [apply Z.eqb_eq in E4; lia|].
    now rewrite andb_false_r.
  - unfold strconv.isSign.
    destruct (Ascii.eqb c "-") eqn:Em; [apply Ascii.eqb_eq in Em; subst; change (byteval "-") with 45%Z in E1; lia|].
    destruct (Ascii.eqb c "+") eqn:Ep; [apply Ascii.eqb_eq in Ep; subst; change (byteval "+") with 43%Z in E1; lia|].
    reflexivity.
Qed.

Lemma trimSpaceStart_spaces (k : nat) (s : gostring) :
  strings.trimSpaceStart (repeat SP k ++ s) = strings.trimSpaceStart s.
Proof. induction k as [|k IH]; [reflexivity | exact IH]. Qed.

Lemma TrimSpace_digits (s : gostring) :
  Forall isDigit s -> strings.TrimSpace s = s.
Proof.
  intros H. destruct s as [|c s']; [reflexivity|].
  unfold strings.TrimSpace. cbn [strings.trimSpaceStart].
  destruct (isDigit_ascii (Forall_inv H)) as (H1 & H2 & _). rewrite H1, H2.
  assert (Hr : Forall isDigit (rev (c :: s'))) by (now apply Forall_rev).
  destruct (rev (c :: s')) as [|c' r'] eqn:Er.
  - apply (f_equal (@length ascii)) in Er. rewrite length_rev in Er. discriminate.
  - cbn [strings.trimSpaceStop].
    destruct (isDigit_ascii (Forall_inv Hr)) as (H3 & H4 & _). rewrite H3, H4.
    now rewrite <- Er, rev_involutive.
Qed.

Lemma TrimSpace_padded (k : nat) (s : gostring) :
  Forall isDigit s -> strings.TrimSpace (repeat SP k ++ s) = s.
Proof.
  intros H. unfold strings.TrimSpace. rewrite trimSpaceStart_spaces.
  now apply TrimSpace_digits.
Qed.

Lemma fastDigits_zeros (k : nat) (s : gostring) :
  strconv.fastDigits 0 (repeat "0"%char k ++ s) = strconv.fastDigits 0 s.
Proof. induction k as [|k IH]; [reflexivity | exact IH]. Qed.

Lemma Atoi_digits (s : gostring) (v : Z) :
  Forall isDigit s -> (1 <= length s <= 18)%nat ->
  strconv.fastDigits 0 s = Some v -> strconv.Atoi s = (v, None).
Proof.
  intros Hd Hl Hv. unfold strconv.Atoi.
  destruct (0 <? length s)%nat eqn:E1; [|apply Nat.ltb_ge in E1; lia].
  destruct (length s <? 19)%nat eqn:E2; [|apply Nat.ltb_ge in E2; lia].
  cbn [andb]. destruct s as [|c s']; [simpl in Hl; lia|].
  destruct (isDigit_ascii (Forall_inv Hd)) as (_ & _ & Hs).
  rewrite Hs, Hv. unfold strconv.isSign in Hs.
  apply orb_false_iff in Hs as [Hm _]. now rewrite Hm.
Qed.

Lemma length_padLeft (c : ascii) (w : nat) (s : gostring) :
  (length s <= w)%nat -> length (padLeft c w s) = w.
Proof. intros H. unfold padLeft. rewrite length_app, repeat_length. lia. Qed.

(** ** The fixed16 header: the parser inverts the encoder *)

(** C4.  For every code in [0, 999] and every length in [0, 10^11), the
    canonical encoding has 16 bytes, a space at byte 3 and a newline at
    byte 15, and [parseFixed16Header] returns exactly the code and the
    length, with no error. *)
Theorem parseFixed16Header_encodeFixed16 (zeroPad : bool) (code len : Z) :
  (0 <= code <= 999)%Z -> (0 <= len < 10 ^ 11)%Z ->
  length (encodeFixed16 zeroPad code len) = 16%nat
  /\ nth 3 (encodeFixed16 zeroPad code len) NUL = SP
  /\ nth 15 (encodeFixed16 zeroPad code len) NUL = LF
  /\ parseFixed16Header (encodeFixed16 zeroPad code len) = (code, len, None).
Proof.
  intros Hc Hl.
  destruct (@utoa_spec code 3) as (Cd & Cl & Cv); [simpl; lia | lia |].
  destruct (@utoa_spec len 11) as (Ld & Ll & Lv); [simpl; lia | lia |].
  unfold encodeFixed16.
  set (pc := if zeroPad then "0"%char else SP).
  set (A := padLeft pc 3 (fmt.utoa code)).
  set (B := padLeft SP 11 (fmt.utoa len)).
  assert (HA : length A = 3%nat) by (apply length_padLeft; lia).
  assert (HB : length B = 11%nat) by (apply length_padLeft; lia).
  assert (Hlen : length (A ++ [SP] ++ B ++ [LF]) = 16%nat)
    by (rewrite !length_app, HA, HB; reflexivity).
  assert (H03 : substr (A ++ [SP] ++ B ++ [LF]) 0 3 = A).
  { unfold substr. change (3 - 0)%nat with 3%nat. cbn [skipn]. rewrite <- HA at 1.
    rewrite firstn_app, Nat.sub_diag, firstn_all. cbn [firstn]. apply app_nil_r. }
  assert (H415 : substr (A ++ [SP] ++ B ++ [LF]) 4 15 = B).
  { unfold substr. rewrite skipn_app, HA.
    rewrite (skipn_all2 A) by lia.
    change (4 - 3)%nat with 1%nat. change (15 - 4)%nat with (11)%nat.
    cbn [app skipn]. rewrite <- HB at 1.
    rewrite firstn_app, Nat.sub_diag, firstn_all. cbn [firstn]. apply app_nil_r. }
  assert (HAtoiA : strconv.Atoi (strings.TrimSpace A) = (code, None)).
  { subst A pc. unfold padLeft. destruct zeroPad.
    - assert (Hz : Forall isDigit (repeat "0"%char (3 - length (fmt.utoa code))
                                   ++ fmt.utoa code)).
      { apply Forall_app. split; [|exact Cd].
        apply Forall_forall. intros x Hx. apply repeat_spec in Hx. subst x.
        exists 0%Z. reflexivity. }
      rewrite (TrimSpace_digits Hz). apply Atoi_digits.
      + exact Hz.
      + rewrite length_app, repeat_length. lia.
      + now rewrite fastDigits_zeros.
    - rewrite (@TrimSpace_padded _ _ Cd). apply Atoi_digits; [exact Cd | lia | exact Cv]. }
  assert (HAtoiB : strconv.Atoi (strings.TrimSpace B) = (len, None)).
  { subst B. unfold padLeft. rewrite (@TrimSpace_padded _ _ Ld).
    apply Atoi_digits; [exact Ld | lia | exact Lv]. }
  split; [exact Hlen|]. split; [|split].
  - rewrite app_nth2 by lia. rewrite HA. reflexivity.
  - rewrite app_nth2 by lia. rewrite HA. simpl.
    rewrite app_nth2 by lia. rewrite HB. reflexivity.
  - unfold parseFixed16Header. rewrite Hlen. cbn [Nat.eqb negb].
    rewrite H03, HAtoiA, H415, HAtoiB. reflexivity.
Qed.

Lemma parseFixed16Header_encodeFixed16_witness :
  (0 <= 200 <= 999)%Z /\ (0 <= 12 < 10 ^ 11)%Z
  /\ length (encodeFixed16 true 200 12) = 16%nat
  /\ nth 3 (encodeFixed16 true 200 12) NUL = SP
  /\ nth 15 (encodeFixed16 true 200 12) NUL = LF
  /\ parseFixed16Header (encodeFixed16 true 200 12) = (200%Z, 12%Z, None).
Proof.
  split; [lia|]. split; [lia|].
  apply (@parseFixed16Header_encodeFixed16 true 200 12); lia.
Defined.

(** ** The sanitisers *)

Lemma HasPrefix_nil (s : gostring) : strings.HasPrefix s [] = true.
Proof. now destruct s. Qed.

Lemma ReplaceAll_byte (s : gostring) (c : ascii) (new : gostring) :
  strings.ReplaceAll s [c] new
  = flat_map (fun x => if Ascii.eqb x c then new else [x]) s.
Proof.
  unfold strings.ReplaceAll. induction s as [|x s IH]; [reflexivity|].
  cbn [strings.replaceFrom strings.HasPrefix flat_map length].
  rewrite HasPrefix_nil, andb_true_r, IH. destruct (Ascii.eqb x c); reflexivity.
Qed.

Lemma flat_map_flat_map (A B C : Type) (f : A -> list B) (g : B -> list C) (l : list A) :
  flat_map g (flat_map f l) = flat_map (fun x => flat_map g (f x)) l.
Proof.
  induction l as [|x l IH]; [reflexivity|].
  simpl. now rewrite flat_map_app, IH.
Qed.

Lemma safeValue_bytes (s : gostring) : safeValue s = flat_map valueByte s.
Proof.
  unfold safeValue. rewrite !ReplaceAll_byte, !flat_map_flat_map.
  apply flat_map_ext. intros x. unfold valueByte.
  destruct (Ascii.eqb x NUL); [reflexivity|]. cbn [flat_map app].
  destruct (Ascii.eqb x CR); [reflexivity|]. cbn [flat_map app orb].
  destruct (Ascii.eqb x LF); reflexivity.
Qed.

Lemma safeValue_clean (s : gostring) : clean (safeValue s).
Proof.
  rewrite safeValue_bytes.
  assert (H : forall y, In y (flat_map valueByte s) ->
                        y <> CR /\ y <> LF /\ y <> NUL).
  { intros y Hy. apply in_flat_map in Hy as (x & _ & Hy). unfold valueByte in Hy.
    destruct (Ascii.eqb x NUL) eqn:E0; [destruct Hy|].
    destruct (Ascii.eqb x CR) eqn:E1;
      [destruct Hy as [<-|[]]; repeat split; discriminate|].
    destruct (Ascii.eqb x LF) eqn:E2;
      [destruct Hy as [<-|[]]; repeat split; discriminate|].
    destruct Hy as [<-|[]].
    apply Ascii.eqb_neq in E0, E1, E2. auto. }
  repeat split; intros Hin; apply H in Hin; tauto.
Qed.

Lemma In_firstn (n : nat) (s : gostring) (c : ascii) : In c (firstn n s) -> In c s.
Proof.
  revert n; induction s as [|x s IH]; intros [|n]; simpl; auto.
  - intros [].
  - intros [H|H]; [now left | right; eauto].
Qed.

Lemma In_skipn (n : nat) (s : gostring) (c : ascii) : In c (skipn n s) -> In c s.
Proof.
  revert n; induction s as [|x s IH]; intros [|n]; simpl; auto.
  intros H. right. eauto.
Qed.

Lemma In_trimLeftSpaces (fuel : nat) (s : gostring) (c : ascii) :
  In c (strings.trimLeftSpaces fuel s) -> In c s.
Proof.
  revert s; induction fuel as [|k IH]; intros s; simpl; auto.
  destruct s as [|x s']; auto.
  destruct (strings.DecodeRune (x :: s')) as [r w].
  destruct (strings.IsSpace r); auto.
  intros H. apply IH in H. now apply In_skipn in H.
Qed.

Lemma In_TrimRightSpace (s : gostring) (c : ascii) :
  In c (strings.TrimRightSpace s) -> In c s.
Proof.
  unfold strings.TrimRightSpace.
  destruct (strings.lastNonSpace (length s) s (length s)) as [i|]; [|intros []].
  destruct (strings.RuneSelf <=? byteval (nth i s NUL))%Z; apply In_firstn.
Qed.

Lemma In_trimSpaceStop (r : gostring) (c : ascii) :
  In c (strings.trimSpaceStop r) -> In c (rev r).
Proof.
  induction r as [|x r IH]; simpl; auto.
  destruct (strings.RuneSelf <=? byteval x)%Z.
  - apply In_TrimRightSpace.
  - destruct (strings.asciiSpace x); auto.
    intros H. apply in_or_app. left. now apply IH.
Qed.

(** [TrimSpace] only removes bytes. *)
Lemma In_TrimSpace (s : gostring) (c : ascii) :
  In c (strings.TrimSpace s) -> In c s.
Proof.
  unfold strings.TrimSpace. induction s as [|x s IH]; simpl; auto.
  destruct (strings.RuneSelf <=? byteval x)%Z.
  - intros H. apply In_TrimRightSpace in H.
    apply (@In_trimLeftSpaces _ (x :: s)) in H. exact H.
  - destruct (strings.asciiSpace x).
    + intros H. right. now apply IH.
    + intros H. apply In_trimSpaceStop in H.
      rewrite rev_app_distr, rev_involutive in H. exact H.
Qed.

Lemma safeToken_bytes (s : gostring) :
  safeToken s = strings.TrimSpace (map tokenByte s).
Proof.
  unfold safeToken. f_equal. rewrite !ReplaceAll_byte, flat_map_flat_map.
  induction s as [|x s IH]; [reflexivity|].
  cbn [flat_map map]. rewrite IH. unfold tokenByte.
  destruct (Ascii.eqb x CR); [reflexivity|]. cbn [flat_map app orb].
  destruct (Ascii.eqb x LF); reflexivity.
Qed.

Lemma safeToken_noCRLF (s : gostring) : noCRLF (safeToken s).
Proof.
  rewrite safeToken_bytes.
  assert (H : forall y, In y (strings.TrimSpace (map tokenByte s)) ->
                        y <> CR /\ y <> LF).
  { intros y Hy. apply In_TrimSpace in Hy. apply in_map_iff in Hy as (x & <- & _).
    unfold tokenByte.
    destruct (Ascii.eqb x CR) eqn:E1; [split; discriminate|].
    destruct (Ascii.eqb x LF) eqn:E2; [split; discriminate|].
    apply Ascii.eqb_neq in E1, E2. auto. }
  split; intros Hin; apply H in Hin; tauto.
Qed.

Lemma noCRLF_app (a b : gostring) : noCRLF a -> noCRLF b -> noCRLF (a ++ b).
Proof.
  intros [H1 H2] [H3 H4]. split; intros H; apply in_app_or in H; tauto.
Qed.

Lemma clean_noCRLF (s : gostring) : clean s -> noCRLF s.
Proof. intros (H1 & H2 & _). now split. Qed.

Lemma clean_app (a b : gostring) : clean a -> clean b -> clean (a ++ b).
Proof.
  intros (H1 & H2 & H3) (H4 & H5 & H6).
  repeat split; intros H; apply in_app_or in H; tauto.
Qed.

Lemma noCRLFb_ok (s : gostring) : noCRLFb s = true -> noCRLF s.
Proof.
  unfold noCRLFb. intros H. apply andb_true_iff in H as [H1 H2].
  apply negb_true_iff in H1, H2.
  split; intros Hin.
  - assert (existsb (Ascii.eqb CR) s = true)
      by (apply existsb_exists; exists CR; split; [exact Hin | apply Ascii.eqb_refl]).
    congruence.
  - assert (existsb (Ascii.eqb LF) s = true)
      by (apply existsb_exists; exists LF; split; [exact Hin | apply Ascii.eqb_refl]).
    congruence.
Qed.

Lemma clean_literal (s : gostring) :
  noCRLFb s = true -> existsb (Ascii.eqb NUL) s = false -> clean s.
Proof.
  intros H1 H2. destruct (noCRLFb_ok _ H1) as [Ha Hb].
  split; [exact Ha|]. split; [exact Hb|]. intros Hin.
  assert (existsb (Ascii.eqb NUL) s = true)
    by (apply existsb_exists; exists NUL; split; [exact Hin | apply Ascii.eqb_refl]).
  congruence.
Qed.

Lemma Join_noCRLF (l : list gostring) :
  Forall noCRLF l -> noCRLF (strings.Join l [SP]).
Proof.
  induction l as [|x l IH]; intros H.
  - split; intros [].
  - destruct l as [|y l'].
    + exact (Forall_inv H).
    + rewrite Join_cons by discriminate.
      apply noCRLF_app; [exact (Forall_inv H)|].
      apply noCRLF_app; [apply noCRLFb_ok; reflexivity|].
      apply IH. exact (Forall_inv_tail H).
Qed.

(** C2, as the code has it.  [safeValue] removes every NUL byte and turns
    each CR and each LF into one space, without trimming: what it returns
    contains no CR, LF or NUL.  [safeToken] turns each CR and each LF into a
    space and trims: what it returns contains no CR or LF.  Hence the
    [Columns:] line and the [Filter:] line of each helper contain no CR or
    LF, and the value of a [WaitObject] or [WaitCondition] line leaves the
    line free of CR, LF and NUL.  [FilterEqual("host_name", "bad\r\nname")]
    renders [Filter: host_name = bad  name]. *)
Theorem sanitised_lines :
  (forall s : gostring, safeValue s = flat_map valueByte s /\ clean (safeValue s))
  /\ (forall s : gostring,
         safeToken s = strings.TrimSpace (map tokenByte s) /\ noCRLF (safeToken s))
  /\ (forall v : QueryV, Forall noCRLF (columnsLine v))
  /\ (forall column value : gostring,
         Forall (fun op => noCRLF (filterLine column op value)) helperOps)
  /\ (forall x : gostring,
         clean (str "WaitObject: " ++ safeValue x)
         /\ clean (str "WaitCondition: " ++ safeValue x))
  /\ (forall (growslice : nat -> nat -> nat) (st0 : store),
         exists q st o,
           newQuery growslice (str "services") [str "host_name"]
                    scenarioC_calls st0 = Some (q, st)
           /\ nth_error (objs st) q = Some o
           /\ vfilters (view st o) = [str "Filter: host_name = bad  name"]).
Proof.
  split; [|split; [|split; [|split; [|split]]]].
  - intros s. split; [apply safeValue_bytes | apply safeValue_clean].
  - intros s. split; [apply safeToken_bytes | apply safeToken_noCRLF].
  - intros v. unfold columnsLine. destruct (vcolumns v) as [|c cs] eqn:E; [constructor|].
    constructor; [|constructor].
    apply noCRLF_app; [apply noCRLFb_ok; reflexivity|].
    apply Join_noCRLF. rewrite <- E. apply Forall_forall.
    intros x Hx. apply in_map_iff in Hx as (y & <- & _). apply safeToken_noCRLF.
  - intros column value. unfold helperOps.
    repeat constructor;
      (apply noCRLF_app; [apply noCRLFb_ok; reflexivity|];
       apply noCRLF_app; [apply safeToken_noCRLF|];
       apply noCRLF_app; [apply noCRLFb_ok; reflexivity|];
       apply noCRLF_app; [apply noCRLFb_ok; reflexivity|];
       apply noCRLF_app; [apply noCRLFb_ok; reflexivity|];
       apply clean_noCRLF, safeValue_clean).
  - intros x. split; (apply clean_app; [apply clean_literal; reflexivity | apply safeValue_clean]).
  - intros growslice st0.
    destruct (newQuery_spec growslice (str "services") [str "host_name"]
                            scenarioC_calls st0) as (q & st & o & E & Hq & Hw & Hv).
    exists q, st, o. split; [exact E|]. split; [exact Hq|]. rewrite Hv. reflexivity.
Qed.

(** C2, as the specification has it, fails: the table is written as it is
    given, and [safeToken] keeps a NUL byte, so a line of the request can
    contain a raw LF or NUL. *)
Lemma Build_raw_LF_and_NUL :
  exists q st o st',
    newQuery (fun _ n => n) tableWithLF [columnWithNUL] [] emptyStore = Some (q, st)
    /\ nth_error (objs st) q = Some o
    /\ Build (fun _ n => n) q st
       = Some (strings.Join [str "GET " ++ tableWithLF;
                             str "Columns: " ++ columnWithNUL;
                             []] [LF], st')
    /\ In LF (str "GET " ++ tableWithLF)
    /\ In NUL (str "Columns: " ++ columnWithNUL).
Proof.
  destruct (newQuery_spec (fun _ n => n) tableWithLF [columnWithNUL] [] emptyStore)
    as (q & st & o & E & Hq & Hw & Hv).
  destruct (@Build_spec (fun _ n => n) q o st Hq Hw) as (st' & EB & _).
  exists q, st, o, st'. split; [exact E|]. split; [exact Hq|]. split.
  - rewrite EB, Hv. reflexivity.
  - split; vm_compute; tauto.
Qed.

(** * Further properties of the package *)

(** ** [StatusText] *)

(** X1.  [StatusText] never returns the empty string: it returns
    ["Unknown"] exactly for the codes that are not in the table, and the
    text of the table otherwise. *)
Theorem StatusText_never_empty :
  forall code : Z,
    StatusText code <> []
    /\ (StatusText code = str "Unknown" <-> ~ In code (map fst statusText))
    /\ (forall s, In (code, s) statusText -> StatusText code = str s).
Proof.
  intros code.
  assert (Hin : forall s, In (code, s) statusText ->
                          mapLookup code statusText = Some s).
  { intros s H. unfold statusText in *. cbn [In] in H.
    repeat (destruct H as [H|H];
            [injection H as <- <-; reflexivity|]).
    destruct H. }
  assert (Hnone : mapLookup code statusText = None ->
                  ~ In code (map fst statusText)).
  { unfold statusText. cbn [mapLookup map fst In].
    intros H Hc.
    repeat (destruct Hc as [Hc|Hc];
            [subst code; cbn in H; discriminate H|]).
    destruct Hc. }
  assert (Hsome : forall v, mapLookup code statusText = Some v ->
                            In code (map fst statusText)
                            /\ str v <> [] /\ str v <> str "Unknown").
  { unfold statusText. cbn [mapLookup map fst In]. intros v. revert v.
    intros v H.
    repeat (match type of H with
            | context [(?k =? code)%Z] =>
                revert H; destruct (k =? code)%Z eqn:E; intros H; cbv iota in H;
                [apply Z.eqb_eq in E; injection H as <-;
                 split; [tauto | split; (vm_compute; discriminate)]
                |clear E]
            end).
    discriminate H. }
  unfold StatusText.
  destruct (mapLookup code statusText) as [v|] eqn:E.
  - destruct (Hsome v eq_refl) as (H1 & H2 & H3).
    split; [exact H2|]. split; [split; [intros H; contradiction | intros H; contradiction]|].
    intros s Hs. pose proof (Hin s Hs) as E'. congruence.
  - split; [vm_compute; discriminate|].
    split; [split; [intros _; now apply Hnone | reflexivity]|].
    intros s Hs. pose proof (Hin s Hs) as E'. congruence.
Qed.

(** ** The terminator of a request *)

Lemma streq_refl (a : gostring) : streq a a = true.
Proof. now apply streq_eq. Qed.

Lemma HasSuffix_iff (s t : gostring) :
  strings.HasSuffix s t = true <-> exists p, s = p ++ t.
Proof.
  unfold strings.HasSuffix. split.
  - intros H. apply andb_true_iff in H as [H1 H2].
    apply streq_eq in H2. exists (firstn (length s - length t) s).
    rewrite <- H2. rewrite <- H2 at 2. symmetry.
    rewrite H2. apply firstn_skipn.
  - intros [p ->]. rewrite length_app. apply andb_true_iff. split.
    + apply Nat.leb_le. lia.
    + replace (length p + length t - length t)%nat with (length p) by lia.
      rewrite skipn_app, skipn_all, Nat.sub_diag. simpl. apply streq_refl.
Qed.

(** X2.  The bytes [sendQuery] writes always end with a blank line: they are
    the query followed by as many newlines (none, one or two) as it takes,
    a query that ends with a newline gets at most one more, and terminating
    twice is terminating once. *)
Theorem sendQuery_bytes_end_with_blank_line :
  forall query : gostring,
    strings.HasSuffix (sendQuery_bytes query) [LF; LF] = true
    /\ sendQuery_bytes query
       = query ++ (if strings.HasSuffix query [LF; LF] then []
                   else if strings.HasSuffix query [LF] then [LF]
                   else [LF; LF])
    /\ sendQuery_bytes (sendQuery_bytes query) = sendQuery_bytes query.
Proof.
  intros query.
  assert (Hshape : sendQuery_bytes query
       = query ++ (if strings.HasSuffix query [LF; LF] then []
                   else if strings.HasSuffix query [LF] then [LF]
                   else [LF; LF])).
  { unfold sendQuery_bytes.
    destruct (strings.HasSuffix query [LF; LF]); cbn [negb].
    - now rewrite app_nil_r.
    - destruct (strings.HasSuffix query [LF]); cbn [negb].
      + reflexivity.
      + now rewrite <- app_assoc. }
  assert (Hend : strings.HasSuffix (sendQuery_bytes query) [LF; LF] = true).
  { rewrite Hshape.
    destruct (strings.HasSuffix query [LF; LF]) eqn:E2.
    - now rewrite app_nil_r.
    - destruct (strings.HasSuffix query [LF]) eqn:E1.
      + apply HasSuffix_iff in E1 as [p ->]. apply HasSuffix_iff.
        exists p. now rewrite <- app_assoc.
      + apply HasSuffix_iff. now exists query. }
  split; [exact Hend|]. split; [exact Hshape|].
  unfold sendQuery_bytes at 1. now rewrite Hend.
Qed.

(** ** [readResponse] *)

Lemma readResponse_loop_lines (acc : gostring) (lines : list (gostring * nat))
      (evs : list readEvent) :
  Forall (fun lb => terminal (fst lb) (snd lb) = false) lines ->
  readResponse_loop acc (lineEvents lines ++ evs)
  = readResponse_loop (acc ++ concat (map fst lines)) evs.
Proof.
  revert acc; induction lines as [|[l b] lines IH]; intros acc H.
  - simpl. now rewrite app_nil_r.
  - pose proof (Forall_inv H) as H0. unfold terminal in H0. cbn [fst snd] in H0.
    cbn [lineEvents map app fst snd readResponse_loop concat]. rewrite H0.
    unfold lineEvents in IH. rewrite IH by exact (Forall_inv_tail H).
    now rewrite <- app_assoc.
Qed.

(** X3.  [readResponse] returns every byte it has read up to the end of the
    response: after lines none of which is an empty line with an empty
    buffer, it stops at the first such line and returns the lines and that
    newline, leaving what follows unread; at the end of the stream it
    returns the lines and the unterminated rest; and a read error makes it
    fail, whatever it has read. *)
Theorem readResponse_reads_to_the_blank_line :
  forall (d : LiveStatusConfig -> option error) (w : gostring -> option error)
         (lines : list (gostring * nat)) (later : list readEvent)
         (rest partial : gostring) (e : error),
    Forall (fun lb => terminal (fst lb) (snd lb) = false) lines ->
    readResponse (mkPeer d w (lineEvents lines ++ GotLine [LF] 0 :: later))
    = inl (concat (map fst lines) ++ [LF])
    /\ readResponse (mkPeer d w (lineEvents lines ++ GotEOF rest :: later))
       = inl (concat (map fst lines) ++ rest)
    /\ readResponse (mkPeer d w (lineEvents lines))
       = inl (concat (map fst lines))
    /\ readResponse (mkPeer d w (lineEvents lines ++ GotErr partial e :: later))
       = inr (Errorf "error reading response: %w" [AErr e]).
Proof.
  intros d w lines later rest partial e H. unfold readResponse. cbn [incoming].
  rewrite !(readResponse_loop_lines [] _ H). cbn [app]. split; [|split; [|split]].
  - reflexivity.
  - reflexivity.
  - rewrite <- (app_nil_r (lineEvents lines)).
    now rewrite (readResponse_loop_lines [] _ H).
  - reflexivity.
Qed.

Lemma readResponse_reads_to_the_blank_line_witness :
  Forall (fun lb => terminal (fst lb) (snd lb) = false)
         [(str "a;1" ++ [LF], 4%nat); ([LF], 3%nat); (str "b;2" ++ [LF], 1%nat)]
  /\ readResponse (mkPeer (fun _ => None) (fun _ => None)
                          (lineEvents [(str "a;1" ++ [LF], 4%nat); ([LF], 3%nat);
                                       (str "b;2" ++ [LF], 1%nat)]
                           ++ GotLine [LF] 0 :: [GotLine (str "x" ++ [LF]) 0]))
     = inl (str "a;1" ++ [LF] ++ [LF] ++ str "b;2" ++ [LF] ++ [LF]).
Proof.
  assert (H : Forall (fun lb => terminal (fst lb) (snd lb) = false)
         [(str "a;1" ++ [LF], 4%nat); ([LF], 3%nat); (str "b;2" ++ [LF], 1%nat)])
    by (repeat constructor).
  split; [exact H|].
  exact (proj1 (@readResponse_reads_to_the_blank_line
                  (fun _ => None) (fun _ => None) _
                  [GotLine (str "x" ++ [LF]) 0] [] [] (ExternalError []) H)).
Defined.

(** ** [safeValue] on clean values *)

Lemma flat_map_valueByte_clean (s : gostring) :
  clean s -> flat_map valueByte s = s.
Proof.
  induction s as [|c s IH]; intros (H1 & H2 & H3); [reflexivity|].
  cbn [flat_map]. rewrite IH.
  - unfold valueByte.
    destruct (Ascii.eqb c NUL) eqn:E0;
      [apply Ascii.eqb_eq in E0; subst; exfalso; apply H3; now left|].
    destruct (Ascii.eqb c CR) eqn:E1;
      [apply Ascii.eqb_eq in E1; subst; exfalso; apply H1; now left|].
    destruct (Ascii.eqb c LF) eqn:E2;
      [apply Ascii.eqb_eq in E2; subst; exfalso; apply H2; now left|].
    reflexivity.
  - repeat split; intros H; [apply H1 | apply H2 | apply H3]; now right.
Qed.

Lemma length_flat_map_valueByte (s : gostring) :
  (length (flat_map valueByte s) <= length s)%nat.
Proof.
  induction s as [|c s IH]; [simpl; lia|].
  cbn [flat_map]. rewrite length_app. unfold valueByte at 1.
  destruct (Ascii.eqb c NUL); [simpl; lia|].
  destruct (Ascii.eqb c CR || Ascii.eqb c LF); simpl; lia.
Qed.

(** X4.  [safeValue] changes a value only if it has to: it returns its
    argument exactly when the argument contains no CR, LF or NUL; applying
    it twice is applying it once; and it never makes a value longer. *)
Theorem safeValue_changes_only_unsafe_values :
  forall s : gostring,
    (safeValue s = s <-> clean s)
    /\ safeValue (safeValue s) = safeValue s
    /\ (length (safeValue s) <= length s)%nat.
Proof.
  intros s. split; [|split].
  - split.
    + intros H. rewrite <- H. apply safeValue_clean.
    + intros H. rewrite safeValue_bytes. now apply flat_map_valueByte_clean.
  - rewrite (safeValue_bytes (safeValue s)).
    apply flat_map_valueByte_clean, safeValue_clean.
  - rewrite safeValue_bytes. apply length_flat_map_valueByte.
Qed.

(** ** The framed transport: reading *)

Lemma ioReadFull_0 (r : list chunk) (buf : gostring) :
  ioReadFull r 0 buf = ((buf, None), r).
Proof. now destruct r. Qed.

Lemma ioReadFull_spec (r : list chunk) :
  forall (need : nat) (buf : gostring),
    exists bs,
      fst (fst (ioReadFull r need buf)) = buf ++ bs
      /\ (length bs <= need)%nat
      /\ (snd (fst (ioReadFull r need buf)) = None -> length bs = need)
      /\ bytesOf r = bs ++ bytesOf (snd (ioReadFull r need buf)).
Proof.
  induction r as [|[bs err] r IH]; intros need buf.
  - exists []. destruct need; simpl; rewrite app_nil_r; repeat split; try lia; discriminate.
  - destruct need as [|k].
    + exists []. simpl. rewrite app_nil_r. repeat split; lia.
    + cbn [ioReadFull]. destruct (length bs <=? S k)%nat eqn:E.
      * apply Nat.leb_le in E. destruct err as [e|].
        -- exists bs. cbn [fst snd]. repeat split; [lia | discriminate].
        -- destruct (IH (S k - length bs)%nat (buf ++ bs)) as (bs' & H1 & H2 & H3 & H4).
           exists (bs ++ bs'). rewrite H1, <- app_assoc. split; [reflexivity|].
           rewrite length_app. split; [lia|]. split.
           ++ intros H. specialize (H3 H). lia.
           ++ unfold bytesOf in *. cbn [map concat]. rewrite H4. now rewrite app_assoc.
      * apply Nat.leb_gt in E. exists (firstn (S k) bs). cbn [fst snd].
        split; [reflexivity|]. rewrite length_firstn. split; [lia|]. split; [lia|].
        unfold bytesOf. cbn [map concat]. rewrite app_assoc. now rewrite firstn_skipn.
Qed.

Lemma ioReadFull_data (cs : list gostring) :
  forall (later : list chunk) (n : nat) (buf : gostring),
    (n <= length (concat cs))%nat ->
    exists cs',
      ioReadFull (dataChunks cs ++ later) n buf
      = ((buf ++ firstn n (concat cs), None), dataChunks cs' ++ later)
      /\ concat cs' = skipn n (concat cs).
Proof.
  induction cs as [|c cs IH]; intros later n buf H.
  - simpl in H. assert (n = 0)%nat by lia. subst n. exists [].
    simpl. rewrite ioReadFull_0, app_nil_r. now split.
  - destruct n as [|k].
    + exists (c :: cs). rewrite ioReadFull_0. simpl. rewrite app_nil_r. now split.
    + cbn [dataChunks map app ioReadFull concat] in *.
      rewrite length_app in H.
      destruct (length c <=? S k)%nat eqn:E.
      * apply Nat.leb_le in E.
        destruct (IH later (S k - length c)%nat (buf ++ c)) as (cs' & H1 & H2); [lia|].
        exists cs'. unfold dataChunks in H1. rewrite H1. split.
        -- rewrite firstn_app, <- app_assoc. now rewrite (firstn_all2 c) by lia.
        -- rewrite H2, skipn_app. now rewrite (skipn_all2 c) by lia.
      * apply Nat.leb_gt in E. exists (skipn (S k) c :: cs). split.
        -- rewrite firstn_app. replace (S k - length c)%nat with 0%nat by lia.
           cbn [firstn]. now rewrite app_nil_r.
        -- cbn [concat]. rewrite skipn_app.
           replace (S k - length c)%nat with 0%nat by lia. reflexivity.
Qed.

Lemma ioReadFull_short (cs : list gostring) :
  forall (n : nat) (buf : gostring),
    (length (concat cs) < n)%nat ->
    ioReadFull (dataChunks cs) n buf = ((buf ++ concat cs, Some io_EOF), []).
Proof.
  induction cs as [|c cs IH]; intros n buf H.
  - destruct n; [simpl in H; lia|]. simpl. now rewrite app_nil_r.
  - cbn [concat] in H. rewrite length_app in H.
    destruct n as [|k]; [lia|].
    cbn [dataChunks map ioReadFull].
    destruct (length c <=? S k)%nat eqn:E; [|apply Nat.leb_gt in E; lia].
    unfold dataChunks in IH. rewrite IH by lia. cbn [concat]. now rewrite app_assoc.
Qed.

(** X5.  [ioReadFull] takes the bytes of the stream in order and never
    more than the buffer holds: what it has read is a prefix of what the
    reader held, of at most [len(buf)] bytes, the reader keeps the rest,
    and without an error the buffer is full.  When the reader delivers
    enough bytes without error, the result does not depend on how they
    are cut into reads: exactly the first [n] bytes, no error, the others
    left for the next read.  When the stream ends before [n] bytes, the
    result is what there was, with [io.EOF]. *)
Theorem ioReadFull_fills_the_buffer :
  (forall (r : list chunk) (need : nat) (buf : gostring),
      exists bs,
        fst (fst (ioReadFull r need buf)) = buf ++ bs
        /\ (length bs <= need)%nat
        /\ (snd (fst (ioReadFull r need buf)) = None -> length bs = need)
        /\ bytesOf r = bs ++ bytesOf (snd (ioReadFull r need buf)))
  /\ (forall (cs : list gostring) (later : list chunk) (n : nat) (buf : gostring),
         (n <= length (concat cs))%nat ->
         exists cs',
           ioReadFull (dataChunks cs ++ later) n buf
           = ((buf ++ firstn n (concat cs), None), dataChunks cs' ++ later)
           /\ concat cs' = skipn n (concat cs))
  /\ (forall (cs : list gostring) (n : nat) (buf : gostring),
         (length (concat cs) < n)%nat ->
         ioReadFull (dataChunks cs) n buf = ((buf ++ concat cs, Some io_EOF), [])).
Proof.
  split; [|split].
  - intros r. apply ioReadFull_spec.
  - intros cs. apply ioReadFull_data.
  - intros cs. apply ioReadFull_short.
Qed.

Lemma ioReadFull_fills_the_buffer_witness :
  (4 <= length (concat [str "ab"; str "c"; str "def"]))%nat
  /\ (length (concat [str "ab"; str "c"]) < 4)%nat
  /\ (exists cs',
         ioReadFull (dataChunks [str "ab"; str "c"; str "def"]
                     ++ [Chunk [] (Some io_EOF)]) 4 []
         = ((str "abcd", None), dataChunks cs' ++ [Chunk [] (Some io_EOF)])
         /\ concat cs' = str "ef")
  /\ ioReadFull (dataChunks [str "ab"; str "c"]) 4 [] = ((str "abc", Some io_EOF), []).
Proof.
  assert (H1 : (4 <= length (concat [str "ab"; str "c"; str "def"]))%nat)
    by (vm_compute; lia).
  assert (H2 : (length (concat [str "ab"; str "c"]) < 4)%nat) by (vm_compute; lia).
  split; [exact H1|]. split; [exact H2|]. split.
  - exact (proj1 (proj2 ioReadFull_fills_the_buffer)
                 [str "ab"; str "c"; str "def"] [Chunk [] (Some io_EOF)] 4%nat [] H1).
  - exact (proj2 (proj2 ioReadFull_fills_the_buffer) [str "ab"; str "c"] 4%nat [] H2).
Defined.

(** ** The framed transport: the response *)

Lemma parseFixed16Header_length (hdr : gostring) (code n : Z) :
  parseFixed16Header hdr = (code, n, None) -> length hdr = 16%nat.
Proof.
  unfold parseFixed16Header. destruct (length hdr =? 16)%nat eqn:E.
  - intros _. now apply Nat.eqb_eq.
  - simpl. discriminate.
Qed.

Lemma firstn_length_app (A : Type) (n : nat) (a b : list A) :
  length a = n -> firstn n (a ++ b) = a.
Proof.
  intros <-. rewrite firstn_app, Nat.sub_diag, firstn_all. simpl. apply app_nil_r.
Qed.

Lemma skipn_length_app (A : Type) (n : nat) (a b : list A) :
  length a = n -> skipn n (a ++ b) = b.
Proof. intros <-. rewrite skipn_app, skipn_all, Nat.sub_diag. reflexivity. Qed.

(** The header of a response read from error-free chunks. *)
Lemma read_header (hdr rest : gostring) (cs : list gostring) (later : list chunk) :
  length hdr = 16%nat -> concat cs = hdr ++ rest ->
  exists cs1,
    ioReadFull (dataChunks cs ++ later) 16 [] = ((hdr, None), dataChunks cs1 ++ later)
    /\ concat cs1 = rest.
Proof.
  intros Hl Hcs.
  destruct (@ioReadFull_data cs later 16 []) as (cs1 & E1 & C1).
  { rewrite Hcs, length_app. lia. }
  rewrite Hcs in E1, C1.
  rewrite firstn_length_app in E1 by exact Hl. rewrite skipn_length_app in C1 by exact Hl.
  now exists cs1.
Qed.

Lemma exec_receive_data (cfg : option LiveStatusConfig) (hdr body extra : gostring)
      (code : Z) (cs : list gostring) (later : list chunk) :
  parseFixed16Header hdr = (code, Z.of_nat (length body), None) ->
  (Z.of_nat (length body) <= maxBodyOf cfg)%Z ->
  concat cs = hdr ++ body ++ extra ->
  exists cs',
    exec_receive cfg (dataChunks cs ++ later)
    = ((Some (if (code =? StatusOK)%Z then mkResult code body None
              else mkResult code []
                     (Some (Errorf "livestatus status %d: %s"
                              [AInt code;
                               AStr (match strings.TrimSpace body with
                                     | [] => str "livestatus error"
                                     | _ :: _ => strings.TrimSpace body
                                     end)]))),
        None), dataChunks cs' ++ later)
    /\ concat cs' = extra.
Proof.
  intros Hp Hmax Hcs.
  pose proof (parseFixed16Header_length _ Hp) as Hl.
  destruct (@read_header hdr (body ++ extra) cs later Hl Hcs) as (cs1 & E1 & C1).
  destruct (@ioReadFull_data cs1 later (length body) []) as (cs2 & E2 & C2).
  { rewrite C1, length_app. lia. }
  rewrite C1 in E2, C2.
  rewrite firstn_length_app in E2 by reflexivity.
  rewrite skipn_length_app in C2 by reflexivity.
  exists cs2. split; [|exact C2].
  unfold exec_receive. rewrite E1, Hp.
  assert (Hg : ((Z.of_nat (length body) <? 0)%Z
                || (maxBodyOf cfg <? Z.of_nat (length body))%Z) = false).
  { apply orb_false_iff. split; apply Z.ltb_ge; lia. }
  rewrite Hg, Nat2Z.id, E2. cbn [app].
  destruct (code =? StatusOK)%Z; cbn [negb]; [reflexivity|].
  rewrite streq_nil. now destruct (strings.TrimSpace body).
Qed.

(** X6.  A response is decoded the same whatever way the network cuts it
    into reads: when the reader delivers, without error, a header that
    parses to [code] and to the length of [body], then [body], then
    [extra], the result is, for status 200, the status and exactly [body],
    with no error; for another status, the status, no data, and the error
    [livestatus status <code>: <message>], where the message is the
    trimmed body or, when that is empty, [livestatus error].  In both
    cases the function-level error is nil and the reader is left exactly
    at [extra]. *)
Theorem exec_receive_decodes_any_chunking :
  forall (cfg : option LiveStatusConfig) (hdr body extra : gostring) (code : Z)
         (cs : list gostring) (later : list chunk),
    parseFixed16Header hdr = (code, Z.of_nat (length body), None) ->
    (Z.of_nat (length body) <= maxBodyOf cfg)%Z ->
    concat cs = hdr ++ body ++ extra ->
    exists res cs',
      exec_receive cfg (dataChunks cs ++ later)
      = ((Some res, None), dataChunks cs' ++ later)
      /\ concat cs' = extra
      /\ StatusCode res = code
      /\ (code = StatusOK -> Data res = body /\ Error res = None)
      /\ (code <> StatusOK ->
          Data res = []
          /\ Error res
             = Some (Errorf "livestatus status %d: %s"
                       [AInt code;
                        AStr (match strings.TrimSpace body with
                              | [] => str "livestatus error"
                              | _ :: _ => strings.TrimSpace body
                              end)])).
Proof.
  intros cfg hdr body extra code cs later Hp Hmax Hcs.
  destruct (@exec_receive_data cfg hdr body extra code cs later Hp Hmax Hcs)
    as (cs' & E & C).
  eexists _, cs'. split; [exact E|]. split; [exact C|].
  destruct (code =? StatusOK)%Z eqn:Ec.
  - apply Z.eqb_eq in Ec. split; [reflexivity|]. split; [now split | congruence].
  - apply Z.eqb_neq in Ec. split; [reflexivity|]. split; [congruence | now split].
Qed.

Lemma exec_receive_decodes_any_chunking_witness :
  parseFixed16Header hdr_notfound_5
  = (404%Z, Z.of_nat (length (str " no! ")), None)
  /\ (Z.of_nat (length (str " no! ")) <= maxBodyOf None)%Z
  /\ concat [str "404 000"; str "00000005" ++ [LF] ++ str " n"; str "o! 200 "]
     = hdr_notfound_5 ++ str " no! " ++ str "200 "
  /\ exists res cs',
       exec_receive None
         (dataChunks [str "404 000"; str "00000005" ++ [LF] ++ str " n"; str "o! 200 "]
          ++ [])
       = ((Some res, None), dataChunks cs' ++ [])
       /\ concat cs' = str "200 "
       /\ StatusCode res = 404%Z
       /\ Data res = []
       /\ Error res
          = Some (Errorf "livestatus status %d: %s" [AInt 404; AStr (str "no!")]).
Proof.
  assert (H1 : parseFixed16Header hdr_notfound_5
               = (404%Z, Z.of_nat (length (str " no! ")), None)) by reflexivity.
  assert (H2 : (Z.of_nat (length (str " no! ")) <= maxBodyOf None)%Z)
    by (vm_compute; discriminate).
  assert (H3 : concat [str "404 000"; str "00000005" ++ [LF] ++ str " n"; str "o! 200 "]
               = hdr_notfound_5 ++ str " no! " ++ str "200 ") by reflexivity.
  split; [exact H1|]. split; [exact H2|]. split; [exact H3|].
  destruct (@exec_receive_decodes_any_chunking None hdr_notfound_5 (str " no! ")
              (str "200 ") 404%Z _ [] H1 H2 H3)
    as (res & cs' & E & C & Hc & _ & Hn).
  exists res, cs'. split; [exact E|]. split; [exact C|]. split; [exact Hc|].
  apply Hn. discriminate.
Defined.

(** X7.  A response whose announced length is negative or exceeds the cap
    is never read into memory: when the header parses to such a length
    [n], the function returns no result and the error
    [response too large: <n> bytes (cap <cap>)], after it has drained
    exactly [n] bytes (none when [n] is negative), so that the reader is
    left at the response that follows; and when the stream ends before
    [n] bytes, the error is
    [response too large (<n> bytes) and drain failed: EOF]. *)
Theorem exec_receive_drains_oversized_body :
  forall (cfg : option LiveStatusConfig) (hdr rest : gostring) (code n : Z)
         (cs : list gostring) (later : list chunk),
    parseFixed16Header hdr = (code, n, None) ->
    (n < 0 \/ maxBodyOf cfg < n)%Z ->
    concat cs = hdr ++ rest ->
    ((Z.to_nat n <= length rest)%nat ->
     exists cs',
       exec_receive cfg (dataChunks cs ++ later)
       = ((None, Some (Errorf "response too large: %d bytes (cap %d)"
                              [AInt n; AInt (maxBodyOf cfg)])),
          dataChunks cs' ++ later)
       /\ concat cs' = skipn (Z.to_nat n) rest)
    /\ ((length rest < Z.to_nat n)%nat ->
        exec_receive cfg (dataChunks cs)
        = ((None, Some (Errorf "response too large (%d bytes) and drain failed: %v"
                               [AInt n; AErr io_EOF])), [])).
Proof.
  intros cfg hdr rest code n cs later Hp Hn Hcs.
  pose proof (parseFixed16Header_length _ Hp) as Hl.
  assert (Hg : ((n <? 0)%Z || (maxBodyOf cfg <? n)%Z) = true).
  { apply orb_true_iff. destruct Hn; [left | right]; apply Z.ltb_lt; lia. }
  split.
  - intros Hlen.
    destruct (@read_header hdr rest cs later Hl Hcs) as (cs1 & E1 & C1).
    unfold exec_receive. rewrite E1, Hp, Hg.
    unfold discardN. destruct (n <=? 0)%Z eqn:E0.
    + exists cs1. split; [reflexivity|]. rewrite C1.
      apply Z.leb_le in E0. replace (Z.to_nat n) with 0%nat by lia. reflexivity.
    + destruct (@ioReadFull_data cs1 later (Z.to_nat n) []) as (cs2 & E2 & C2).
      { now rewrite C1. }
      rewrite E2. cbn [app]. rewrite C1 in *.
      rewrite length_firstn, Nat.min_l by exact Hlen. rewrite Nat.eqb_refl.
      exists cs2. now split.
  - intros Hlen.
    destruct (@read_header hdr rest cs [] Hl Hcs) as (cs1 & E1 & C1).
    rewrite !app_nil_r in E1.
    unfold exec_receive. rewrite E1, Hp, Hg.
    unfold discardN. destruct (n <=? 0)%Z eqn:E0; [apply Z.leb_le in E0; lia|].
    rewrite ioReadFull_short by (now rewrite C1). cbn [app]. rewrite C1.
    destruct (length rest =? Z.to_nat n)%nat eqn:E3; [apply Nat.eqb_eq in E3; lia|].
    reflexivity.
Qed.

Lemma exec_receive_drains_oversized_body_witness :
  parseFixed16Header hdr_ok_12 = (200%Z, 12%Z, None)
  /\ (12 < 0 \/ maxBodyOf (Some smallCapConfig) < 12)%Z
  /\ concat [str "200 0000"; str "0000012" ++ [LF] ++ str "0123456789"; str "abnext"]
     = hdr_ok_12 ++ str "0123456789abnext"
  /\ (Z.to_nat 12 <= length (str "0123456789abnext"))%nat
  /\ exists cs',
       exec_receive (Some smallCapConfig)
         (dataChunks [str "200 0000"; str "0000012" ++ [LF] ++ str "0123456789";
                      str "abnext"] ++ [])
       = ((None, Some (Errorf "response too large: %d bytes (cap %d)"
                              [AInt 12; AInt (maxBodyOf (Some smallCapConfig))])),
          dataChunks cs' ++ [])
       /\ concat cs' = skipn (Z.to_nat 12) (str "0123456789abnext").
Proof.
  assert (H1 : parseFixed16Header hdr_ok_12 = (200%Z, 12%Z, None)) by reflexivity.
  assert (H2 : (12 < 0 \/ maxBodyOf (Some smallCapConfig) < 12)%Z)
    by (right; reflexivity).
  assert (H3 : concat [str "200 0000"; str "0000012" ++ [LF] ++ str "0123456789";
                       str "abnext"]
               = hdr_ok_12 ++ str "0123456789abnext") by reflexivity.
  assert (H4 : (Z.to_nat 12 <= length (str "0123456789abnext"))%nat)
    by (vm_compute; lia).
  split; [exact H1|]. split; [exact H2|]. split; [exact H3|]. split; [exact H4|].
  exact (proj1 (@exec_receive_drains_oversized_body (Some smallCapConfig) hdr_ok_12
                  (str "0123456789abnext") 200%Z 12%Z _ [] H1 H2 H3) H4).
Defined.

Lemma exec_receive_shape (cfg : option LiveStatusConfig) (r : list chunk) :
  answer (maxBodyOf cfg) (fst (exec_receive cfg r)).
Proof.
  unfold exec_receive, answer.
  destruct (ioReadFull r 16 []) as [[hdr [e|]] r1]; [exact I|].
  destruct (parseFixed16Header hdr) as [[code n] [e|]]; [exact I|].
  destruct ((n <? 0)%Z || (maxBodyOf cfg <? n)%Z) eqn:Eg.
  - destruct (discardN r1 n) as [[e|] r2]; exact I.
  - apply orb_false_iff in Eg as [Eg1 Eg2].
    apply Z.ltb_ge in Eg1. apply Z.ltb_ge in Eg2.
    destruct (ioReadFull_spec r1 (Z.to_nat n) []) as (bs & H1 & H2 & H3 & _).
    destruct (ioReadFull r1 (Z.to_nat n) []) as [[body [e|]] r2]; [exact I|].
    cbn [fst snd app] in *. subst body. specialize (H3 eq_refl).
    destruct (code =? StatusOK)%Z eqn:Ec; cbn [negb fst].
    + left. cbn [StatusCode Data Error]. apply Z.eqb_eq in Ec.
      split; [exact Ec|]. split; [reflexivity|]. lia.
    + right. cbn [StatusCode Data Error]. apply Z.eqb_neq in Ec.
      split; [exact Ec|]. split; [reflexivity | discriminate].
Qed.

(** X8.  [execOverPersistentConn] never answers with neither a result nor an
    error, and never with both.  Whatever the reader delivers, the
    receiving half returns either an error alone or a result alone; a
    result with status 200 carries no error and at most [cap] bytes of
    data, and a result with any other status carries an error and no
    data.  The same holds for whatever the whole function returns, for
    every connection, reader, context and query. *)
Theorem exec_receive_result_or_error :
  (forall (cfg : option LiveStatusConfig) (r : list chunk),
      answer (maxBodyOf cfg) (fst (exec_receive cfg r)))
  /\ (forall (growslice : nat -> nat -> nat) (cfg : option LiveStatusConfig)
             (conn : option wconn) (reader : option (list chunk))
             (ctxErr : option error) (query : LiveStatusQuery) (st : store),
         match execOverPersistentConn growslice cfg conn reader ctxErr query st with
         | Some ((a, _), _) => answer (maxBodyOf cfg) a
         | None => True
         end).
Proof.
  split; [exact exec_receive_shape|].
  intros growslice cfg conn reader ctxErr query st.
  unfold execOverPersistentConn.
  destruct conn as [w|]; [|exact I].
  destruct reader as [r|]; [|exact I].
  unfold bind. destruct (exec_queryStr growslice query st) as [[text st']|]; [|exact I].
  destruct (writeAll w text []) as [[[[e|] sent] w']|]; [exact I| |exact I].
  destruct ctxErr as [e|]; [exact I|].
  pose proof (exec_receive_shape cfg r) as H.
  destruct (exec_receive cfg r) as [a r']. exact H.
Qed.

(** ** The framed transport: writing *)

Lemma writeAll_prefix (w : wconn) :
  forall (b sent : gostring),
    match writeAll w b sent with
    | Some ((err, sent'), _) =>
        exists k, sent' = sent ++ firstn k b /\ (err = None -> sent' = sent ++ b)
    | None => True
    end.
Proof.
  induction w as [|[n [e|]] w IH]; intros b sent.
  - destruct b; simpl; exists 0%nat; simpl; rewrite !app_nil_r;
      (split; [reflexivity | intros; try discriminate; reflexivity]).
  - destruct b as [|c b']; simpl.
    + exists 0%nat. simpl. rewrite !app_nil_r. now split.
    + exists n. split; [reflexivity | discriminate].
  - destruct b as [|c b']; [simpl; exists 0%nat; simpl; rewrite !app_nil_r; now split|].
    cbn [writeAll]. destruct (n <=? length (c :: b'))%nat eqn:E; [|exact I].
    apply Nat.leb_le in E.
    specialize (IH (skipn n (c :: b')) (sent ++ firstn n (c :: b'))).
    destruct (writeAll w (skipn n (c :: b')) (sent ++ firstn n (c :: b')))
      as [[[err sent'] w']|]; [|exact I].
    destruct IH as (k & H1 & H2). exists (n + k)%nat. split.
    + rewrite H1, <- app_assoc. f_equal.
      rewrite <- (firstn_skipn n (c :: b')) at 3.
      rewrite firstn_app, length_firstn, Nat.min_l by exact E.
      replace (n + k - n)%nat with k by lia.
      rewrite firstn_firstn. replace (Nat.min (n + k) n) with n by lia. reflexivity.
    + intros H. rewrite (H2 H), <- app_assoc. now rewrite firstn_skipn.
Qed.

Lemma writeAll_shortWrites (ns : list nat) :
  forall (later : wconn) (b sent : gostring),
    list_sum ns = length b ->
    exists w', writeAll (shortWrites ns ++ later) b sent = Some ((None, sent ++ b), w').
Proof.
  induction ns as [|n ns IH]; intros later b sent H.
  - destruct b; [|discriminate]. exists later. simpl. rewrite app_nil_r. now destruct later.
  - destruct b as [|c b'].
    + eexists. simpl. now rewrite app_nil_r.
    + cbn [shortWrites map app writeAll].
      change (list_sum (n :: ns)) with (n + list_sum ns)%nat in H.
      destruct (n <=? length (c :: b'))%nat eqn:E; [|apply Nat.leb_gt in E; lia].
      destruct (IH later (skipn n (c :: b')) (sent ++ firstn n (c :: b'))) as (w' & Hw).
      { rewrite length_skipn. lia. }
      exists w'. unfold shortWrites in Hw. rewrite Hw, <- app_assoc.
      now rewrite firstn_skipn.
Qed.

(** X9.  [writeAll] sends the bytes of the string in order and none twice:
    whatever the connection answers, what it has taken when [writeAll]
    returns is a prefix of the string, and the whole string when no error
    is returned.  A connection that takes the string in pieces, of sizes
    that add up to its length, gets all of it, and [writeAll] returns no
    error. *)
Theorem writeAll_sends_in_order :
  (forall (w : wconn) (b sent : gostring),
      match writeAll w b sent with
      | Some ((err, sent'), _) =>
          exists k, sent' = sent ++ firstn k b /\ (err = None -> sent' = sent ++ b)
      | None => True
      end)
  /\ (forall (ns : list nat) (later : wconn) (b sent : gostring),
         list_sum ns = length b ->
         exists w',
           writeAll (shortWrites ns ++ later) b sent = Some ((None, sent ++ b), w')).
Proof.
  split.
  - intros w. apply writeAll_prefix.
  - intros ns. apply writeAll_shortWrites.
Qed.

Lemma writeAll_sends_in_order_witness :
  list_sum [2; 0; 3]%nat = length (str "GET a")
  /\ exists w',
       writeAll (shortWrites [2; 0; 3]%nat ++ [(7%nat, Some errClosed)]) (str "GET a") []
       = Some ((None, [] ++ str "GET a"), w').
Proof.
  assert (H : list_sum [2; 0; 3]%nat = length (str "GET a")) by reflexivity.
  split; [exact H|].
  exact (proj2 writeAll_sends_in_order [2; 0; 3]%nat [(7%nat, Some errClosed)]
               (str "GET a") [] H).
Defined.

(** ** The request of [execOverPersistentConn] *)

Lemma sendQuery_bytes_suffix (query : gostring) :
  strings.HasSuffix (sendQuery_bytes query) [LF; LF] = true.
Proof.
  unfold sendQuery_bytes.
  destruct (strings.HasSuffix query [LF; LF]) eqn:E2; cbn [negb]; [exact E2|].
  destruct (strings.HasSuffix query [LF]) eqn:E1; cbn [negb].
  - apply HasSuffix_iff in E1 as [p ->]. apply HasSuffix_iff.
    exists p. now rewrite <- app_assoc.
  - apply HasSuffix_iff. exists query. now rewrite <- app_assoc.
Qed.

Lemma last_byte_not_LF (l : gostring) :
  l <> [] -> strings.HasSuffix l [LF] = false ->
  exists l' c, l = l' ++ [c] /\ c <> LF.
Proof.
  intros Hne Hs. destruct (exists_last Hne) as (l' & c & ->).
  exists l', c. split; [reflexivity|]. intros ->.
  assert (H : strings.HasSuffix (l' ++ [LF]) [LF] = true)
    by (apply HasSuffix_iff; now exists l').
  congruence.
Qed.

Lemma Join_last (L0 : list gostring) (l sep : gostring) :
  exists pre, strings.Join (L0 ++ [l]) sep = pre ++ l.
Proof.
  destruct L0 as [|x L0].
  - exists []. reflexivity.
  - exists (strings.Join (x :: L0) sep ++ sep).
    rewrite Join_snoc by discriminate. now rewrite <- app_assoc.
Qed.

(** A request whose last line is not empty and does not end in a newline
    gets exactly one newline more. *)
Lemma sendQuery_bytes_Build (L0 : list gostring) (l : gostring) :
  l <> [] -> strings.HasSuffix l [LF] = false ->
  sendQuery_bytes (strings.Join ((L0 ++ [l]) ++ [[]]) [LF])
  = strings.Join ((L0 ++ [l]) ++ [[]]) [LF] ++ [LF].
Proof.
  intros Hne Hs.
  destruct (last_byte_not_LF Hne Hs) as (l' & c & -> & Hc).
  destruct (Join_last L0 (l' ++ [c]) [LF]) as (pre & Hpre).
  match goal with
  | |- sendQuery_bytes ?t = _ => assert (HJ : t = (pre ++ l' ++ [c]) ++ [LF])
  end.
  { rewrite Join_snoc by (destruct L0; discriminate).
    rewrite app_nil_r. f_equal. exact Hpre. }
  rewrite HJ. unfold sendQuery_bytes.
  assert (H2 : strings.HasSuffix ((pre ++ l' ++ [c]) ++ [LF]) [LF; LF] = false).
  { destruct (strings.HasSuffix ((pre ++ l' ++ [c]) ++ [LF]) [LF; LF]) eqn:E;
      [|reflexivity].
    apply HasSuffix_iff in E as [p E].
    replace (p ++ [LF; LF]) with ((p ++ [LF]) ++ [LF]) in E
      by (now rewrite <- app_assoc).
    apply app_inj_tail in E as [E _].
    rewrite app_assoc in E. apply app_inj_tail in E as [_ E]. congruence. }
  assert (H1 : strings.HasSuffix ((pre ++ l' ++ [c]) ++ [LF]) [LF] = true)
    by (apply HasSuffix_iff; now eexists).
  rewrite H2, H1. reflexivity.
Qed.

Lemma HasSuffix_snoc (s : gostring) (c : ascii) :
  strings.HasSuffix (s ++ [c]) [LF] = Ascii.eqb c LF.
Proof.
  destruct (Ascii.eqb c LF) eqn:E.
  - apply Ascii.eqb_eq in E. subst c. apply HasSuffix_iff. now exists s.
  - destruct (strings.HasSuffix (s ++ [c]) [LF]) eqn:E2; [|reflexivity].
    apply HasSuffix_iff in E2 as [p E2]. apply app_inj_tail in E2 as [_ ->].
    now rewrite Ascii.eqb_refl in E.
Qed.

Lemma HasSuffix_app_LF (p s : gostring) :
  s <> [] -> strings.HasSuffix (p ++ s) [LF] = strings.HasSuffix s [LF].
Proof.
  intros Hne. destruct (exists_last Hne) as (s' & c & ->).
  rewrite app_assoc. now rewrite !HasSuffix_snoc.
Qed.

Lemma linesV_split (v : QueryV) (hs : list gostring) (h : gostring) :
  vheaders v = hs ++ [h] ->
  exists L0,
    linesV v
    = (L0 ++ [match voutputFormat v with
              | [] => h
              | _ :: _ => str "OutputFormat: " ++ voutputFormat v
              end]) ++ [[]].
Proof.
  intros H. unfold linesV, outputFormatLine. rewrite H.
  destruct (voutputFormat v).
  - exists (getLine v ++ columnsLine v ++ vfilters v ++ columnHeadersLine v ++ hs).
    rewrite <- !app_assoc. reflexivity.
  - exists (getLine v ++ columnsLine v ++ vfilters v ++ columnHeadersLine v
            ++ hs ++ [h]).
    rewrite <- !app_assoc. reflexivity.
Qed.

Lemma nth_sread (st : store) (s : slice) (i : nat) :
  (i < s_len s)%nat -> nth i (sread st s) [] = arrays st (s_arr s) i.
Proof.
  intros H. unfold sread.
  rewrite (nth_indep _ [] (arrays st (s_arr s) 0%nat))
    by (now rewrite length_map, length_seq).
  rewrite map_nth. now rewrite seq_nth.
Qed.

(** The request of a builder whose last header is [KeepAlive: on]. *)
Lemma request_terminator (v : QueryV) (hs : list gostring) :
  vheaders v = hs ++ [str "KeepAlive: on"] ->
  strings.HasSuffix (voutputFormat v) [LF] = false ->
  sendQuery_bytes (strings.Join (linesV v) [LF]) = strings.Join (linesV v) [LF] ++ [LF].
Proof.
  intros Hh Hf. destruct (@linesV_split v hs _ Hh) as (L0 & ->).
  apply sendQuery_bytes_Build.
  - destruct (voutputFormat v); discriminate.
  - destruct (voutputFormat v) as [|c f] eqn:Ef; [reflexivity|].
    rewrite HasSuffix_app_LF by discriminate. exact Hf.
Qed.

Section RequestProperties.

Variable growslice : nat -> nat -> nat.

Lemma exec_queryStr_spec (o : LiveStatusQuery) (st : store) :
  wf_query st o ->
  exists st',
    exec_queryStr growslice o st
    = Some (sendQuery_bytes
              (strings.Join
                 (linesV (applyAllV [CResponseHeaderFixed16; CKeepAlive true] (view st o)))
                 [LF]), st')
    /\ (forall p, (p < length (objs st))%nat ->
          nth_error (objs st') p = nth_error (objs st) p)
    /\ (forall ow, wf_query st ow -> protects o ow ->
          view st' ow = view st ow /\ wf_query st' ow).
Proof.
  intros Hw.
  set (st1 := mkStore (arrays st) (narrays st) (cells st) (objs st ++ [o])).
  set (q := length (objs st)).
  assert (Hq1 : nth_error (objs st1) q = Some o).
  { simpl. unfold q. now rewrite nth_error_app2, Nat.sub_diag by lia. }
  assert (Hw1 : wf_query st1 o) by exact Hw.
  destruct (@exec_spec growslice CResponseHeaderFixed16 q o st1 Hq1 Hw1)
    as (st2 & E2 & o2 & Hq2 & Hw2 & Hv2 & Hl2 & Ho2 & Hf2).
  destruct (@exec_spec growslice (CKeepAlive true) q o2 st2 Hq2 Hw2)
    as (st3 & E3 & o3 & Hq3 & Hw3 & Hv3 & Hl3 & Ho3 & Hf3).
  destruct (@Build_spec growslice q o3 st3 Hq3 Hw3) as (st4 & E4 & HF).
  exists st4. split; [|split].
  - unfold exec_queryStr, bind, newobj. fold st1. fold q.
    cbn [exec] in E2, E3. rewrite E2, E3, E4. unfold ret.
    rewrite Hv3, Hv2. reflexivity.
  - intros p Hp. destruct HF as (_ & Fo & _). rewrite Fo.
    rewrite (Ho3 p) by (unfold q; lia). rewrite (Ho2 p) by (unfold q; lia).
    simpl. now rewrite nth_error_app1.
  - intros ow Hww Hp.
    assert (Hww1 : wf_query st1 ow) by exact Hww.
    destruct (Hf2 ow Hww1 Hp) as (Ha & Hb & Hc).
    destruct (Hf3 ow Hb Hc) as (Ha' & Hb' & Hc').
    destruct (@frame_view st3 st4 ow HF Hb') as [Hv4 Hw4].
    split; [|exact Hw4]. rewrite Hv4, Ha', Ha. reflexivity.
Qed.

(** What [execOverPersistentConn] sends for a builder made through the API. *)
Lemma exec_queryStr_built (t : Table) (cols : list gostring) (cs : list call)
      (st0 : store) :
  exists q st o st',
    newQuery growslice t cols cs st0 = Some (q, st)
    /\ nth_error (objs st) q = Some o
    /\ exec_queryStr growslice o st
       = Some (sendQuery_bytes
                 (strings.Join
                    (linesV (applyAllV (cs ++ [CResponseHeaderFixed16; CKeepAlive true])
                                       (newV t cols))) [LF]), st')
    /\ nth_error (objs st') q = Some o
    /\ view st' o = view st o.
Proof.
  destruct (@newQuery_spec growslice t cols cs st0) as (q & st & o & E & Hq & Hw & Hv).
  destruct (exec_queryStr_spec Hw) as (st' & Ex & Hobj & Hfr).
  exists q, st, o, st'.
  split; [exact E|]. split; [exact Hq|]. split; [|split].
  - rewrite Ex, Hv. unfold applyAllV. now rewrite fold_left_app.
  - rewrite Hobj; [exact Hq|]. apply nth_error_Some. congruence.
  - apply (Hfr o Hw (wf_self_protects Hw)).
Qed.

Lemma request_built_terminator (t : Table) (cols : list gostring) (cs : list call) :
  let v := applyAllV (cs ++ [CResponseHeaderFixed16; CKeepAlive true]) (newV t cols) in
  strings.HasSuffix (voutputFormat v) [LF] = false ->
  sendQuery_bytes (strings.Join (linesV v) [LF]) = strings.Join (linesV v) [LF] ++ [LF].
Proof.
  intros v Hf.
  apply (@request_terminator v
           (vheaders (applyAllV cs (newV t cols)) ++ [str "ResponseHeader: fixed16"]));
    [|exact Hf].
  subst v. unfold applyAllV. rewrite fold_left_app. cbn. now rewrite <- app_assoc.
Qed.

(** X10.  The request [execOverPersistentConn] sends for a builder made
    through the API is the request the builder would give had the caller
    chained [ResponseHeaderFixed16().KeepAlive(true)] last, terminated by a
    blank line: the two headers come after the caller's headers, the text
    ends with two newlines, and unless the output format ends with a
    newline it is [Build]'s text of that builder followed by one newline.
    The headers are forced on a copy: the struct that was passed shows
    afterwards what it showed before. *)
Theorem exec_request_forces_headers_on_a_copy :
  forall (st0 : store) (t : Table) (cols : list gostring) (cs : list call),
    let v := applyAllV (cs ++ [CResponseHeaderFixed16; CKeepAlive true]) (newV t cols) in
    exists q st o text st',
      newQuery growslice t cols cs st0 = Some (q, st)
      /\ nth_error (objs st) q = Some o
      /\ exec_queryStr growslice o st = Some (text, st')
      /\ text = sendQuery_bytes (strings.Join (linesV v) [LF])
      /\ vheaders v
         = flat_map headerLinesOf cs
           ++ [str "ResponseHeader: fixed16"; str "KeepAlive: on"]
      /\ strings.HasSuffix text [LF; LF] = true
      /\ (strings.HasSuffix (voutputFormat v) [LF] = false ->
          text = strings.Join (linesV v) [LF] ++ [LF])
      /\ nth_error (objs st') q = Some o
      /\ view st' o = view st o.
Proof.
  intros st0 t cols cs v.
  destruct (exec_queryStr_built t cols cs st0) as (q & st & o & st' & E & Hq & Ex & Hq' & Hv).
  exists q, st, o, (sendQuery_bytes (strings.Join (linesV v) [LF])), st'.
  split; [exact E|]. split; [exact Hq|]. split; [exact Ex|]. split; [reflexivity|].
  split; [|split; [apply sendQuery_bytes_suffix|split; [|split; assumption]]].
  - subst v.
    destruct (applyAllV_lines (cs ++ [CResponseHeaderFixed16; CKeepAlive true])
                              (newV t cols)) as (_ & _ & ->).
    rewrite flat_map_app. reflexivity.
  - apply request_built_terminator.
Qed.

(** X11.  The copy [execOverPersistentConn] works on shares the arrays of
    the struct it was given, and an [append] with spare capacity writes in
    place.  So when the headers of the struct have capacity to spare, and
    another struct (the caller's builder, from which the work item was
    copied) shows more headers in the same array, the first header that
    the other struct shows beyond the length of the copy is overwritten:
    it reads [ResponseHeader: fixed16] afterwards. *)
Theorem exec_request_overwrites_spare_capacity :
  forall (st : store) (o ow : LiveStatusQuery),
    wf_query st o ->
    (s_len (headers o) < s_cap (headers o))%nat ->
    s_arr (headers ow) = s_arr (headers o) ->
    (s_len (headers o) < s_len (headers ow))%nat ->
    exists text st',
      exec_queryStr growslice o st = Some (text, st')
      /\ nth (s_len (headers o)) (vheaders (view st' ow)) []
         = str "ResponseHeader: fixed16".
Proof.
  intros st o ow Hw Hspare Harr Hlen.
  set (st1 := mkStore (arrays st) (narrays st) (cells st) (objs st ++ [o])).
  set (q := length (objs st)).
  assert (Hq1 : nth_error (objs st1) q = Some o).
  { simpl. unfold q. now rewrite nth_error_app2, Nat.sub_diag by lia. }
  assert (Hw1 : wf_query st1 o) by exact Hw.
  destruct (@exec_spec growslice CResponseHeaderFixed16 q o st1 Hq1 Hw1)
    as (st2 & E2 & o2 & Hq2 & Hw2 & Hv2 & Hl2 & Ho2 & Hf2).
  assert (Ho2' : headers o2
                 = mkSlice (s_arr (headers o)) (s_len (headers o) + 1) (s_cap (headers o))).
  { cbn [exec] in E2.
    unfold ResponseHeaderFixed16, appendField, bind, load in E2. rewrite Hq1 in E2.
    unfold sappend in E2. cbn [getf length] in E2.
    destruct (s_len (headers o) + 1 <=? s_cap (headers o))%nat eqn:El;
      [|apply Nat.leb_gt in El; lia].
    unfold assign in E2. cbn [objs] in E2. fold st1 in E2. rewrite Hq1 in E2.
    unfold ret in E2. injection E2 as <-. cbn [objs] in Hq2.
    rewrite (nth_error_upd_eq _ _ _ Hq1) in Hq2. injection Hq2 as <-. reflexivity. }
  destruct (@exec_spec growslice (CKeepAlive true) q o2 st2 Hq2 Hw2)
    as (st3 & E3 & o3 & Hq3 & Hw3 & Hv3 & Hl3 & Ho3 & Hf3).
  destruct (@Build_spec growslice q o3 st3 Hq3 Hw3) as (st4 & E4 & HF).
  destruct (Hf3 o2 Hw2 (wf_self_protects Hw2)) as (Ha & Hb & _).
  destruct (@frame_view st3 st4 o2 HF Hb) as [Hv4 _].
  eexists _, st4. split.
  - unfold exec_queryStr, bind, newobj. fold st1. fold q.
    cbn [exec] in E2, E3. rewrite E2, E3, E4. reflexivity.
  - assert (Hh : sread st4 (headers o2)
                 = sread st (headers o) ++ [str "ResponseHeader: fixed16"]).
    { change (sread st4 (headers o2)) with (vheaders (view st4 o2)).
      rewrite Hv4, Ha, Hv2. reflexivity. }
    rewrite Ho2' in Hh.
    assert (Hx : arrays st4 (s_arr (headers o)) (s_len (headers o))
                 = str "ResponseHeader: fixed16").
    { pose proof (@nth_sread st4
                    (mkSlice (s_arr (headers o)) (s_len (headers o) + 1)
                             (s_cap (headers o)))
                    (s_len (headers o))) as Hn.
      cbn [s_len s_arr] in Hn. rewrite <- Hn by lia. rewrite Hh.
      rewrite app_nth2 by (rewrite length_sread; lia).
      now rewrite length_sread, Nat.sub_diag. }
    change (vheaders (view st4 ow)) with (sread st4 (headers ow)).
    rewrite nth_sread by exact Hlen. now rewrite Harr.
Qed.

End RequestProperties.

Lemma exec_request_forces_headers_on_a_copy_witness :
  strings.HasSuffix
    (voutputFormat
       (applyAllV (scenarioA_calls ++ [CResponseHeaderFixed16; CKeepAlive true])
                  (newV (str "hosts") [str "name"; str "state"]))) [LF] = false
  /\ exists q st o st',
       newQuery doubling (str "hosts") [str "name"; str "state"] scenarioA_calls
                emptyStore = Some (q, st)
       /\ nth_error (objs st) q = Some o
       /\ exec_queryStr doubling o st
          = Some (str "GET hosts" ++ [LF] ++ str "Columns: name state" ++ [LF]
                  ++ str "Limit: 10" ++ [LF] ++ str "ResponseHeader: fixed16" ++ [LF]
                  ++ str "KeepAlive: on" ++ [LF] ++ str "OutputFormat: json" ++ [LF]
                  ++ [LF], st').
Proof.
  assert (H : strings.HasSuffix
    (voutputFormat
       (applyAllV (scenarioA_calls ++ [CResponseHeaderFixed16; CKeepAlive true])
                  (newV (str "hosts") [str "name"; str "state"]))) [LF] = false)
    by reflexivity.
  split; [exact H|].
  destruct (@exec_request_forces_headers_on_a_copy doubling emptyStore (str "hosts")
              [str "name"; str "state"] scenarioA_calls)
    as (q & st & o & text & st' & E & Hq & Ex & _ & _ & _ & Ht & _).
  exists q, st, o, st'. split; [exact E|]. split; [exact Hq|].
  rewrite Ex. rewrite (Ht H). reflexivity.
Defined.

Lemma aliasItem_wf : wf_query aliasStore aliasItem.
Proof.
  split; [|split].
  - intros []; vm_compute; split; auto; lia.
  - intros [] [] H; try congruence; vm_compute; auto.
  - vm_compute. exact I.
Qed.

Lemma exec_request_overwrites_spare_capacity_witness :
  wf_query aliasStore aliasItem
  /\ (s_len (headers aliasItem) < s_cap (headers aliasItem))%nat
  /\ s_arr (headers aliasCaller) = s_arr (headers aliasItem)
  /\ (s_len (headers aliasItem) < s_len (headers aliasCaller))%nat
  /\ vheaders (view aliasStore aliasCaller)
     = [str "Limit: 1"; str "Limit: 2"; str "Limit: 3"; str "Limit: 4"]
  /\ exists text st',
       exec_queryStr doubling aliasItem aliasStore = Some (text, st')
       /\ nth (s_len (headers aliasItem)) (vheaders (view st' aliasCaller)) []
          = str "ResponseHeader: fixed16".
Proof.
  assert (H2 : (s_len (headers aliasItem) < s_cap (headers aliasItem))%nat)
    by (vm_compute; lia).
  assert (H3 : s_arr (headers aliasCaller) = s_arr (headers aliasItem)) by reflexivity.
  assert (H4 : (s_len (headers aliasItem) < s_len (headers aliasCaller))%nat)
    by (vm_compute; lia).
  split; [exact aliasItem_wf|]. split; [exact H2|]. split; [exact H3|].
  split; [exact H4|]. split; [reflexivity|].
  exact (@exec_request_overwrites_spare_capacity doubling aliasStore aliasItem
           aliasCaller aliasItem_wf H2 H3 H4).
Defined.

(** ** Request and response together *)

Section ExchangeProperties.

Variable growslice : nat -> nat -> nat.

(** X12.  One successful exchange over the persistent connection, for a
    builder made through the API.  Suppose that the connection takes the
    request in pieces whose sizes add up to its length, without a write
    error; that the context is not cancelled between the two phases
    ([ctx.Err()] is nil); that the reader then delivers without error, in
    any chunking, a header that parses to [code] and to the length of
    [body], then [body], then [extra]; and that the length of [body] is
    within the cap ([MaxBodyBytes], or 32 MiB).  Then the function returns
    a result with status [code] (for 200: with exactly [body] and no
    error) and no function-level error; the connection has received
    exactly the request with the two forced headers and the blank line;
    the reader is left at [extra], ready for the next exchange; and the
    struct that was passed shows what it showed before. *)
Theorem execOverPersistentConn_round_trip :
  forall (st0 : store) (t : Table) (cols : list gostring) (cs : list call)
         (cfg : option LiveStatusConfig) (ns : list nat) (wlater : wconn)
         (hdr body extra : gostring) (code : Z)
         (chunks : list gostring) (later : list chunk),
    let request :=
      sendQuery_bytes
        (strings.Join
           (linesV (applyAllV (cs ++ [CResponseHeaderFixed16; CKeepAlive true])
                              (newV t cols))) [LF]) in
    list_sum ns = length request ->
    parseFixed16Header hdr = (code, Z.of_nat (length body), None) ->
    (Z.of_nat (length body) <= maxBodyOf cfg)%Z ->
    concat chunks = hdr ++ body ++ extra ->
    exists q st o res cs' st',
      newQuery growslice t cols cs st0 = Some (q, st)
      /\ nth_error (objs st) q = Some o
      /\ execOverPersistentConn growslice cfg
           (Some (shortWrites ns ++ wlater)) (Some (dataChunks chunks ++ later))
           None o st
         = Some (((Some res, None), (request, Some (dataChunks cs' ++ later))), st')
      /\ concat cs' = extra
      /\ StatusCode res = code
      /\ (code = StatusOK -> Data res = body /\ Error res = None)
      /\ view st' o = view st o.
Proof.
  intros st0 t cols cs cfg ns wlater hdr body extra code chunks later request
         Hns Hp Hmax Hcs.
  destruct (exec_queryStr_built growslice t cols cs st0)
    as (q & st & o & st' & E & Hq & Ex & Hq' & Hv).
  fold request in Ex.
  destruct (@writeAll_shortWrites ns wlater request [] Hns) as (w' & Hw).
  destruct (@exec_receive_data cfg hdr body extra code chunks later Hp Hmax Hcs)
    as (cs' & Er & C).
  eexists q, st, o, _, cs', st'.
  split; [exact E|]. split; [exact Hq|]. split; [|split; [exact C|]].
  - unfold execOverPersistentConn, bind. rewrite Ex, Hw. cbn [app]. rewrite Er.
    reflexivity.
  - destruct (code =? StatusOK)%Z eqn:Ec.
    + split; [reflexivity|]. split; [now split | exact Hv].
    + apply Z.eqb_neq in Ec. split; [reflexivity|]. split; [congruence | exact Hv].
Qed.

(** X13.  [QueryOneOffFromBuilder] on a builder made through the API is
    [QueryOneOff] on the text [Build] returns for it: the builder's lines
    joined by newlines.  When the dial succeeds, the bytes written to the
    connection are that text terminated by a blank line.  The call leaves
    the objects of the store, and what the builder shows, as they were;
    and a nil builder gives the error [query cannot be nil] without
    touching the network. *)
Theorem QueryOneOffFromBuilder_sends_the_built_request :
  forall (st0 : store) (t : Table) (cols : list gostring) (cs : list call)
         (p : peer) (config : option LiveStatusConfig),
    let text := strings.Join (linesV (applyAllV cs (newV t cols))) [LF] in
    exists q st o st',
      newQuery growslice t cols cs st0 = Some (q, st)
      /\ nth_error (objs st) q = Some o
      /\ QueryOneOffFromBuilder growslice p (Some q) config st
         = Some (QueryOneOff p text config, st')
      /\ (forall cfg, config = Some cfg -> dial p cfg = None ->
          In (AWrite (sendQuery_bytes text)) (snd (QueryOneOff p text config))
          /\ strings.HasSuffix (sendQuery_bytes text) [LF; LF] = true)
      /\ objs st' = objs st
      /\ view st' o = view st o
      /\ QueryOneOffFromBuilder growslice p None config st
         = Some ((None, Some (Errorf "query cannot be nil" [])), [], st).
Proof.
  intros st0 t cols cs p config text.
  destruct (@newQuery_spec growslice t cols cs st0) as (q & st & o & E & Hq & Hw & Hv).
  destruct (@Build_spec growslice q o st Hq Hw) as (st' & EB & HF).
  destruct (@frame_view st st' o HF Hw) as [Hv' _].
  exists q, st, o, st'.
  split; [exact E|]. split; [exact Hq|]. split; [|split; [|split; [|split]]].
  - unfold QueryOneOffFromBuilder, bind. rewrite EB, Hv. reflexivity.
  - intros cfg -> Hd. split; [|apply sendQuery_bytes_suffix].
    unfold QueryOneOff. rewrite Hd.
    destruct (write p (sendQuery_bytes text)); cbn [snd].
    + apply in_or_app. right. apply in_or_app. right. now left.
    + destruct (readResponse p); cbn [snd];
        apply in_or_app; right; apply in_or_app; right; now left.
  - apply HF.
  - exact Hv'.
  - reflexivity.
Qed.

(** X14.  The result [processOne] publishes for a work item made from a
    builder of the API is never nil and always consistent: its status is
    200 exactly when it carries no error, and it carries data only with
    status 200 -- whether [ensureConn] failed, the write failed, the
    context was cancelled, the response could not be read, the server
    answered with any status, or the actor simulates the server.  (The
    connection must not claim to have written more than it was given.)
    In the simulation the status is 500 for the table [error], 404 for
    the table [not_found] and 200 otherwise, with the data
    [Processed: ] followed by the text [Build] returns. *)
Theorem processOne_result_is_consistent :
  forall (st0 : store) (t : Table) (cols : list gostring) (cs : list call) (id : Z)
         (config : option LiveStatusConfig) (ensured : error + (wconn * list chunk))
         (ctxErr : option error),
    let request :=
      sendQuery_bytes
        (strings.Join
           (linesV (applyAllV (cs ++ [CResponseHeaderFixed16; CKeepAlive true])
                              (newV t cols))) [LF]) in
    (forall conn reader, ensured = inr (conn, reader) ->
                         writeAll conn request [] <> None) ->
    exists q st w st1 res st2,
      newQuery growslice t cols cs st0 = Some (q, st)
      /\ NewWorkItemFromQuery id q st = Some (w, st1)
      /\ processOne_result growslice config ensured ctxErr w st1 = Some (res, st2)
      /\ consistent res
      /\ (config = None ->
          res = if streq t (str "error") then
                  mkResult 500 [] (Some (Errorf "simulated error" []))
                else if streq t (str "not_found") then
                  mkResult 404 [] (Some (Errorf "not found" []))
                else
                  mkResult 200
                    (str "Processed: "
                     ++ strings.Join (linesV (applyAllV cs (newV t cols))) [LF]) None).
Proof.
  intros st0 t cols cs id config ensured ctxErr request Hw.
  destruct (@newQuery_spec growslice t cols cs st0) as (q & st & o & E & Hq & Hwf & Hv).
  set (st1 := mkStore (arrays st) (narrays st) (cells st) (objs st ++ [o])).
  set (w := mkWorkItem id (length (objs st))).
  assert (EW : NewWorkItemFromQuery id q st = Some (w, st1)).
  { unfold NewWorkItemFromQuery, bind, load, newobj, ret. now rewrite Hq. }
  assert (Hq1 : nth_error (objs st1) (Query w) = Some o).
  { simpl. now rewrite nth_error_app2, Nat.sub_diag by lia. }
  assert (Hwf1 : wf_query st1 o) by exact Hwf.
  assert (Hv1 : view st1 o = applyAllV cs (newV t cols)) by exact Hv.
  assert (Ht : table o = t).
  { change (table o) with (vtable (view st1 o)). rewrite Hv1.
    now destruct (applyAllV_lines cs (newV t cols)) as (-> & _). }
  assert (Hcons500 : forall e, consistent (mkResult 500 [] (Some e))).
  { intros e. split; [split; [discriminate | vm_compute; discriminate] | reflexivity]. }
  destruct config as [cfg|].
  - (* a configuration: the query goes to the server *)
    destruct ensured as [err|[conn reader]].
    + exists q, st, w, st1, (mkResult 500 [] (Some err)), st1.
      split; [exact E|]. split; [exact EW|]. split; [reflexivity|].
      split; [apply Hcons500 | discriminate].
    + destruct (@exec_queryStr_spec growslice o st1 Hwf1) as (st2 & Ex & _ & _).
      assert (Hreq : sendQuery_bytes
                       (strings.Join
                          (linesV (applyAllV [CResponseHeaderFixed16; CKeepAlive true]
                                             (view st1 o))) [LF]) = request).
      { subst request. rewrite Hv1. unfold applyAllV. now rewrite fold_left_app. }
      rewrite Hreq in Ex.
      specialize (Hw conn reader eq_refl).
      assert (Hgoal : exists res,
                 processOne_result growslice (Some cfg) (inr (conn, reader)) ctxErr w st1
                 = Some (res, st2) /\ consistent res).
      { unfold processOne_result, bind, load. rewrite Hq1.
        unfold execOverPersistentConn, bind. rewrite Ex.
        destruct (writeAll conn request []) as [[[[e|] sent] w']|]; [| |congruence].
        - cbn [fst]. eexists. split; [reflexivity | apply Hcons500].
        - destruct ctxErr as [e|].
          + cbn [fst]. eexists. split; [reflexivity | apply Hcons500].
          + pose proof (exec_receive_shape (Some cfg) reader) as Hs. unfold answer in Hs.
            destruct (exec_receive (Some cfg) reader) as [[[res|] [e|]] r'];
              cbn [fst] in *; try contradiction.
            * eexists. split; [reflexivity|].
              destruct Hs as [(H1 & H2 & _)|(H1 & H2 & H3)]; split.
              -- split; intros _; assumption.
              -- intros H. contradiction.
              -- split; intros H; contradiction.
              -- intros _. exact H2.
            * eexists. split; [reflexivity | apply Hcons500]. }
      destruct Hgoal as (res & Hp & Hc).
      exists q, st, w, st1, res, st2.
      split; [exact E|]. split; [exact EW|]. split; [exact Hp|].
      split; [exact Hc | discriminate].
  - (* no configuration: the simulation *)
    destruct (@Build_spec growslice (Query w) o st1 Hq1 Hwf1) as (st2 & EB & _).
    rewrite Hv1 in EB.
    assert (Hgoal : exists res st2',
               processOne_result growslice None ensured ctxErr w st1 = Some (res, st2')
               /\ res = (if streq t (str "error") then
                           mkResult 500 [] (Some (Errorf "simulated error" []))
                         else if streq t (str "not_found") then
                           mkResult 404 [] (Some (Errorf "not found" []))
                         else
                           mkResult 200
                             (str "Processed: "
                              ++ strings.Join (linesV (applyAllV cs (newV t cols))) [LF])
                             None)).
    { unfold processOne_result, bind, load. rewrite Hq1, Ht.
      destruct (streq t (str "error")); [now eexists _, _|].
      destruct (streq t (str "not_found")); [now eexists _, _|].
      rewrite EB. now eexists _, _. }
    destruct Hgoal as (res & st2' & Hp & Hres).
    exists q, st, w, st1, res, st2'.
    split; [exact E|]. split; [exact EW|]. split; [exact Hp|]. split; [|intros _; exact Hres].
    rewrite Hres.
    destruct (streq t (str "error")); [apply Hcons500|].
    destruct (streq t (str "not_found")).
    + split; [split; [discriminate | vm_compute; discriminate] | reflexivity].
    + split; [split; reflexivity | intros H; now contradiction H].
Qed.

End ExchangeProperties.

Lemma execOverPersistentConn_round_trip_witness :
  list_sum [40; 0; 58]%nat
  = length (sendQuery_bytes
              (strings.Join
                 (linesV (applyAllV (scenarioA_calls
                                     ++ [CResponseHeaderFixed16; CKeepAlive true])
                                    (newV (str "hosts") [str "name"; str "state"])))
                 [LF]))
  /\ parseFixed16Header hdr_ok_12
     = (200%Z, Z.of_nat (length (str "[[1,2],[3]]" ++ [LF])), None)
  /\ (Z.of_nat (length (str "[[1,2],[3]]" ++ [LF])) <= maxBodyOf None)%Z
  /\ concat [str "200 "; str "00000000012" ++ [LF] ++ str "[[1,2]"; str ",[3]]" ++ [LF]]
     = hdr_ok_12 ++ (str "[[1,2],[3]]" ++ [LF]) ++ []
  /\ exists q st o res cs' st',
       newQuery doubling (str "hosts") [str "name"; str "state"] scenarioA_calls
                emptyStore = Some (q, st)
       /\ nth_error (objs st) q = Some o
       /\ execOverPersistentConn doubling None
            (Some (shortWrites [40; 0; 58]%nat ++ []))
            (Some (dataChunks [str "200 "; str "00000000012" ++ [LF] ++ str "[[1,2]";
                               str ",[3]]" ++ [LF]] ++ []))
            None o st
          = Some (((Some res, None),
                   (str "GET hosts" ++ [LF] ++ str "Columns: name state" ++ [LF]
                    ++ str "Limit: 10" ++ [LF] ++ str "ResponseHeader: fixed16" ++ [LF]
                    ++ str "KeepAlive: on" ++ [LF] ++ str "OutputFormat: json" ++ [LF]
                    ++ [LF],
                    Some (dataChunks cs' ++ []))), st')
       /\ concat cs' = []
       /\ StatusCode res = 200%Z
       /\ Data res = str "[[1,2],[3]]" ++ [LF]
       /\ Error res = None.
Proof.
  assert (H1 : list_sum [40; 0; 58]%nat
    = length (sendQuery_bytes
                (strings.Join
                   (linesV (applyAllV (scenarioA_calls
                                       ++ [CResponseHeaderFixed16; CKeepAlive true])
                                      (newV (str "hosts") [str "name"; str "state"])))
                   [LF]))) by reflexivity.
  assert (H2 : parseFixed16Header hdr_ok_12
               = (200%Z, Z.of_nat (length (str "[[1,2],[3]]" ++ [LF])), None))
    by reflexivity.
  assert (H3 : (Z.of_nat (length (str "[[1,2],[3]]" ++ [LF])) <= maxBodyOf None)%Z)
    by (vm_compute; discriminate).
  assert (H4 : concat [str "200 "; str "00000000012" ++ [LF] ++ str "[[1,2]";
                       str ",[3]]" ++ [LF]]
               = hdr_ok_12 ++ (str "[[1,2],[3]]" ++ [LF]) ++ []) by reflexivity.
  split; [exact H1|]. split; [exact H2|]. split; [exact H3|]. split; [exact H4|].
  destruct (@execOverPersistentConn_round_trip doubling emptyStore (str "hosts")
              [str "name"; str "state"] scenarioA_calls None [40; 0; 58]%nat []
              hdr_ok_12 (str "[[1,2],[3]]" ++ [LF]) [] 200%Z _ [] H1 H2 H3 H4)
    as (q & st & o & res & cs' & st' & E & Hq & Ex & C & Hc & Hd & _).
  exists q, st, o, res, cs', st'.
  split; [exact E|]. split; [exact Hq|]. split; [exact Ex|]. split; [exact C|].
  split; [exact Hc|]. exact (Hd eq_refl).
Defined.

Lemma QueryOneOffFromBuilder_sends_the_built_request_witness :
  dial (mkPeer (fun _ => None) (fun _ => None) [GotLine [LF] 0]) smallCapConfig = None
  /\ exists q st st',
       newQuery doubling (str "hosts") [str "name"; str "state"] scenarioA_calls
                emptyStore = Some (q, st)
       /\ QueryOneOffFromBuilder doubling
            (mkPeer (fun _ => None) (fun _ => None) [GotLine [LF] 0])
            (Some q) (Some smallCapConfig) st
          = Some (QueryOneOff (mkPeer (fun _ => None) (fun _ => None) [GotLine [LF] 0])
                              scenarioA_text (Some smallCapConfig), st')
       /\ In (AWrite (scenarioA_text ++ [LF]))
             (snd (QueryOneOff (mkPeer (fun _ => None) (fun _ => None) [GotLine [LF] 0])
                               scenarioA_text (Some smallCapConfig))).
Proof.
  split; [reflexivity|].
  destruct (@QueryOneOffFromBuilder_sends_the_built_request doubling emptyStore
              (str "hosts") [str "name"; str "state"] scenarioA_calls
              (mkPeer (fun _ => None) (fun _ => None) [GotLine [LF] 0])
              (Some smallCapConfig))
    as (q & st & o & st' & E & _ & Ex & Hw & _).
  exists q, st, st'. split; [exact E|]. split; [exact Ex|].
  exact (proj1 (Hw smallCapConfig eq_refl eq_refl)).
Defined.

Lemma processOne_result_is_consistent_witness :
  (forall conn reader,
      @inr error (wconn * list chunk) (failingConn, dataChunks [hdr_ok_12])
      = inr (conn, reader) ->
      writeAll conn
        (sendQuery_bytes
           (strings.Join
              (linesV (applyAllV (scenarioA_calls
                                  ++ [CResponseHeaderFixed16; CKeepAlive true])
                                 (newV (str "hosts") [str "name"; str "state"])))
              [LF])) [] <> None)
  /\ exists q st w st1 res st2,
       newQuery doubling (str "hosts") [str "name"; str "state"] scenarioA_calls
                emptyStore = Some (q, st)
       /\ NewWorkItemFromQuery 7 q st = Some (w, st1)
       /\ processOne_result doubling (Some smallCapConfig)
            (inr (failingConn, dataChunks [hdr_ok_12])) None w st1 = Some (res, st2)
       /\ consistent res.
Proof.
  assert (H : forall conn reader,
      @inr error (wconn * list chunk) (failingConn, dataChunks [hdr_ok_12])
      = inr (conn, reader) ->
      writeAll conn
        (sendQuery_bytes
           (strings.Join
              (linesV (applyAllV (scenarioA_calls
                                  ++ [CResponseHeaderFixed16; CKeepAlive true])
                                 (newV (str "hosts") [str "name"; str "state"])))
              [LF])) [] <> None).
  { intros conn reader E. injection E as <- <-. vm_compute. discriminate. }
  split; [exact H|].
  destruct (@processOne_result_is_consistent doubling emptyStore (str "hosts")
              [str "name"; str "state"] scenarioA_calls 7%Z (Some smallCapConfig)
              (inr (failingConn, dataChunks [hdr_ok_12])) None H)
    as (q & st & w & st1 & res & st2 & E & EW & Ep & Hc & _).
  exists q, st, w, st1, res, st2. repeat split; assumption || apply Hc.
Defined.

(** ** Request identifiers *)

Lemma length_requestIDs (n : nat) (c : Z) : length (requestIDs n c) = n.
Proof. revert c; induction n as [|n IH]; intros c; simpl; [reflexivity | now rewrite IH]. Qed.

Lemma nth_requestIDs (n : nat) :
  forall (c : Z) (i : nat),
    (i < n)%nat ->
    nth i (requestIDs n c) 0%Z = ((c + 1 + Z.of_nat i) mod 2 ^ 64)%Z.
Proof.
  induction n as [|n IH]; intros c i Hi; [lia|].
  cbn [requestIDs nextRequestID]. destruct i as [|j].
  - cbn [nth]. now rewrite Z.add_0_r.
  - cbn [nth]. rewrite IH by lia.
    rewrite <- Z.add_assoc, Zplus_mod_idemp_l. f_equal. lia.
Qed.

Lemma mod_2_64_inj (a b : Z) :
  (a mod 2 ^ 64 = b mod 2 ^ 64)%Z -> (- 2 ^ 64 < a - b < 2 ^ 64)%Z -> a = b.
Proof.
  intros H Hr.
  assert (H0 : ((a - b) mod 2 ^ 64 = 0)%Z)
    by (rewrite Zminus_mod, H, Z.sub_diag; reflexivity).
  apply Z.mod_divide in H0; [|discriminate]. destruct H0 as [k Hk].
  change (2 ^ 64)%Z with 18446744073709551616%Z in *. lia.
Qed.

(** X15.  [nextRequestID] does not repeat itself before the counter has
    gone round: any [n <= 2^64] successive calls, from any value of the
    counter, return pairwise distinct identifiers.  Each identifier is
    the previous one plus one, except that the call that follows
    [2^64 - 1] returns 0 (the value [SendQuery] also returns with an
    error). *)
Theorem nextRequestID_distinct :
  (forall (n : nat) (seed : Z),
      (Z.of_nat n <= 2 ^ 64)%Z -> NoDup (requestIDs n seed))
  /\ (forall c : Z, (0 <= c < 2 ^ 64 - 1)%Z -> nextRequestID c = ((c + 1)%Z, (c + 1)%Z))
  /\ nextRequestID (2 ^ 64 - 1) = (0%Z, 0%Z).
Proof.
  split; [|split].
  - intros n seed Hn. apply (NoDup_nth _ 0%Z). intros i j Hi Hj H.
    rewrite length_requestIDs in Hi, Hj.
    rewrite !nth_requestIDs in H by assumption.
    apply mod_2_64_inj in H; lia.
  - intros c Hc. unfold nextRequestID. cbv zeta. now rewrite Z.mod_small by lia.
  - reflexivity.
Qed.

Lemma nextRequestID_distinct_witness :
  (Z.of_nat 3 <= 2 ^ 64)%Z
  /\ requestIDs 3 (2 ^ 64 - 2) = [(2 ^ 64 - 1)%Z; 0%Z; 1%Z]
  /\ NoDup (requestIDs 3 (2 ^ 64 - 2)).
Proof.
  assert (H : (Z.of_nat 3 <= 2 ^ 64)%Z) by (vm_compute; discriminate).
  split; [exact H|]. split; [reflexivity|].
  exact (proj1 nextRequestID_distinct 3%nat (2 ^ 64 - 2)%Z H).
Defined.

(** ** The names of the connectivity states *)

Lemma utoa_digits (n : Z) :
  (0 <= n)%Z ->
  Forall isDigit (fmt.utoa n) /\ fmt.utoa n <> []
  /\ strconv.fastDigits 0 (fmt.utoa n) = Some n.
Proof.
  intros Hn.
  destruct (@utoa_spec n (S (Z.to_nat (Z.log2 n)))) as (H1 & H2 & H3).
  - split; [exact Hn | now apply utoa_fuel].
  - lia.
  - split; [exact H1|]. split; [|exact H3].
    intros E. rewrite E in H2. simpl in H2. lia.
Qed.

(** The verb [%d] prints different integers differently. *)
Lemma fmt_d_inj (a b : Z) : fmt.d a = fmt.d b -> a = b.
Proof.
  unfold fmt.d. intros H.
  assert (Hminus : forall n, (0 <= n)%Z -> forall s, fmt.utoa n = "-"%char :: s -> False).
  { intros n Hn s E. destruct (utoa_digits Hn) as (Hd & _ & _).
    rewrite E in Hd. apply Forall_inv in Hd. destruct Hd as [d Hd].
    vm_compute in Hd. discriminate. }
  destruct (a <? 0)%Z eqn:Ea, (b <? 0)%Z eqn:Eb.
  - apply Z.ltb_lt in Ea. apply Z.ltb_lt in Eb. injection H as H.
    destruct (@utoa_digits (- a)) as (_ & _ & Ha); [lia|].
    destruct (@utoa_digits (- b)) as (_ & _ & Hb); [lia|].
    rewrite H in Ha. rewrite Ha in Hb. injection Hb as Hb. lia.
  - apply Z.ltb_ge in Eb. exfalso. symmetry in H. exact (Hminus b Eb _ H).
  - apply Z.ltb_ge in Ea. exfalso. exact (Hminus a Ea _ H).
  - apply Z.ltb_ge in Ea. apply Z.ltb_ge in Eb.
    destruct (@utoa_digits a Ea) as (_ & _ & Ha).
    destruct (@utoa_digits b Eb) as (_ & _ & Hb).
    rewrite H in Ha. rewrite Ha in Hb. now injection Hb.
Qed.

(** X16.  [String] gives different states different names, also the states
    without a name of their own: two values of [ConnectivityState] print
    alike only if they are equal.  In particular no numbered name
    [unknown_state_<n>] is taken twice. *)
Theorem ConnectivityState_String_injective :
  forall s1 s2 : ConnectivityState,
    s1 <> s2 -> ConnectivityState_String s1 <> ConnectivityState_String s2.
Proof.
  intros s1 s2 Hne H. apply Hne. revert H.
  unfold ConnectivityState_String.
  unfold StateConnected, StateDisconnected, StateRetrying, StateShutdown.
  destruct (s1 =? 1)%Z eqn:A1; [apply Z.eqb_eq in A1|];
  [|destruct (s1 =? 2)%Z eqn:A2; [apply Z.eqb_eq in A2|];
   [|destruct (s1 =? 3)%Z eqn:A3; [apply Z.eqb_eq in A3|];
    [|destruct (s1 =? 4)%Z eqn:A4; [apply Z.eqb_eq in A4|]]]];
  (destruct (s2 =? 1)%Z eqn:B1; [apply Z.eqb_eq in B1|];
   [|destruct (s2 =? 2)%Z eqn:B2; [apply Z.eqb_eq in B2|];
    [|destruct (s2 =? 3)%Z eqn:B3; [apply Z.eqb_eq in B3|];
     [|destruct (s2 =? 4)%Z eqn:B4; [apply Z.eqb_eq in B4|]]]]);
  intros H; try congruence; try (exfalso; cbn in H; discriminate H).
  apply app_inv_head in H. now apply fmt_d_inj.
Qed.

Lemma ConnectivityState_String_injective_witness :
  StateUnknown <> (-7)%Z
  /\ ConnectivityState_String StateUnknown <> ConnectivityState_String (-7)%Z.
Proof.
  assert (H : StateUnknown <> (-7)%Z) by discriminate.
  split; [exact H|].
  exact (@ConnectivityState_String_injective StateUnknown (-7)%Z H).
Defined.

(** ** The connectivity of the actor *)

Section ActorProperties.

Variables Time C R : Type.

Lemma retryingThenClosed_app (evs tl : list (ConnectivityEvent Time)) :
  retryingThenClosed evs ->
  last (map (@State Time) evs) StateUnknown <> StateRetrying ->
  retryingThenClosed tl ->
  retryingThenClosed (evs ++ tl).
Proof.
  induction evs as [|x evs IH]; intros H Hl Ht; [exact Ht|].
  destruct H as [Hx Hr]. cbn [app retryingThenClosed]. split.
  - intros Hs. destruct evs as [|y evs'].
    + exfalso. apply Hl. exact Hs.
    + exact (Hx Hs).
  - apply IH; [exact Hr | | exact Ht].
    destruct evs as [|y evs']; [discriminate | exact Hl].
Qed.

Lemma last_map_State_snoc (evs : list (ConnectivityEvent Time))
      (e : ConnectivityEvent Time) (d : ConnectivityState) :
  last (map (@State Time) (evs ++ [e])) d = State e.
Proof. rewrite map_app. apply last_last. Qed.

Lemma actorInv_step (o : actorOp Time C R) (a : actorState Time C R) :
  actorInv a -> actorInv (runOp o a).
Proof.
  intros (H1 & H2 & H3 & H4 & H5 & H6 & H7).
  assert (Hlast : last (map (@State Time) (emitted a)) StateUnknown <> StateRetrying).
  { rewrite <- H4. destruct H5 as [-> | [-> | ->]]; discriminate. }
  assert (Hclose : forall now (b : actorState Time C R),
             emitted b = emitted a \/
             (exists e, emitted b = emitted a ++ [e]
                        /\ (State e = StateRetrying \/ State e = StateConnected)) \/
             (exists e e', emitted b = (emitted a ++ [e]) ++ [e']
                        /\ State e = StateConnected /\ State e' = StateRetrying) ->
             actorInv (closeConn now b)).
  { intros now b Hb. unfold closeConn, emit, actorInv.
    cbn [connState activeSince conn reader emitted State Reason siteName config].
    split; [split; [discriminate | congruence]|].
    split; [congruence|]. split; [tauto|].
    split; [now rewrite last_map_State_snoc|].
    split; [right; right; reflexivity|].
    assert (Hclosed : forall t : Time,
               Forall (fun e => State e = StateConnected \/ State e = StateDisconnected
                                \/ State e = StateRetrying)
                      [mkEvent (siteName b) StateDisconnected t (str "closed") 0 0 None])
      by (intros t; constructor; [right; left; reflexivity | constructor]).
    destruct Hb as [Hb | [(e & Hb & He) | (e & e' & Hb & He & He')]]; rewrite Hb.
    - split.
      + apply retryingThenClosed_app; [exact H6 | exact Hlast |].
        simpl. split; [discriminate | exact I].
      + apply Forall_app. split; [exact H7 | apply Hclosed].
    - split.
      + rewrite <- app_assoc. apply retryingThenClosed_app; [exact H6 | exact Hlast |].
        cbn. split; [intros _; now split|]. split; [discriminate | exact I].
      + apply Forall_app. split; [apply Forall_app; split; [exact H7|] | apply Hclosed].
        constructor; [|constructor]. destruct He as [He|He]; [right; right | left]; exact He.
    - split.
      + rewrite <- !app_assoc. apply retryingThenClosed_app; [exact H6 | exact Hlast |].
        cbn. split; [rewrite He; discriminate|].
        split; [intros _; now split|]. split; [discriminate | exact I].
      + apply Forall_app. split; [|apply Hclosed].
        apply Forall_app. split; [apply Forall_app; split; [exact H7|]|].
        * constructor; [left; exact He | constructor].
        * constructor; [right; right; exact He' | constructor]. }
  destruct o as [pending ensured probe now1 now2 now3 | ensured | now]; cbn [runOp].
  - unfold runHealthCheck.
    destruct (0 <? pending)%nat; [repeat split; tauto || assumption|].
    destruct (config a) as [cfg|] eqn:Ecfg; [|repeat split; tauto || assumption].
    destruct ensured as [err|[c r]].
    + apply Hclose. right; left. eexists. split; [reflexivity | now left].
    + destruct (conn a) as [c0|] eqn:Ec.
      * (* an existing connection *)
        destruct probe as [err|].
        -- apply Hclose. right; left. eexists. split; [reflexivity | now left].
        -- unfold actorInv. cbn [connState activeSince conn reader emitted].
           split; [exact H1|]. split; [discriminate|].
           split; [split; discriminate|]. repeat split; assumption.
      * (* no connection before *)
        destruct probe as [err|].
        -- apply Hclose. right; right. eexists _, _. split; [reflexivity|].
           now split.
        -- unfold actorInv, emit. cbn [connState activeSince conn reader emitted State].
           split; [split; [discriminate | reflexivity]|].
           split; [discriminate|]. split; [split; discriminate|].
           split; [now rewrite last_map_State_snoc|].
           split; [right; left; reflexivity|]. split.
           ++ apply retryingThenClosed_app; [exact H6 | exact Hlast |].
              simpl. split; [discriminate | exact I].
           ++ apply Forall_app. split; [exact H7|].
              constructor; [left; reflexivity | constructor].
  - unfold processOne_conn.
    destruct (config a) as [cfg|]; [|repeat split; tauto || assumption].
    destruct ensured as [err|[c r]]; [repeat split; tauto || assumption|].
    unfold actorInv. cbn [connState activeSince conn reader emitted].
    split; [exact H1|]. split; [discriminate|].
    split; [split; discriminate|]. repeat split; assumption.
  - apply Hclose. now left.
Qed.

(** X17.  The connectivity state of the actor, after any sequence of
    health checks, work items and calls of [closeConn] on a new actor: the
    state is [Connected] exactly when [activeSince] is set, and then there
    is a connection; the connection and the reader are nil together; the
    events the actor emits carry the states [Connected], [Disconnected]
    and [Retrying] only (never [Shutdown], and never a state that the
    conversion to [int32] would change), so that the stored state is the
    state of the last event emitted ([Unknown] before the first); between
    two operations the state is [Unknown], [Connected] or [Disconnected],
    never [Retrying]: every [Retrying] event is followed at once by the
    event [Disconnected] with the reason [closed].  The converse of the
    second fact fails: a connection that [processOne] has established is
    not reported, even by a successful health check afterwards. *)
Theorem actor_connectivity_invariant :
  (forall (site : gostring) (cfg : option LiveStatusConfig)
          (os : list (actorOp Time C R)),
      let a := runOps os (newActor Time C R site cfg) in
      (connState a = StateConnected <-> activeSince a <> None)
      /\ (activeSince a <> None -> conn a <> None)
      /\ (conn a = None <-> reader a = None)
      /\ connState a = last (map (@State Time) (emitted a)) StateUnknown
      /\ (connState a = StateUnknown \/ connState a = StateConnected
          \/ connState a = StateDisconnected)
      /\ retryingThenClosed (emitted a)
      /\ Forall (fun e => State e = StateConnected \/ State e = StateDisconnected
                          \/ State e = StateRetrying) (emitted a))
  /\ (forall (site : gostring) (cfg : LiveStatusConfig) (c c' : C) (r r' : R)
             (now1 now2 now3 : Time),
         let a := runOps [@OpProcessOne Time C R (inr (c, r));
                          @OpHealthCheck Time C R 0 (inr (c', r')) None now1 now2 now3]
                         (newActor Time C R site (Some cfg)) in
         conn a = Some c' /\ connState a = StateUnknown /\ emitted a = []).
Proof.
  split.
  - intros site cfg os. cbv zeta. change (actorInv (runOps os (newActor Time C R site cfg))).
    unfold runOps.
    assert (H0 : actorInv (newActor Time C R site cfg)).
    { unfold actorInv, newActor. simpl.
      split; [split; [discriminate | congruence]|].
      split; [congruence|]. split; [tauto|]. split; [reflexivity|].
      split; [now left|]. split; [exact I | constructor]. }
    revert H0. generalize (newActor Time C R site cfg).
    induction os as [|o os IH]; intros a Ha; [exact Ha|].
    cbn [fold_left]. apply IH. now apply actorInv_step.
  - intros. repeat split.
Qed.

End ActorProperties.

(** ** The range of the fixed16 header *)
Lemma length_trimLeftSpaces (fuel : nat) (s : gostring) :
  (length (strings.trimLeftSpaces fuel s) <= length s)%nat.
Proof.
  revert s; induction fuel as [|k IH]; intros s; [simpl; lia|].
  destruct s as [|c s']; [simpl; lia|].
  cbn [strings.trimLeftSpaces].
  destruct (strings.DecodeRune (c :: s')) as [r w].
  destruct (strings.IsSpace r); [|lia].
  etransitivity; [apply IH|]. rewrite length_skipn. lia.
Qed.

Lemma length_TrimRightSpace (s : gostring) :
  (length (strings.TrimRightSpace s) <= length s)%nat.
Proof.
  unfold strings.TrimRightSpace.
  destruct (strings.lastNonSpace (length s) s (length s)) as [i|]; [|simpl; lia].
  destruct (strings.RuneSelf <=? byteval (nth i s NUL))%Z;
    rewrite length_firstn; lia.
Qed.

Lemma length_trimSpaceStop (r : gostring) :
  (length (strings.trimSpaceStop r) <= length r)%nat.
Proof.
  induction r as [|c r IH]; [simpl; lia|].
  cbn [strings.trimSpaceStop].
  destruct (strings.RuneSelf <=? byteval c)%Z.
  - etransitivity; [apply length_TrimRightSpace|]. now rewrite length_rev.
  - destruct (strings.asciiSpace c); [simpl; lia | now rewrite length_rev].
Qed.

Lemma length_TrimSpace (s : gostring) :
  (length (strings.TrimSpace s) <= length s)%nat.
Proof.
  unfold strings.TrimSpace. induction s as [|c s IH]; [simpl; lia|].
  cbn [strings.trimSpaceStart].
  destruct (strings.RuneSelf <=? byteval c)%Z.
  - etransitivity; [apply length_TrimRightSpace|].
    unfold strings.TrimLeftSpace. apply length_trimLeftSpaces.
  - destruct (strings.asciiSpace c); [simpl; lia|].
    etransitivity; [apply length_trimSpaceStop|]. now rewrite length_rev.
Qed.

Lemma digit_range (c : ascii) (d : Z) : strconv.digit c = Some d -> (0 <= d <= 9)%Z.
Proof.
  unfold strconv.digit.
  destruct ((48 <=? byteval c)%Z && (byteval c <=? 57)%Z) eqn:E; [|discriminate].
  apply andb_true_iff in E as [E1 E2]. apply Z.leb_le in E1. apply Z.leb_le in E2.
  intros H. injection H as <-. lia.
Qed.

Lemma fastDigits_bound (s : gostring) :
  forall m v : Z,
    (0 <= m)%Z -> strconv.fastDigits m s = Some v ->
    (m * 10 ^ Z.of_nat (length s) <= v < (m + 1) * 10 ^ Z.of_nat (length s))%Z.
Proof.
  induction s as [|c s IH]; intros m v Hm H.
  - simpl in H. injection H as <-. simpl. lia.
  - cbn [strconv.fastDigits] in H. destruct (strconv.digit c) as [d|] eqn:Ed; [|discriminate].
    apply digit_range in Ed. apply IH in H; [|lia].
    cbn [length]. rewrite Nat2Z.inj_succ, Z.pow_succ_r by lia.
    assert (Hp : (0 < 10 ^ Z.of_nat (length s))%Z) by (apply Z.pow_pos_nonneg; lia).
    nia.
Qed.

Lemma Atoi_range (s : gostring) (v : Z) (k : nat) :
  strconv.Atoi s = (v, None) -> (length s <= k)%nat -> (1 <= k <= 18)%nat ->
  (- 10 ^ Z.of_nat (k - 1) < v < 10 ^ Z.of_nat k)%Z.
Proof.
  intros H Hl Hk. unfold strconv.Atoi in H.
  destruct s as [|c s'].
  - simpl in H. discriminate.
  - destruct ((0 <? length (c :: s'))%nat && (length (c :: s') <? 19)%nat) eqn:E.
    2:{ apply andb_false_iff in E as [E|E]; [apply Nat.ltb_ge in E | apply Nat.ltb_ge in E];
        simpl in *; lia. }
    assert (Hmono : forall a b : nat, (a <= b)%nat -> (10 ^ Z.of_nat a <= 10 ^ Z.of_nat b)%Z)
      by (intros a b Hab; apply Z.pow_le_mono_r; lia).
    assert (Hpos : forall a : nat, (0 < 10 ^ Z.of_nat a)%Z)
      by (intros a; apply Z.pow_pos_nonneg; lia).
    cbn [length] in Hl.
    destruct (strconv.isSign c) eqn:Es.
    + destruct s' as [|c' s'']; [discriminate|].
      destruct (strconv.fastDigits 0 (c' :: s'')) as [n|] eqn:Ef; [|discriminate].
      apply fastDigits_bound in Ef; [|lia].
      pose proof (Hmono (length (c' :: s'')) (k - 1)%nat ltac:(lia)) as H1.
      pose proof (Hmono (k - 1)%nat k ltac:(lia)) as H2.
      pose proof (Hpos (k - 1)%nat) as H3.
      injection H as <-. destruct (Ascii.eqb c "-"); lia.
    + destruct (strconv.fastDigits 0 (c :: s')) as [n|] eqn:Ef; [|discriminate].
      apply fastDigits_bound in Ef; [|lia].
      pose proof (Hmono (length (c :: s')) k ltac:(simpl; lia)) as H1.
      pose proof (Hpos (k - 1)%nat) as H3.
      unfold strconv.isSign in Es. apply orb_false_iff in Es as [Em _].
      rewrite Em in H. injection H as <-. lia.
Qed.

(** X18.  What [parseFixed16Header] can return: a header it accepts has 16
    bytes, a status code between -99 and 999 and a length between
    -9999999999 and 99999999999, since a sign counts among the three and
    the eleven characters.  Both ends are reached: the parser accepts
    negative codes and negative lengths. *)
Theorem parseFixed16Header_range :
  (forall (hdr : gostring) (code n : Z),
      parseFixed16Header hdr = (code, n, None) ->
      length hdr = 16%nat
      /\ (-100 < code < 1000)%Z
      /\ (- 10 ^ 10 < n < 10 ^ 11)%Z)
  /\ parseFixed16Header (str "-99 -9999999999" ++ [LF])
     = ((-99)%Z, (-9999999999)%Z, None)
  /\ parseFixed16Header (str "999 99999999999" ++ [LF])
     = (999%Z, 99999999999%Z, None).
Proof.
  split; [|split; reflexivity].
  intros hdr code n H. unfold parseFixed16Header in H.
  destruct (length hdr =? 16)%nat eqn:El; [|simpl in H; discriminate].
  apply Nat.eqb_eq in El. cbn [negb] in H.
  destruct (strconv.Atoi (strings.TrimSpace (substr hdr 0 3))) as [c [e|]] eqn:Ec;
    [discriminate|].
  destruct (strconv.Atoi (strings.TrimSpace (substr hdr 4 15))) as [l [e|]] eqn:En;
    [discriminate|].
  injection H as <- <-. split; [exact El|].
  assert (L3 : (length (strings.TrimSpace (substr hdr 0 3)) <= 3)%nat).
  { etransitivity; [apply length_TrimSpace|]. unfold substr. rewrite length_firstn. lia. }
  assert (L11 : (length (strings.TrimSpace (substr hdr 4 15)) <= 11)%nat).
  { etransitivity; [apply length_TrimSpace|]. unfold substr. rewrite length_firstn. lia. }
  split.
  - apply (@Atoi_range _ c 3%nat) in Ec; [|exact L3 | lia]. exact Ec.
  - apply (@Atoi_range _ l 11%nat) in En; [|exact L11 | lia]. exact En.
Qed.

Lemma parseFixed16Header_range_witness :
  parseFixed16Header hdr_notfound_5 = (404%Z, 5%Z, None)
  /\ length hdr_notfound_5 = 16%nat
  /\ (-100 < 404 < 1000)%Z
  /\ (- 10 ^ 10 < 5 < 10 ^ 11)%Z.
Proof.
  assert (H : parseFixed16Header hdr_notfound_5 = (404%Z, 5%Z, None)) by reflexivity.
  split; [exact H|].
  exact (proj1 parseFixed16Header_range hdr_notfound_5 404%Z 5%Z H).
Defined.

(** * The end of the text [Build] returns *)

Lemma noLF_end (s : gostring) : ~ In LF s -> strings.HasSuffix s [LF] = false.
Proof.
  intros H. destruct (strings.HasSuffix s [LF]) eqn:E; [|reflexivity].
  apply HasSuffix_iff in E as [p ->]. exfalso. apply H.
  apply in_or_app. right. now left.
Qed.

Lemma endsPlain_app (p s : gostring) : s <> [] -> ~ In LF s -> endsPlain (p ++ s).
Proof.
  intros Hne Hs. split.
  - intros H. apply app_eq_nil in H as [_ H]. contradiction.
  - rewrite HasSuffix_app_LF by exact Hne. now apply noLF_end.
Qed.

Lemma endsPlain_cons (p : gostring) (c : ascii) (s : gostring) :
  c <> LF -> ~ In LF s -> endsPlain (p ++ c :: s).
Proof.
  intros Hc Hs. apply endsPlain_app; [discriminate|].
  intros [H|H]; [now apply Hc | now apply Hs].
Qed.

Lemma fmt_d_noLF (n : Z) : fmt.d n <> [] /\ ~ In LF (fmt.d n).
Proof.
  assert (Hu : forall m, (0 <= m)%Z -> ~ In LF (fmt.utoa m)).
  { intros m Hm H. destruct (utoa_digits Hm) as (Hd & _ & _).
    rewrite Forall_forall in Hd. destruct (Hd _ H) as [d E]. vm_compute in E. discriminate. }
  unfold fmt.d. destruct (n <? 0)%Z eqn:E.
  - apply Z.ltb_lt in E. split; [discriminate|].
    intros [H|H]; [discriminate | apply (Hu (- n)%Z); [lia | exact H]].
  - apply Z.ltb_ge in E. destruct (utoa_digits E) as (_ & Hne & _).
    split; [exact Hne | now apply Hu].
Qed.

Lemma endsPlain_d (p : gostring) (n : Z) : endsPlain (p ++ fmt.d n).
Proof. destruct (fmt_d_noLF n) as [H1 H2]. now apply endsPlain_app. Qed.

Lemma safeValue_noLF (x : gostring) : ~ In LF (safeValue x).
Proof. apply (safeValue_clean x). Qed.

Lemma safeToken_noLF (x : gostring) : ~ In LF (safeToken x).
Proof. apply (safeToken_noCRLF x). Qed.

Lemma filterLinesOf_endsPlain (c : call) : Forall endsPlain (filterLinesOf c).
Proof.
  assert (HF : forall col op x, endsPlain (filterLine col op x)).
  { intros col op x. unfold filterLine.
    rewrite !app_assoc. rewrite <- (app_assoc _ [SP] (safeValue x)).
    apply endsPlain_cons; [discriminate | apply safeValue_noLF]. }
  destruct c; cbn [filterLinesOf];
    repeat match goal with
           | |- Forall _ [] => constructor
           | |- Forall _ (_ :: _) => constructor
           | |- endsPlain (filterLine _ _ _) => apply HF
           | |- endsPlain (_ ++ fmt.d _) => apply endsPlain_d
           | |- endsPlain (str _) => split; [discriminate | reflexivity]
           end.
Qed.

Lemma headerLinesOf_endsPlain (c : call) : Forall endsPlain (headerLinesOf c).
Proof.
  destruct c; cbn [headerLinesOf];
    repeat match goal with
           | |- Forall _ [] => constructor
           | |- Forall _ [_] => constructor
           | |- endsPlain (_ ++ fmt.d _) => apply endsPlain_d
           | |- endsPlain (str _) => split; [discriminate | reflexivity]
           end.
  - change (str "WaitObject: ") with (str "WaitObject:" ++ [SP]).
    rewrite <- app_assoc. apply endsPlain_cons; [discriminate | apply safeValue_noLF].
  - change (str "WaitTrigger: ") with (str "WaitTrigger:" ++ [SP]).
    rewrite <- app_assoc. apply endsPlain_cons; [discriminate | apply safeToken_noLF].
  - change (str "WaitCondition: ") with (str "WaitCondition:" ++ [SP]).
    rewrite <- app_assoc. apply endsPlain_cons; [discriminate | apply safeValue_noLF].
  - destruct on; split; (discriminate || reflexivity).
  - unfold headerLine.
    destruct (strings.TrimSpace (strings.TrimSuffix key (str ":"))) as [|k0 k];
      [constructor|].
    destruct value as [|v0 v]; (constructor; [|constructor]).
    + apply (@endsPlain_cons (k0 :: k) ":"%char []); [discriminate | intros H; exact H].
    + apply (@endsPlain_cons (k0 :: k) ":"%char (" "%char :: safeValue (v0 :: v)));
        [discriminate|].
      intros [H|H]; [discriminate | exact (safeValue_noLF _ H)].
Qed.

Lemma columnsLine_endsPlain (v : QueryV) : Forall endsPlain (columnsLine v).
Proof.
  unfold columnsLine. destruct (vcolumns v) as [|c cs] eqn:E; [constructor|].
  constructor; [|constructor].
  change (str "Columns: ") with (str "Columns:" ++ [SP]).
  rewrite <- app_assoc. apply endsPlain_cons; [discriminate|].
  assert (H : noCRLF (strings.Join (map safeToken (vcolumns v)) [SP])).
  { apply Join_noCRLF. apply Forall_forall.
    intros x Hx. apply in_map_iff in Hx as (y & <- & _). apply safeToken_noCRLF. }
  rewrite E in H. apply H.
Qed.

Lemma columnHeadersLine_endsPlain (v : QueryV) : Forall endsPlain (columnHeadersLine v).
Proof.
  unfold columnHeadersLine.
  destruct (vcolumnHdrs v) as [[|]|]; repeat constructor; discriminate.
Qed.

Lemma Forall_flat_map (A B : Type) (P : B -> Prop) (f : A -> list B) (l : list A) :
  (forall x, Forall P (f x)) -> Forall P (flat_map f l).
Proof.
  intros H. induction l as [|x l IH]; [constructor|].
  cbn [flat_map]. apply Forall_app. split; [apply H | exact IH].
Qed.

(** The text [Build] returns ends with two newlines exactly when its last
    line ends with a newline. *)
Lemma Join_lines_end (L0 : list gostring) (l : gostring) :
  l <> [] ->
  strings.HasSuffix (strings.Join ((L0 ++ [l]) ++ [[]]) [LF]) [LF; LF]
  = strings.HasSuffix l [LF].
Proof.
  intros Hne. destruct (exists_last Hne) as (l' & c & ->).
  destruct (Join_last L0 (l' ++ [c]) [LF]) as (pre & Hpre).
  match goal with
  | |- strings.HasSuffix ?t _ = _ => assert (HJ : t = ((pre ++ l') ++ [c]) ++ [LF])
  end.
  { rewrite Join_snoc by (destruct L0; discriminate).
    rewrite app_nil_r. f_equal. rewrite <- app_assoc. exact Hpre. }
  rewrite HJ, HasSuffix_snoc.
  destruct (Ascii.eqb c LF) eqn:E.
  - apply Ascii.eqb_eq in E. subst c. apply HasSuffix_iff. exists (pre ++ l').
    now rewrite <- app_assoc.
  - destruct (strings.HasSuffix (((pre ++ l') ++ [c]) ++ [LF]) [LF; LF]) eqn:E2;
      [|reflexivity].
    apply HasSuffix_iff in E2 as [p E2].
    replace (p ++ [LF; LF]) with ((p ++ [LF]) ++ [LF]) in E2
      by (now rewrite <- app_assoc).
    apply app_inj_tail in E2 as [E2 _]. apply app_inj_tail in E2 as [_ ->].
    now rewrite Ascii.eqb_refl in E.
Qed.

Section TerminatorProperties.

Variable growslice : nat -> nat -> nat.

(** C3, as the code has it.  For every sequence of builder calls, [Build]
    returns a string that starts with [GET <table>] and a newline, and
    that ends with a newline, the one before the empty last line.  It ends
    with two newlines exactly when its last line itself ends with a
    newline.  That cannot happen when neither the table nor the output
    format ends with a newline, since every other line ends in a sanitised
    value, a number or a fixed word; it does happen when the output format
    ends with a newline, and when the table does and nothing follows it.
    Scenario A yields
    ["GET hosts\nColumns: name state\nLimit: 10\nOutputFormat: json\n"],
    with one newline at its end. *)
Theorem Build_first_line_and_terminator :
  (forall (st0 : store) (t : Table) (cols : list gostring) (cs : list call),
      let v := applyAllV cs (newV t cols) in
      exists q st text st',
        newQuery growslice t cols cs st0 = Some (q, st)
        /\ Build growslice q st = Some (text, st')
        /\ (exists rest, text = str "GET " ++ t ++ [LF] ++ rest)
        /\ (exists body, text = body ++ [LF])
        /\ strings.HasSuffix text [LF; LF]
           = strings.HasSuffix
               (last (getLine v ++ columnsLine v ++ vfilters v ++ columnHeadersLine v
                      ++ vheaders v ++ outputFormatLine v) []) [LF]
        /\ (strings.HasSuffix t [LF] = false ->
            strings.HasSuffix (voutputFormat v) [LF] = false ->
            strings.HasSuffix text [LF; LF] = false)
        /\ (forall f, voutputFormat v = f ++ [LF] ->
                      strings.HasSuffix text [LF; LF] = true))
  /\ (forall (st0 : store) (t' : gostring),
         exists q st st',
           newQuery growslice (t' ++ [LF]) [] [] st0 = Some (q, st)
           /\ Build growslice q st = Some (str "GET " ++ t' ++ [LF] ++ [LF], st'))
  /\ (forall st0 : store,
         exists q st st',
           newQuery growslice (str "hosts") [str "name"; str "state"]
                    scenarioA_calls st0 = Some (q, st)
           /\ Build growslice q st = Some (scenarioA_text, st')).
Proof.
  split; [|split].
  - intros st0 t cols cs v.
    destruct (@newQuery_spec growslice t cols cs st0) as (q & st & o & E & Hq & Hw & Hv).
    destruct (@Build_spec growslice q o st Hq Hw) as (st' & EB & _).
    fold v in Hv. rewrite Hv in EB.
    destruct (applyAllV_lines cs (newV t cols)) as (H1 & H2 & H3).
    fold v in H1, H2, H3. cbn [newV vtable vfilters vheaders app] in H1, H2, H3.
    exists q, st, (strings.Join (linesV v) [LF]), st'.
    split; [exact E|]. split; [exact EB|].
    set (L := getLine v ++ columnsLine v ++ vfilters v ++ columnHeadersLine v
              ++ vheaders v ++ outputFormatLine v).
    assert (HL : linesV v = L ++ [[]])
      by (unfold linesV, L; now rewrite <- !app_assoc).
    assert (Hfil : Forall endsPlain (vfilters v))
      by (rewrite H2; apply Forall_flat_map, filterLinesOf_endsPlain).
    assert (Hhdr : Forall endsPlain (vheaders v))
      by (rewrite H3; apply Forall_flat_map, headerLinesOf_endsPlain).
    assert (Hget : getLine v = [str "GET " ++ t]) by (unfold getLine; now rewrite H1).
    assert (Hne : Forall (fun l => l <> []) L).
    { unfold L. rewrite Hget. repeat (apply Forall_app; split).
      - repeat constructor. discriminate.
      - eapply Forall_impl; [|apply columnsLine_endsPlain]. now intros a [Ha _].
      - eapply Forall_impl; [|exact Hfil]. now intros a [Ha _].
      - eapply Forall_impl; [|apply columnHeadersLine_endsPlain]. now intros a [Ha _].
      - eapply Forall_impl; [|exact Hhdr]. now intros a [Ha _].
      - unfold outputFormatLine. destruct (voutputFormat v); repeat constructor.
        discriminate. }
    assert (HLne : L <> []) by (unfold L; rewrite Hget; discriminate).
    destruct (exists_last HLne) as (L0 & l & EL).
    assert (Hl : l <> []).
    { rewrite EL in Hne. apply Forall_app in Hne as [_ Hne]. exact (Forall_inv Hne). }
    assert (Hend : strings.HasSuffix (strings.Join (linesV v) [LF]) [LF; LF]
                   = strings.HasSuffix (last L []) [LF]).
    { rewrite HL, EL, last_last. now apply Join_lines_end. }
    split; [|split; [|split; [exact Hend|split]]].
    + exists (strings.Join (columnsLine v ++ vfilters v ++ columnHeadersLine v
                            ++ vheaders v ++ outputFormatLine v ++ [[]]) [LF]).
      unfold linesV. rewrite Hget.
      change ([str "GET " ++ t] ++ ?l) with ((str "GET " ++ t) :: l).
      rewrite Join_cons.
      * now rewrite <- !app_assoc.
      * intros H. repeat (apply app_eq_nil in H; destruct H as [_ H]). discriminate.
    + exists (strings.Join L [LF]). rewrite HL.
      rewrite Join_snoc by exact HLne. now rewrite app_nil_r.
    + intros Ht Hf. rewrite Hend.
      assert (Hall : Forall endsPlain L).
      { unfold L. rewrite Hget. repeat (apply Forall_app; split).
        - constructor; [|constructor]. destruct t as [|c t0].
          + split; [discriminate | reflexivity].
          + split; [discriminate|]. rewrite HasSuffix_app_LF by discriminate. exact Ht.
        - apply columnsLine_endsPlain.
        - exact Hfil.
        - apply columnHeadersLine_endsPlain.
        - exact Hhdr.
        - unfold outputFormatLine. destruct (voutputFormat v) as [|c f] eqn:Ef;
            constructor; [|constructor].
          split; [discriminate|]. rewrite HasSuffix_app_LF by discriminate. exact Hf. }
      rewrite EL in Hall. apply Forall_app in Hall as [_ Hall].
      rewrite EL, last_last. exact (proj2 (Forall_inv Hall)).
    + intros f Hf. rewrite Hend. unfold L, outputFormatLine. rewrite Hf.
      destruct (f ++ [LF]) as [|c0 f0] eqn:Ef; [now destruct f|]. rewrite <- Ef.
      rewrite !app_assoc, last_last.
      apply HasSuffix_iff. exists (str "OutputFormat: " ++ f). now rewrite <- app_assoc.
  - intros st0 t'.
    destruct (@newQuery_spec growslice (t' ++ [LF]) [] [] st0)
      as (q & st & o & E & Hq & Hw & Hv).
    destruct (@Build_spec growslice q o st Hq Hw) as (st' & EB & _).
    exists q, st, st'. split; [exact E|]. rewrite EB, Hv.
    cbn. now rewrite <- !app_assoc.
  - intros st0.
    destruct (@newQuery_spec growslice (str "hosts") [str "name"; str "state"]
                            scenarioA_calls st0) as (q & st & o & E & Hq & Hw & Hv).
    destruct (@Build_spec growslice q o st Hq Hw) as (st' & EB & _).
    exists q, st, st'. split; [exact E|]. rewrite EB, Hv. reflexivity.
Qed.

End TerminatorProperties.

Lemma Build_first_line_and_terminator_witness :
  strings.HasSuffix (str "hosts") [LF] = false
  /\ strings.HasSuffix
       (voutputFormat (applyAllV scenarioA_calls (newV (str "hosts") [str "name"; str "state"])))
       [LF] = false
  /\ exists q st text st',
       newQuery (fun _ n => n) (str "hosts") [str "name"; str "state"] scenarioA_calls
                emptyStore = Some (q, st)
       /\ Build (fun _ n => n) q st = Some (text, st')
       /\ strings.HasSuffix text [LF; LF] = false.
Proof.
  split; [reflexivity|]. split; [reflexivity|].
  destruct (proj1 (@Build_first_line_and_terminator (fun _ n => n)) emptyStore
                  (str "hosts") [str "name"; str "state"] scenarioA_calls)
    as (q & st & text & st' & E & EB & _ & _ & _ & H & _).
  exists q, st, text, st'. split; [exact E|]. split; [exact EB|].
  exact (H eq_refl eq_refl).
Defined.
